(** * fetch-suspense: a tag-indexed, deduplicating cache of network fetches

    A shallow embedding of [src/fetch-cache-item.ts] and of the two designs
    found in [src/fetch-suspense.ts] (the tag-indexed multi-instance class
    and the flat-list class), with the properties of the cache engine
    stated and proved over it.

    Modelling conventions.
    - A JavaScript value of type [any] is a [jsval]; [x != null] is
      [negb (nullish x)].
    - Objects that are shared by reference ([FetchCacheItem] instances) live
      in a heap, a list indexed by allocation order; a reference is an index.
    - [FetchSuspense.fetchCache], a JS object used as a dictionary from tag
      to array, is a [gmap string (list ref)].  Reading a missing tag yields
      [undefined] in the source and the following method call raises a
      [TypeError]; the embedding returns [TypeError] there.  Tags that name
      inherited properties of [Object.prototype] are outside the model.
    - The [deep-equal] package is an external dependency; it is modelled as
      structural equality on the request data of the model.
    - A lifespan is a whole number of milliseconds, possibly negative;
      [NaN] and fractions are outside the model.
    - The global [fetch] transport, [setTimeout] and the event emitter are
      external: the world records the transport calls issued, the timers
      pending and the notifications emitted.  Settlement of a transport call
      and the passing of time are events applied to the world. *)

From Stdlib Require Import ZArith Lia.
From stdpp Require Import gmap strings list fin_maps.

(** ** JavaScript values *)

Inductive jsval : Type :=
| JUndefined
| JNull
| JBool (b : bool)
| JNum (n : Z)
| JStr (s : string)
| JObj (addr : nat).

#[global] Instance jsval_eq_dec : EqDecision jsval.
Proof. solve_decision. Defined.

(** [v == null] in JavaScript: true exactly for [null] and [undefined]. *)
Definition nullish (v : jsval) : bool :=
  match v with
  | JUndefined | JNull => true
  | _ => false
  end.

(** ** Request identity *)

(** [RequestInit]: an options object, a finite map from field name
    (method, body, mode, ...) to value. *)
Abbreviation RequestInit := (gmap string string).

(** [RequestInfo = string | Request]. *)
Inductive RequestInfo : Type :=
| Url (s : string)
| Request (url : string) (init : RequestInit).

#[global] Instance RequestInfo_eq_dec : EqDecision RequestInfo.
Proof. solve_decision. Defined.

(** [deepEqual] of the deep-equal package, on the data of the model. *)
Definition deepEqual {A : Type} `{EqDecision A} (a b : A) : bool :=
  bool_decide (a = b).

Lemma deepEqual_true {A : Type} `{EqDecision A} (a b : A) :
  deepEqual a b = true <-> a = b.
Proof. unfold deepEqual. apply bool_decide_eq_true. Qed.

Lemma deepEqual_refl {A : Type} `{EqDecision A} (a : A) : deepEqual a a = true.
Proof. by apply deepEqual_true. Qed.

(** ** Completions, promises and the transport *)

(** A computation either returns or throws a JavaScript value. *)
Inductive Completion (A : Type) : Type :=
| Returns (a : A)
| Throws (e : jsval).
Arguments Returns {A} a.
Arguments Throws {A} e.

Definition completion_map {A B : Type} (f : A -> B) (c : Completion A) : Completion B :=
  match c with
  | Returns a => Returns (f a)
  | Throws e => Throws e
  end.

(** What the transport hands back: the [Content-Type] header ([None] when
    [headers.get] returns [null]) and what decoding the body would give. *)
Record Response : Type := mkResponse {
  contentType : option string;
  json : Completion jsval;
  text : Completion string
}.

(** The state of a [Promise<void>]. *)
Inductive PromiseState : Type :=
| Pending
| Fulfilled
| Rejected (reason : jsval).

(** What a caller awaiting a promise observes. *)
Inductive AwaitResult : Type :=
| StillPending
| Resolves (v : jsval)
| Rejects (e : jsval).

(** [s.includes(needle)] *)
Definition includes (needle s : string) : bool :=
  match String.index 0 needle s with
  | Some _ => true
  | None => false
  end.

(** ** fetch-cache-item.ts *)

Module FetchCacheItem.

Record t : Type := mk {
  error : jsval;
  response : jsval;
  lifespan : Z;
  expired : bool;
  fetch : PromiseState;
  input : RequestInfo;
  opts : option RequestInit
}.

(** The fields as the constructor leaves them: [error] and [response]
    unassigned, [expired = false], the fetch promise pending. *)
Definition init (input : RequestInfo) (opts : option RequestInit) (lifespan : Z) : t :=
  {| error := JUndefined; response := JUndefined; lifespan := lifespan;
     expired := false; fetch := Pending; input := input; opts := opts |}.

(** [if (this.lifespan)]: a number is truthy unless it is zero. *)
Definition startsTimer (lifespan : Z) : bool := negb (lifespan =? 0)%Z.

Definition argsEqual (input' : RequestInfo) (opts' : option RequestInit) (it : t) : bool :=
  deepEqual input' (input it) && deepEqual opts' (opts it).

Definition urlEqual (url : string) (it : t) : bool :=
  match input it with
  | Request u _ => bool_decide (u = url)
  | Url s => bool_decide (s = url)
  end.

Definition isExpired (it : t) : bool := expired it.

Definition setExpired (it : t) : t :=
  {| error := error it; response := response it; lifespan := lifespan it;
     expired := true; fetch := fetch it; input := input it; opts := opts it |}.

(** The body of [generateFetch] up to the assignment: the decoded data, or
    the value caught by the [catch] clause. *)
Definition decode (tr : Completion Response) : Completion jsval :=
  match tr with
  | Throws e => Throws e
  | Returns resp =>
      let contentType := default ""%string (contentType resp) in
      if includes "application/json" contentType
      then json resp
      else completion_map JStr (text resp)
  end.

(** [generateFetch] once the transport has answered with [tr]: one of the
    two fields is assigned and the promise is fulfilled. *)
Definition generateFetch (tr : Completion Response) (it : t) : t :=
  match decode tr with
  | Returns data =>
      {| error := error it; response := data; lifespan := lifespan it;
         expired := expired it; fetch := Fulfilled; input := input it; opts := opts it |}
  | Throws e =>
      {| error := e; response := response it; lifespan := lifespan it;
         expired := expired it; fetch := Fulfilled; input := input it; opts := opts it |}
  end.

(** [getPromise]: await the fetch, then throw the error if it is not
    nullish, else return the response. *)
Definition getPromise (it : t) : AwaitResult :=
  match fetch it with
  | Pending => StillPending
  | Rejected e => Rejects e
  | Fulfilled =>
      if negb (nullish (error it)) then Rejects (error it) else Resolves (response it)
  end.

End FetchCacheItem.

(** ** Results of the embedded methods *)

(** A method either completes, raises the [TypeError] of a call on
    [undefined], or (for the one [while] loop of the source) exhausts the
    fuel of the model; the last is shown never to happen. *)
Inductive result (A : Type) : Type :=
| Ok (a : A)
| TypeError
| OutOfFuel.
Arguments Ok {A} a.
Arguments TypeError {A}.
Arguments OutOfFuel {A}.

Definition result_bind {A B : Type} (m : result A) (k : A -> result B) : result B :=
  match m with
  | Ok a => k a
  | TypeError => TypeError
  | OutOfFuel => OutOfFuel
  end.

Notation "'let*' x ':=' m 'in' k" := (result_bind m (fun x => k))
  (at level 10, x name, m at level 100, k at level 200).

(** ** The world: everything the two classes and their collaborators share *)

Abbreviation ref := nat.

Record World : Type := mkWorld {
  heap : list FetchCacheItem.t;        (* every FetchCacheItem constructed so far *)
  fetchCache : gmap string (list ref); (* FetchSuspense.fetchCache *)
  instances : list (list string);      (* FetchSuspense.instances, by their tags *)
  calls : list (RequestInfo * option RequestInit);  (* transport calls issued *)
  timers : list (Z * ref);             (* pending setTimeout callbacks: deadline, item *)
  now : Z;                             (* the clock, in milliseconds *)
  emitted : list nat                   (* 'elementsExpired' emitted, by instance index *)
}.

Definition emptyWorld : World :=
  {| heap := []; fetchCache := ∅; instances := []; calls := []; timers := [];
     now := 0%Z; emitted := [] |}.

Definition with_heap (h : list FetchCacheItem.t) (w : World) : World :=
  {| heap := h; fetchCache := fetchCache w; instances := instances w;
     calls := calls w; timers := timers w; now := now w; emitted := emitted w |}.

Definition with_fetchCache (c : gmap string (list ref)) (w : World) : World :=
  {| heap := heap w; fetchCache := c; instances := instances w;
     calls := calls w; timers := timers w; now := now w; emitted := emitted w |}.

Definition with_emitted (e : list nat) (w : World) : World :=
  {| heap := heap w; fetchCache := fetchCache w; instances := instances w;
     calls := calls w; timers := timers w; now := now w; emitted := e |}.

(** [item.isExpired()] through a reference. *)
Definition expiredAt (w : World) (r : ref) : bool :=
  match heap w !! r with
  | Some it => FetchCacheItem.isExpired it
  | None => false
  end.

(** [item.setExpired()] through a reference: every holder of the reference
    sees the flag. *)
Definition setExpiredAt (r : ref) (w : World) : World :=
  match heap w !! r with
  | Some it => with_heap (<[r := FetchCacheItem.setExpired it]> (heap w)) w
  | None => w
  end.

(** [new FetchCacheItem(input, opts, lifespan)]: the item is allocated, the
    transport is called at once ([generateFetch] runs up to its first
    [await]), and a timer is set when the lifespan is truthy.  [setTimeout]
    treats a negative delay as zero. *)
Definition newFetchCacheItem (input : RequestInfo) (opts : option RequestInit)
    (lifespan : Z) (w : World) : ref * World :=
  let r := length (heap w) in
  (r, {| heap := heap w ++ [FetchCacheItem.init input opts lifespan];
         fetchCache := fetchCache w;
         instances := instances w;
         calls := calls w ++ [(input, opts)];
         timers := if FetchCacheItem.startsTimer lifespan
                   then timers w ++ [((now w + Z.max 0 lifespan)%Z, r)]
                   else timers w;
         now := now w;
         emitted := emitted w |}).

(** The transport call of item [r] settles with [tr]: the continuation of
    [generateFetch] runs.  A promise settles once. *)
Definition settle (r : ref) (tr : Completion Response) (w : World) : World :=
  match heap w !! r with
  | Some it =>
      match FetchCacheItem.fetch it with
      | Pending => with_heap (<[r := FetchCacheItem.generateFetch tr it]> (heap w)) w
      | _ => w
      end
  | None => w
  end.

(** The event loop runs for [dt] milliseconds: every timer that is due by
    then fires, [() => this.expired = true], and is discarded. *)
Definition due (t : Z) (tm : Z * ref) : bool := (fst tm <=? t)%Z.

Definition fireTimers (w : World) : World :=
  let w1 := foldl (fun acc tm => setExpiredAt (snd tm) acc) w
                  (List.filter (due (now w)) (timers w)) in
  {| heap := heap w1; fetchCache := fetchCache w1; instances := instances w1;
     calls := calls w1;
     timers := List.filter (fun tm => negb (due (now w) tm)) (timers w);
     now := now w1; emitted := emitted w1 |}.

Definition advance (dt : N) (w : World) : World :=
  fireTimers {| heap := heap w; fetchCache := fetchCache w; instances := instances w;
                calls := calls w; timers := timers w; now := (now w + Z.of_N dt)%Z;
                emitted := emitted w |}.

(** ** fetch-suspense.ts, the tag-indexed design *)

Module FetchSuspense.

(** What the synchronous [fetch] hands to its caller: a returned value, a
    thrown error, or the thrown [fetch] promise of an item. *)
Inductive Signal : Type :=
| Return (v : jsval)
| ThrowError (e : jsval)
| ThrowPromise (r : ref).

(** The constructor: the instance is pushed and each of its tags gets an
    empty array unless it has one. *)
Definition ensureTag (c : gmap string (list ref)) (tag : string) : gmap string (list ref) :=
  match c !! tag with
  | Some _ => c
  | None => <[tag := []]> c
  end.

Definition new (tags : list string) (w : World) : World :=
  {| heap := heap w;
     fetchCache := foldl ensureTag (fetchCache w) tags;
     instances := instances w ++ [tags];
     calls := calls w; timers := timers w; now := now w; emitted := emitted w |}.

(** [FetchSuspense.tag(tags)] for an array of tags: the first instance
    with deep-equal tags is reused, else one is constructed.  The result
    is the index of the instance. *)
Definition tag (tags : list string) (w : World) : nat * World :=
  match list_find (fun ts => deepEqual tags ts = true) (instances w) with
  | Some (i, _) => (i, w)
  | None => (length (instances w), new tags w)
  end.

(** [this.tags.some(tag => tags.includes(tag))] *)
Definition hasOneOfTheseTags (this_tags tags : list string) : bool :=
  existsb (fun tag => bool_decide (tag ∈ tags)) this_tags.

(** The predicate handed to [Array.prototype.find] by both finders:
    the item matches and is not expired. *)
Definition liveMatch (P : FetchCacheItem.t -> bool) (w : World) (r : ref) : bool :=
  match heap w !! r with
  | Some it => P it && negb (FetchCacheItem.isExpired it)
  | None => false
  end.

(** The loop shared by [findFetchURL] and [findFetchItem]: the tags in
    order, in each the first item that matches and is not expired. *)
Fixpoint findWith (P : FetchCacheItem.t -> bool) (tags : list string) (w : World)
    : result (option ref) :=
  match tags with
  | [] => Ok None
  | tag :: rest =>
      match fetchCache w !! tag with
      | None => TypeError
      | Some items =>
          match find (liveMatch P w) items with
          | Some r => Ok (Some r)
          | None => findWith P rest w
          end
      end
  end.

Definition findFetchURL (url : string) : list string -> World -> result (option ref) :=
  findWith (FetchCacheItem.urlEqual url).

Definition findFetchItem (input : RequestInfo) (opts : option RequestInit)
    : list string -> World -> result (option ref) :=
  findWith (FetchCacheItem.argsEqual input opts).

(** [cleanCache]: each tag's array is replaced by its non-expired items. *)
Fixpoint cleanCache (tags : list string) (w : World) : result World :=
  match tags with
  | [] => Ok w
  | tag :: rest =>
      match fetchCache w !! tag with
      | None => TypeError
      | Some items =>
          cleanCache rest
            (with_fetchCache
               (<[tag := List.filter (fun r => negb (expiredAt w r)) items]> (fetchCache w)) w)
      end
  end.

(** [this.tags.forEach(tag => fetchCache[tag].push(newFetchItem))] *)
Fixpoint register (tags : list string) (r : ref) (w : World) : result World :=
  match tags with
  | [] => Ok w
  | tag :: rest =>
      match fetchCache w !! tag with
      | None => TypeError
      | Some items => register rest r (with_fetchCache (<[tag := items ++ [r]]> (fetchCache w)) w)
      end
  end.

(** The synchronous, Suspense-compatible [fetch]. *)
Definition fetch (input : RequestInfo) (opts : option RequestInit) (lifespan : Z)
    (tags : list string) (w : World) : result (Signal * World) :=
  let* existingFetchItem := findFetchItem input opts tags w in
  match existingFetchItem with
  | Some r =>
      match heap w !! r with
      | None => TypeError
      | Some it =>
          if negb (nullish (FetchCacheItem.error it)) then
            Ok (ThrowError (FetchCacheItem.error it), w)
          else if negb (nullish (FetchCacheItem.response it)) then
            Ok (Return (FetchCacheItem.response it), w)
          else
            Ok (ThrowPromise r, w)
      end
  | None =>
      let (r, w1) := newFetchCacheItem input opts lifespan w in
      let* w2 := register tags r w1 in
      Ok (ThrowPromise r, w2)
  end.

(** [nonReactFetch]: the result is the item whose [getPromise()] is
    returned to the caller. *)
Definition nonReactFetch (input : RequestInfo) (opts : option RequestInit) (lifespan : Z)
    (tags : list string) (w : World) : result (ref * World) :=
  let* existingFetchItem := findFetchItem input opts tags w in
  match existingFetchItem with
  | Some r => Ok (r, w)
  | None =>
      let (r, w1) := newFetchCacheItem input opts lifespan w in
      let* w2 := register tags r w1 in
      Ok (r, w2)
  end.

(** What a caller awaiting the promise of [nonReactFetch] observes in [w]. *)
Definition awaited (w : World) (r : ref) : AwaitResult :=
  match heap w !! r with
  | Some it => FetchCacheItem.getPromise it
  | None => StillPending
  end.

Definition uriIsInCache (url : string) (tags : list string) (w : World) : result bool :=
  let* m := findFetchURL url tags w in
  Ok (match m with Some _ => true | None => false end).

(** [instances.forEach(i => i.hasOneOfTheseTags(this.tags) ? i.emit(..) : null)] *)
Definition notified (tags : list string) (w : World) : list nat :=
  List.filter
    (fun i => match instances w !! i with
              | Some its => hasOneOfTheseTags its tags
              | None => false
              end)
    (seq 0 (length (instances w))).

Definition notify (tags : list string) (w : World) : World :=
  with_emitted (emitted w ++ notified tags w) w.

(** The [while (matchingItem != null)] loop of the two [forceExpire]
    methods, [finder] being the search it repeats. *)
Fixpoint expireLoop (fuel : nat) (finder : World -> result (option ref))
    (matchingItem : option ref) (w : World) : result World :=
  match matchingItem with
  | None => Ok w
  | Some r =>
      match fuel with
      | O => OutOfFuel
      | S fuel' =>
          let w1 := setExpiredAt r w in
          let* next := finder w1 in
          expireLoop fuel' finder next w1
      end
  end.

Definition forceExpireWith (finder : World -> result (option ref))
    (tags : list string) (w : World) : result World :=
  let* matchingItem := finder w in
  let elementsFound := match matchingItem with Some _ => true | None => false end in
  let* w1 := expireLoop (length (heap w)) finder matchingItem w in
  if elementsFound then cleanCache tags (notify tags w1) else Ok w1.

Definition forceExpireURL (url : string) (tags : list string) : World -> result World :=
  forceExpireWith (findFetchURL url tags) tags.

Definition forceExpireRequest (input : RequestInfo) (opts : option RequestInit)
    (tags : list string) : World -> result World :=
  forceExpireWith (findFetchItem input opts tags) tags.

(** [wipeCache]: every tag of the instance is assigned a fresh empty
    array, then the instances are notified. *)
Definition wipeTags (tags : list string) (c : gmap string (list ref)) : gmap string (list ref) :=
  foldl (fun acc tag => <[tag := []]> acc) c tags.

Definition wipeCache (tags : list string) (w : World) : World :=
  notify tags (with_fetchCache (wipeTags tags (fetchCache w)) w).

End FetchSuspense.

(** ** fetch-suspense.ts, the flat-list design

    The second class of the file keeps one static array of plain
    [FetchCache] objects.  An object is identified by [oid]; the promise
    chain built with it captures the lifespan in its closures and is kept
    in [chains] until the transport answers. *)

Module FlatFetchSuspense.

Record FetchCache : Type := mkFetchCache {
  oid : nat;
  fetch_ : PromiseState;
  error : jsval;
  opts : option RequestInit;
  input : RequestInfo;
  response : jsval
}.

Record State : Type := mkState {
  fetchCaches : list FetchCache;
  created : nat;                                    (* objects created so far *)
  chains : list (nat * Z);                          (* object, captured lifespan *)
  calls : list (RequestInfo * option RequestInit);  (* transport calls issued *)
  timers : list (Z * nat);                          (* deadline, object *)
  now : Z
}.

Definition emptyState : State :=
  {| fetchCaches := []; created := 0; chains := []; calls := []; timers := []; now := 0%Z |}.

Definition with_fetchCaches (l : list FetchCache) (s : State) : State :=
  {| fetchCaches := l; created := created s; chains := chains s; calls := calls s;
     timers := timers s; now := now s |}.

Inductive Signal : Type :=
| Return (v : jsval)
| ThrowError (e : jsval)
| ThrowPromise (o : nat).

Definition sameRequest (input' : RequestInfo) (opts' : option RequestInit)
    (ele : FetchCache) : bool :=
  deepEqual input' (input ele) && deepEqual opts' (opts ele).

Definition fetch (input' : RequestInfo) (opts' : option RequestInit) (lifespan : Z)
    (s : State) : Signal * State :=
  match find (sameRequest input' opts') (fetchCaches s) with
  | Some fetchCache =>
      if negb (nullish (error fetchCache)) then (ThrowError (error fetchCache), s)
      else if negb (nullish (response fetchCache)) then (Return (response fetchCache), s)
      else (ThrowPromise (oid fetchCache), s)
  | None =>
      let o := created s in
      let fetchCache :=
        {| oid := o; fetch_ := Pending; error := JUndefined; opts := opts';
           input := input'; response := JUndefined |} in
      (ThrowPromise o,
       {| fetchCaches := fetchCaches s ++ [fetchCache];
          created := S o;
          chains := chains s ++ [(o, lifespan)];
          calls := calls s ++ [(input', opts')];
          timers := timers s;
          now := now s |})
  end.

(** The [then]/[catch] callbacks that assign a field of the object. *)
Definition assign (tr : Completion Response) (ele : FetchCache) : FetchCache :=
  match FetchCacheItem.decode tr with
  | Returns data =>
      {| oid := oid ele; fetch_ := Fulfilled; error := error ele; opts := opts ele;
         input := input ele; response := data |}
  | Throws e =>
      {| oid := oid ele; fetch_ := Fulfilled; error := e; opts := opts ele;
         input := input ele; response := response ele |}
  end.

(** The promise chain of object [o] runs after the transport answered
    with [tr]: a field is assigned, then the removal is scheduled when
    [lifespan > 0]. *)
Definition settle (o : nat) (tr : Completion Response) (s : State) : State :=
  match find (fun ch => bool_decide (fst ch = o)) (chains s) with
  | None => s
  | Some (_, lifespan) =>
      {| fetchCaches :=
           map (fun ele => if bool_decide (oid ele = o) then assign tr ele else ele)
               (fetchCaches s);
         created := created s;
         chains := List.filter (fun ch => negb (bool_decide (fst ch = o))) (chains s);
         calls := calls s;
         timers := if (0 <? lifespan)%Z then timers s ++ [((now s + lifespan)%Z, o)] else timers s;
         now := now s |}
  end.

(** [indexOf] then [splice(index, 1)]: the object leaves the array. *)
Definition remove (o : nat) (l : list FetchCache) : list FetchCache :=
  List.filter (fun ele => negb (bool_decide (oid ele = o))) l.

(** The event loop runs for [dt] milliseconds and the due timers fire. *)
Definition advance (dt : N) (s : State) : State :=
  let t := (now s + Z.of_N dt)%Z in
  {| fetchCaches :=
       foldl (fun acc tm => remove (snd tm) acc) (fetchCaches s)
             (List.filter (due t) (timers s));
     created := created s;
     chains := chains s;
     calls := calls s;
     timers := List.filter (fun tm => negb (due t tm)) (timers s);
     now := t |}.

Definition uriMatches (uri : string) (ele : FetchCache) : bool :=
  match input ele with
  | Request u _ => bool_decide (u = uri)
  | Url s => bool_decide (s = uri)
  end.

Definition uriIsInCache (uri : string) (s : State) : option FetchCache :=
  find (uriMatches uri) (fetchCaches s).

Definition forceExpireURL (uri : string) (s : State) : State :=
  with_fetchCaches (List.filter (fun ele => negb (uriMatches uri ele)) (fetchCaches s)) s.

Definition forceExpireRequest (input' : RequestInfo) (opts' : option RequestInit)
    (s : State) : State :=
  with_fetchCaches
    (List.filter
       (fun ele => negb (deepEqual input' (input ele)) && negb (deepEqual opts' (opts ele)))
       (fetchCaches s))
    s.

Definition wipeCache (s : State) : State := with_fetchCaches [] s.

End FlatFetchSuspense.


(** ** Basic facts: tags, entries and the finders *)

Import FetchSuspense.

(** Every tag of the instance has its array, as the constructor ensures. *)
Definition tagsOk (tags : list string) (w : World) : Prop :=
  Forall (fun tag => is_Some (fetchCache w !! tag)) tags.

(** The items a scan of [tags] meets, in the order it meets them. *)
Definition entries (tags : list string) (w : World) : list ref :=
  flat_map (fun tag => default [] (fetchCache w !! tag)) tags.

Lemma find_app {A : Type} (f : A -> bool) (l1 l2 : list A) :
  find f (l1 ++ l2) = match find f l1 with Some x => Some x | None => find f l2 end.
Proof. induction l1 as [|a l1 IH]; simpl; [done|]. by destruct (f a). Qed.

Lemma find_none_iff {A : Type} (f : A -> bool) (l : list A) :
  find f l = None <-> (forall x, x ∈ l -> f x = false).
Proof.
  split.
  - intros H x Hx. apply list_elem_of_In in Hx. by eapply find_none.
  - induction l as [|a l IH]; simpl; [done|]. intros H.
    rewrite (H a) by constructor. apply IH. intros x Hx. apply H. by constructor.
Qed.

Lemma find_some_iff {A : Type} (f : A -> bool) (l : list A) (x : A) :
  find f l = Some x -> x ∈ l /\ f x = true.
Proof. intros H. apply find_some in H as [H1 H2]. split; [by apply list_elem_of_In|done]. Qed.

Lemma findWith_entries P tags w :
  tagsOk tags w ->
  findWith P tags w = Ok (find (liveMatch P w) (entries tags w)).
Proof.
  induction 1 as [|tag rest [items Hi] _ IH]; simpl; [done|].
  rewrite Hi. simpl. rewrite find_app.
  destruct (find (liveMatch P w) items); [done|apply IH].
Qed.

Lemma findWith_ok_tagsOk_first P tags w m :
  findWith P tags w = Ok m -> m = None -> tagsOk tags w.
Proof.
  intros H ->. revert H. induction tags as [|tag rest IH]; simpl; [constructor|].
  destruct (fetchCache w !! tag) as [items|] eqn:Hi; [|done].
  destruct (find _ items); [done|]. intros H. constructor; [by eexists|by apply IH].
Qed.

Lemma liveMatch_true P w r :
  liveMatch P w r = true <->
  exists it, heap w !! r = Some it /\ P it = true /\ FetchCacheItem.expired it = false.
Proof.
  unfold liveMatch, FetchCacheItem.isExpired. split.
  - destruct (heap w !! r) as [it|]; [|done]. intros H.
    apply andb_true_iff in H as [H1 H2]. apply negb_true_iff in H2. eauto.
  - intros (it & -> & H1 & H2). rewrite H1, H2. done.
Qed.

Lemma elem_of_entries tags w r :
  r ∈ entries tags w <->
  exists tag items, tag ∈ tags /\ fetchCache w !! tag = Some items /\ r ∈ items.
Proof.
  unfold entries. rewrite list_elem_of_In, in_flat_map. split.
  - intros (tag & Ht & Hr). apply list_elem_of_In in Ht, Hr.
    destruct (fetchCache w !! tag) as [items|] eqn:E; simpl in Hr.
    + eauto.
    + by apply elem_of_nil in Hr.
  - intros (tag & items & Ht & Hi & Hr). exists tag.
    rewrite <- !list_elem_of_In. rewrite Hi. done.
Qed.


(** ** Registration and cleanup *)

Lemma tagsOk_elem tags w tag : tagsOk tags w -> tag ∈ tags -> is_Some (fetchCache w !! tag).
Proof. unfold tagsOk. rewrite Forall_forall. auto. Qed.

Lemma tagsOk_same_cache tags w w' :
  fetchCache w' = fetchCache w -> tagsOk tags w -> tagsOk tags w'.
Proof. unfold tagsOk. by intros ->. Qed.

Lemma tagsOk_insert tags w tag items :
  tagsOk tags w -> tagsOk tags (with_fetchCache (<[tag := items]> (fetchCache w)) w).
Proof.
  unfold tagsOk. intros H. eapply Forall_impl; [exact H|]. intros t [l Hl]. simpl.
  destruct (decide (tag = t)) as [->|Hne].
  - rewrite lookup_insert_eq. by eexists.
  - rewrite lookup_insert_ne by done. by eexists.
Qed.

Lemma entries_same_cache tags w w' :
  fetchCache w' = fetchCache w -> entries tags w' = entries tags w.
Proof. unfold entries. by intros ->. Qed.

(** [register] pushes the reference once per occurrence of a tag. *)
Lemma register_spec tags r w :
  tagsOk tags w ->
  exists w', register tags r w = Ok w' /\
    heap w' = heap w /\ instances w' = instances w /\ calls w' = calls w /\
    timers w' = timers w /\ now w' = now w /\ emitted w' = emitted w /\
    forall tag, fetchCache w' !! tag =
      (fun items => items ++ replicate (length (List.filter (fun t => bool_decide (t = tag)) tags)) r)
        <$> fetchCache w !! tag.
Proof.
  revert w. induction tags as [|t rest IH]; intros w Hok.
  - exists w. simpl. repeat split; try done. intros tag.
    destruct (fetchCache w !! tag); simpl; [by rewrite app_nil_r|done].
  - inversion Hok as [|? ? [items Hi] Hrest]; subst. simpl. rewrite Hi.
    destruct (IH (with_fetchCache (<[t := items ++ [r]]> (fetchCache w)) w))
      as (w' & Hr & Hh & Hin & Hc & Ht & Hn & He & Hl).
    { by apply tagsOk_insert. }
    exists w'. repeat split; try done. intros tag. rewrite Hl. simpl.
    destruct (decide (t = tag)) as [->|Hne].
    + rewrite lookup_insert_eq, Hi. simpl. rewrite bool_decide_eq_true_2 by done.
      simpl. by rewrite <- app_assoc.
    + rewrite lookup_insert_ne by done. by rewrite bool_decide_eq_false_2 by done.
Qed.

Lemma count_tag_pos (tags : list string) tag :
  tag ∈ tags -> exists n, length (List.filter (fun t => bool_decide (t = tag)) tags) = S n.
Proof.
  induction 1 as [x l|x y l _ [n IH]]; simpl.
  - rewrite bool_decide_eq_true_2 by done. simpl. eauto.
  - destruct (bool_decide (y = x)); simpl; eauto.
Qed.

Lemma count_tag_zero (tags : list string) tag :
  tag ∉ tags -> length (List.filter (fun t => bool_decide (t = tag)) tags) = 0.
Proof.
  induction tags as [|t rest IH]; simpl; [done|]. intros Hn.
  rewrite bool_decide_eq_false_2.
  - apply IH. intros ?. apply Hn. by constructor.
  - intros ->. apply Hn. constructor.
Qed.

(** [cleanCache] keeps the heap and filters exactly the arrays of [tags]. *)
Lemma filter_filter_same {A : Type} (f : A -> bool) (l : list A) :
  List.filter f (List.filter f l) = List.filter f l.
Proof.
  induction l as [|a l IH]; simpl; [done|].
  destruct (f a) eqn:E; simpl; rewrite ?E, IH; done.
Qed.

Lemma cleanCache_spec tags w :
  tagsOk tags w ->
  exists w', cleanCache tags w = Ok w' /\
    heap w' = heap w /\ instances w' = instances w /\ calls w' = calls w /\
    timers w' = timers w /\ now w' = now w /\ emitted w' = emitted w /\
    forall tag, fetchCache w' !! tag =
      if bool_decide (tag ∈ tags)
      then List.filter (fun r => negb (expiredAt w r)) <$> fetchCache w !! tag
      else fetchCache w !! tag.
Proof.
  revert w. induction tags as [|t rest IH]; intros w Hok.
  - exists w. simpl. repeat split; try done.
  - inversion Hok as [|? ? [items Hi] Hrest]; subst. simpl. rewrite Hi.
    set (w1 := with_fetchCache _ w).
    destruct (IH w1) as (w' & Hr & Hh & Hin & Hc & Ht & Hn & He & Hl).
    { by apply tagsOk_insert. }
    exists w'. repeat split; try done. intros tag. rewrite Hl.
    assert (Hexp : (fun r => negb (expiredAt w1 r)) = (fun r => negb (expiredAt w r))) by done.
    rewrite Hexp. subst w1. simpl.
    destruct (decide (t = tag)) as [->|Hne].
    + rewrite lookup_insert_eq, Hi. rewrite (bool_decide_eq_true_2 (tag ∈ tag :: rest)) by constructor.
      simpl. destruct (bool_decide (tag ∈ rest)); [by rewrite filter_filter_same|done].
    + rewrite lookup_insert_ne by done.
      destruct (decide (tag ∈ rest)) as [Hin'|Hnin].
      * rewrite !bool_decide_eq_true_2; [done| by constructor |done].
      * rewrite !bool_decide_eq_false_2; [done| |done].
        intros H. apply elem_of_cons in H as [->|H]; done.
Qed.

(** Cleanup removes nothing a finder could return. *)
Lemma find_filter_live P w (items : list ref) :
  find (liveMatch P w) (List.filter (fun r => negb (expiredAt w r)) items)
  = find (liveMatch P w) items.
Proof.
  induction items as [|r items IH]; simpl; [done|].
  unfold expiredAt at 1, liveMatch at 2.
  destruct (heap w !! r) as [it|] eqn:E; simpl.
  - destruct (FetchCacheItem.isExpired it) eqn:Ex; simpl.
    + rewrite andb_false_r. apply IH.
    + unfold liveMatch at 1. rewrite E, Ex, andb_true_r. destruct (P it); [done|apply IH].
  - unfold liveMatch at 1. rewrite E. apply IH.
Qed.

(** ** Expiry through references, and the [while] loop of [forceExpire] *)

Lemma with_heap_same w : with_heap (heap w) w = w.
Proof. by destruct w. Qed.

Lemma setExpiredAt_heap r w x :
  heap (setExpiredAt r w) !! x =
  (fun it => if bool_decide (x = r) then FetchCacheItem.setExpired it else it) <$> heap w !! x.
Proof.
  unfold setExpiredAt. destruct (heap w !! r) as [it|] eqn:E; simpl.
  - destruct (decide (x = r)) as [->|Hne].
    + rewrite list_lookup_insert_eq by (by eapply lookup_lt_Some).
      rewrite E. simpl. by rewrite bool_decide_eq_true_2.
    + rewrite list_lookup_insert_ne by done.
      destruct (heap w !! x); simpl; [by rewrite bool_decide_eq_false_2|done].
  - destruct (decide (x = r)) as [->|Hne].
    + by rewrite E.
    + destruct (heap w !! x); simpl; [by rewrite bool_decide_eq_false_2|done].
Qed.

Lemma setExpiredAt_frame r w :
  fetchCache (setExpiredAt r w) = fetchCache w /\
  instances (setExpiredAt r w) = instances w /\
  calls (setExpiredAt r w) = calls w /\
  timers (setExpiredAt r w) = timers w /\
  now (setExpiredAt r w) = now w /\
  emitted (setExpiredAt r w) = emitted w /\
  length (heap (setExpiredAt r w)) = length (heap w).
Proof.
  unfold setExpiredAt. destruct (heap w !! r); simpl; repeat split; try done.
  by rewrite length_insert.
Qed.

(** The items of the heap that are not expired. *)
Definition liveCount (h : list FetchCacheItem.t) : nat :=
  length (List.filter (fun it => negb (FetchCacheItem.expired it)) h).

Lemma liveCount_le h : liveCount h <= length h.
Proof.
  unfold liveCount. induction h as [|it h IH]; simpl; [lia|].
  destruct (negb _); simpl; lia.
Qed.

Lemma liveCount_expire h r it :
  h !! r = Some it -> FetchCacheItem.expired it = false ->
  S (liveCount (<[r := FetchCacheItem.setExpired it]> h)) = liveCount h.
Proof.
  unfold liveCount. revert r. induction h as [|a h IH]; intros r Hr Hex; [done|].
  destruct r as [|r]; simpl in *.
  - injection Hr as ->. by rewrite Hex.
  - specialize (IH r Hr Hex). destruct (negb (FetchCacheItem.expired a)); simpl; lia.
Qed.

(** The heap with the items selected by [sel] expired. *)
Definition markExpired (sel : ref -> bool) (h : list FetchCacheItem.t) : list FetchCacheItem.t :=
  imap (fun r it => if sel r then FetchCacheItem.setExpired it else it) h.

(** What one run of [forceExpire] selects: the items met by a scan of the
    tags that match and are not expired yet. *)
Definition selected (P : FetchCacheItem.t -> bool) (tags : list string) (w : World) (r : ref) : bool :=
  bool_decide (r ∈ entries tags w) && liveMatch P w r.

Lemma markExpired_none sel h :
  (forall r, r < length h -> sel r = false) -> markExpired sel h = h.
Proof.
  intros H. apply list_eq. intros r. unfold markExpired. rewrite list_lookup_imap.
  destruct (h !! r) as [it|] eqn:E; simpl; [|done].
  rewrite H; [done|by eapply lookup_lt_Some].
Qed.

Lemma expireLoop_spec P tags fuel w m :
  tagsOk tags w ->
  findWith P tags w = Ok m ->
  liveCount (heap w) <= fuel ->
  expireLoop fuel (findWith P tags) m w
  = Ok (with_heap (markExpired (selected P tags w) (heap w)) w).
Proof.
  revert w m. induction fuel as [|fuel IH]; intros w m Hok Hm Hfuel.
  all: rewrite (findWith_entries P tags w Hok) in Hm; injection Hm as <-.
  all: destruct (find (liveMatch P w) (entries tags w)) as [r|] eqn:Hf; simpl.
  all: try (rewrite markExpired_none; [by rewrite with_heap_same|];
            intros x _; unfold selected; destruct (decide (x ∈ entries tags w)) as [Hx|Hx];
            [rewrite (proj1 (find_none_iff _ _) Hf x Hx); apply andb_false_r
            |by rewrite bool_decide_eq_false_2]).
  all: apply find_some_iff in Hf as [Hr Hlive];
       pose proof Hlive as Hlive'; apply liveMatch_true in Hlive' as (it & Hit & HP & Hex).
  - pose proof (liveCount_expire _ _ _ Hit Hex). lia.
  - destruct (setExpiredAt_frame r w) as (Hc & _).
    assert (Hok1 : tagsOk tags (setExpiredAt r w)) by (by eapply tagsOk_same_cache).
    rewrite (findWith_entries P tags _ Hok1). simpl.
    erewrite IH; [|done|by apply findWith_entries|].
    2:{ unfold setExpiredAt. rewrite Hit. simpl.
        pose proof (liveCount_expire _ _ _ Hit Hex). lia. }
    f_equal.
    assert (Hheap : markExpired (selected P tags (setExpiredAt r w)) (heap (setExpiredAt r w))
                    = markExpired (selected P tags w) (heap w)).
    { apply list_eq. intros x. unfold markExpired. rewrite !list_lookup_imap.
      rewrite setExpiredAt_heap. destruct (heap w !! x) as [itx|] eqn:Hx; simpl; [|done].
      f_equal. destruct (decide (x = r)) as [->|Hne].
      - rewrite bool_decide_eq_true_2 by done.
        assert (itx = it) as -> by congruence.
        unfold selected at 2. rewrite bool_decide_eq_true_2, Hlive by done. simpl.
        by destruct (selected _ _ _ _).
      - rewrite bool_decide_eq_false_2 by done.
        assert (selected P tags (setExpiredAt r w) x = selected P tags w x) as ->; [|done].
        unfold selected. rewrite (entries_same_cache tags w _ Hc). f_equal.
        unfold liveMatch. rewrite setExpiredAt_heap, Hx. simpl.
        by rewrite bool_decide_eq_false_2. }
    rewrite Hheap. unfold setExpiredAt. rewrite Hit. by destruct w.
Qed.

Lemma forceExpireWith_miss P tags w :
  tagsOk tags w ->
  find (liveMatch P w) (entries tags w) = None ->
  forceExpireWith (findWith P tags) tags w = Ok w.
Proof.
  intros Hok Hf. unfold forceExpireWith.
  rewrite (findWith_entries P tags w Hok), Hf. simpl.
  by destruct (heap w).
Qed.

Lemma forceExpireWith_hit P tags w r :
  tagsOk tags w ->
  find (liveMatch P w) (entries tags w) = Some r ->
  exists w', forceExpireWith (findWith P tags) tags w = Ok w' /\
    heap w' = markExpired (selected P tags w) (heap w) /\
    instances w' = instances w /\ calls w' = calls w /\
    timers w' = timers w /\ now w' = now w /\
    emitted w' = emitted w ++ notified tags w /\
    forall tag, fetchCache w' !! tag =
      if bool_decide (tag ∈ tags)
      then List.filter (fun x => negb (expiredAt w' x)) <$> fetchCache w !! tag
      else fetchCache w !! tag.
Proof.
  intros Hok Hf. unfold forceExpireWith.
  rewrite (findWith_entries P tags w Hok), Hf. simpl.
  rewrite (expireLoop_spec P tags _ w (Some r) Hok).
  2:{ by rewrite (findWith_entries P tags w Hok), Hf. }
  2:{ apply liveCount_le. }
  simpl.
  set (w1 := notify tags _).
  destruct (cleanCache_spec tags w1) as (w' & Hcl & Hh & Hi & Hc & Ht & Hn & He & Hl).
  { by eapply tagsOk_same_cache. }
  exists w'. split; [done|]. rewrite Hh, Hi, Hc, Ht, Hn, He. repeat split; try done.
  intros tag. rewrite Hl.
  assert ((fun x => negb (expiredAt w1 x)) = (fun x => negb (expiredAt w' x))) as ->; [|done].
  unfold expiredAt. by rewrite Hh.
Qed.

(** ** The constructor and the two lookups *)


(** A hit: the three-way answer is read off the item found, by the null
    checks of the source, and nothing changes. *)
Definition peek (r : ref) (it : FetchCacheItem.t) : Signal :=
  if negb (nullish (FetchCacheItem.error it)) then ThrowError (FetchCacheItem.error it)
  else if negb (nullish (FetchCacheItem.response it)) then Return (FetchCacheItem.response it)
  else ThrowPromise r.

Lemma fetch_hit input opts lifespan tags w r :
  tagsOk tags w ->
  find (liveMatch (FetchCacheItem.argsEqual input opts) w) (entries tags w) = Some r ->
  exists it, heap w !! r = Some it /\
    FetchCacheItem.argsEqual input opts it = true /\
    FetchCacheItem.expired it = false /\
    fetch input opts lifespan tags w = Ok (peek r it, w).
Proof.
  intros Hok Hf. unfold fetch, findFetchItem.
  rewrite (findWith_entries _ tags w Hok), Hf. simpl.
  apply find_some_iff in Hf as [_ Hlive].
  apply liveMatch_true in Hlive as (it & Hit & HP & Hex).
  exists it. rewrite Hit. repeat split; try done. unfold peek.
  destruct (negb (nullish (FetchCacheItem.error it))); [done|].
  by destruct (negb (nullish (FetchCacheItem.response it))).
Qed.

(** A miss: one item is constructed, which calls the transport once, and
    it is pushed on the array of every tag of the instance. *)
Definition created (input : RequestInfo) (opts : option RequestInit) (lifespan : Z)
    (tags : list string) (w w' : World) : Prop :=
  heap w' = heap w ++ [FetchCacheItem.init input opts lifespan] /\
  calls w' = calls w ++ [(input, opts)] /\
  timers w' = (if FetchCacheItem.startsTimer lifespan
               then timers w ++ [((now w + Z.max 0 lifespan)%Z, length (heap w))]
               else timers w) /\
  instances w' = instances w /\ now w' = now w /\ emitted w' = emitted w /\
  forall tag, fetchCache w' !! tag =
    (fun items => items ++ replicate (length (List.filter (fun t => bool_decide (t = tag)) tags))
                                     (length (heap w)))
      <$> fetchCache w !! tag.

Lemma fetch_miss input opts lifespan tags w :
  tagsOk tags w ->
  find (liveMatch (FetchCacheItem.argsEqual input opts) w) (entries tags w) = None ->
  exists w', fetch input opts lifespan tags w = Ok (ThrowPromise (length (heap w)), w') /\
    created input opts lifespan tags w w'.
Proof.
  intros Hok Hf. unfold fetch, findFetchItem.
  rewrite (findWith_entries _ tags w Hok), Hf. simpl.
  set (w1 := mkWorld _ _ _ _ _ _ _).
  destruct (register_spec tags (length (heap w)) w1)
    as (w' & Hr & Hh & Hi & Hc & Ht & Hn & He & Hl).
  { by eapply tagsOk_same_cache. }
  exists w'. rewrite Hr. simpl. split; [done|].
  unfold created. rewrite Hh, Hi, Hc, Ht, Hn, He. repeat split; try done.
Qed.

Lemma nonReactFetch_hit input opts lifespan tags w r :
  tagsOk tags w ->
  find (liveMatch (FetchCacheItem.argsEqual input opts) w) (entries tags w) = Some r ->
  nonReactFetch input opts lifespan tags w = Ok (r, w).
Proof.
  intros Hok Hf. unfold nonReactFetch, findFetchItem.
  by rewrite (findWith_entries _ tags w Hok), Hf.
Qed.

Lemma nonReactFetch_miss input opts lifespan tags w :
  tagsOk tags w ->
  find (liveMatch (FetchCacheItem.argsEqual input opts) w) (entries tags w) = None ->
  exists w', nonReactFetch input opts lifespan tags w = Ok (length (heap w), w') /\
    created input opts lifespan tags w w'.
Proof.
  intros Hok Hf. unfold nonReactFetch, findFetchItem.
  rewrite (findWith_entries _ tags w Hok), Hf. simpl.
  set (w1 := mkWorld _ _ _ _ _ _ _).
  destruct (register_spec tags (length (heap w)) w1)
    as (w' & Hr & Hh & Hi & Hc & Ht & Hn & He & Hl).
  { by eapply tagsOk_same_cache. }
  exists w'. rewrite Hr. simpl. split; [done|].
  unfold created. rewrite Hh, Hi, Hc, Ht, Hn, He. repeat split; try done.
Qed.

(** ** Events *)

(** What can happen to the world: a method call on an instance with the
    given tags, the settlement of a transport call, the passing of time. *)
Inductive Event : Type :=
| Construct (tags : list string)
| Fetch (input : RequestInfo) (opts : option RequestInit) (lifespan : Z) (tags : list string)
| NonReactFetch (input : RequestInfo) (opts : option RequestInit) (lifespan : Z) (tags : list string)
| ForceExpireURL (url : string) (tags : list string)
| ForceExpireRequest (input : RequestInfo) (opts : option RequestInit) (tags : list string)
| WipeCache (tags : list string)
| Settle (r : ref) (tr : Completion Response)
| Advance (dt : N).

Definition step (e : Event) (w : World) : result World :=
  match e with
  | Construct tags => Ok (snd (tag tags w))
  | Fetch input opts lifespan tags =>
      let* sw := fetch input opts lifespan tags w in Ok (snd sw)
  | NonReactFetch input opts lifespan tags =>
      let* rw := nonReactFetch input opts lifespan tags w in Ok (snd rw)
  | ForceExpireURL url tags => forceExpireURL url tags w
  | ForceExpireRequest input opts tags => forceExpireRequest input opts tags w
  | WipeCache tags => Ok (wipeCache tags w)
  | Settle r tr => Ok (settle r tr w)
  | Advance dt => Ok (advance dt w)
  end.

Fixpoint run (es : list Event) (w : World) : result World :=
  match es with
  | [] => Ok w
  | e :: rest => let* w1 := step e w in run rest w1
  end.

(** Events that can turn an expired flag on. *)
Definition expires (e : Event) : bool :=
  match e with
  | ForceExpireURL _ _ | ForceExpireRequest _ _ _ | Advance _ => true
  | _ => false
  end.

(** ** The heap under each operation *)

(** [h'] extends [h] and differs on the items of [h] at most by expired
    flags that went from false to true. *)
Definition expiryOnly (h h' : list FetchCacheItem.t) : Prop :=
  forall r it, h !! r = Some it ->
    h' !! r = Some it \/
    (FetchCacheItem.expired it = false /\ h' !! r = Some (FetchCacheItem.setExpired it)).

Lemma expiryOnly_refl h : expiryOnly h h.
Proof. intros r it H. by left. Qed.

Lemma expiryOnly_trans h1 h2 h3 : expiryOnly h1 h2 -> expiryOnly h2 h3 -> expiryOnly h1 h3.
Proof.
  intros H12 H23 r it H. destruct (H12 r it H) as [H2|[Hex H2]].
  - by apply H23.
  - destruct (H23 r _ H2) as [H3|[Hex' H3]].
    + right. done.
    + simpl in Hex'. done.
Qed.

Lemma setExpired_idem it :
  FetchCacheItem.setExpired (FetchCacheItem.setExpired it) = FetchCacheItem.setExpired it.
Proof. done. Qed.

Lemma setExpired_expired it :
  FetchCacheItem.expired it = true -> FetchCacheItem.setExpired it = it.
Proof. destruct it. simpl. by intros ->. Qed.

Lemma setExpiredAt_expiryOnly r w : expiryOnly (heap w) (heap (setExpiredAt r w)).
Proof.
  intros x it Hx. rewrite setExpiredAt_heap, Hx. simpl.
  destruct (bool_decide (x = r)); [|by left].
  destruct (FetchCacheItem.expired it) eqn:E.
  - left. by rewrite setExpired_expired.
  - right. done.
Qed.

Lemma markExpired_expiryOnly sel h : expiryOnly h (markExpired sel h).
Proof.
  intros x it Hx. unfold markExpired. rewrite list_lookup_imap, Hx. simpl.
  destruct (sel x); [|by left].
  destruct (FetchCacheItem.expired it) eqn:E.
  - left. by rewrite setExpired_expired.
  - right. done.
Qed.

Lemma foldl_setExpiredAt_expiryOnly (tms : list (Z * ref)) w :
  expiryOnly (heap w) (heap (foldl (fun acc tm => setExpiredAt (snd tm) acc) w tms)).
Proof.
  revert w. induction tms as [|tm tms IH]; intros w; simpl.
  - apply expiryOnly_refl.
  - eapply expiryOnly_trans; [apply setExpiredAt_expiryOnly|apply IH].
Qed.

Lemma advance_expiryOnly dt w : expiryOnly (heap w) (heap (advance dt w)).
Proof.
  unfold advance, fireTimers. simpl.
  set (w0 := mkWorld _ _ _ _ _ _ _).
  apply (foldl_setExpiredAt_expiryOnly _ w0).
Qed.

Lemma tagsOk_of_insert tags w tag items :
  is_Some (fetchCache w !! tag) ->
  tagsOk tags (with_fetchCache (<[tag := items]> (fetchCache w)) w) -> tagsOk tags w.
Proof.
  unfold tagsOk. intros Htag H. eapply Forall_impl; [exact H|]. simpl. intros t Ht.
  destruct (decide (tag = t)) as [->|Hne]; [done|]. by rewrite lookup_insert_ne in Ht.
Qed.

Lemma cleanCache_ok_tagsOk tags w w' : cleanCache tags w = Ok w' -> tagsOk tags w.
Proof.
  revert w. induction tags as [|t rest IH]; intros w; simpl; [constructor|].
  destruct (fetchCache w !! t) as [items|] eqn:Hi; [|done].
  intros H. apply IH in H. constructor; [by eexists|].
  eapply tagsOk_of_insert; [by eexists|exact H].
Qed.

Lemma cleanCache_heap tags w w' : cleanCache tags w = Ok w' -> heap w' = heap w.
Proof.
  intros H. destruct (cleanCache_spec tags w (cleanCache_ok_tagsOk _ _ _ H))
    as (w2 & H2 & Hh & _). congruence.
Qed.

Lemma expireLoop_expiryOnly fuel finder m w w' :
  expireLoop fuel finder m w = Ok w' -> expiryOnly (heap w) (heap w').
Proof.
  revert m w. induction fuel as [|fuel IH]; intros [r|] w; simpl; try done.
  all: try (intros [= ->]; apply expiryOnly_refl).
  destruct (finder (setExpiredAt r w)) as [next| |]; simpl; try done.
  intros H. eapply expiryOnly_trans; [apply setExpiredAt_expiryOnly|by eapply IH].
Qed.

Lemma forceExpireWith_expiryOnly finder tags w w' :
  forceExpireWith finder tags w = Ok w' -> expiryOnly (heap w) (heap w').
Proof.
  unfold forceExpireWith.
  destruct (finder w) as [m| |]; simpl; try done.
  destruct (expireLoop _ finder m w) as [w1| |] eqn:Hl; simpl; try done.
  apply expireLoop_expiryOnly in Hl.
  destruct m; intros H.
  - apply cleanCache_heap in H. rewrite H. done.
  - by injection H as <-.
Qed.

Lemma fetch_heap input opts lifespan tags w s w' :
  fetch input opts lifespan tags w = Ok (s, w') ->
  w' = w \/ heap w' = heap w ++ [FetchCacheItem.init input opts lifespan].
Proof.
  unfold fetch, findFetchItem.
  destruct (findWith _ tags w) as [[r|]| |] eqn:Hf; simpl; try done.
  - destruct (heap w !! r) as [it|]; [|done].
    destruct (negb _); [intros [= _ <-]; by left|].
    destruct (negb _); intros [= _ <-]; by left.
  - pose proof (findWith_ok_tagsOk_first _ _ _ _ Hf eq_refl) as Hok.
    rewrite (findWith_entries _ _ _ Hok) in Hf. injection Hf as Hf.
    destruct (fetch_miss input opts lifespan tags w Hok Hf) as (w2 & Hfe & Hcr & _).
    unfold fetch, findFetchItem in Hfe. rewrite (findWith_entries _ _ _ Hok), Hf in Hfe.
    simpl in Hfe. rewrite Hfe. intros [= _ <-]. by right.
Qed.

Lemma nonReactFetch_heap input opts lifespan tags w r w' :
  nonReactFetch input opts lifespan tags w = Ok (r, w') ->
  w' = w \/ heap w' = heap w ++ [FetchCacheItem.init input opts lifespan].
Proof.
  unfold nonReactFetch, findFetchItem.
  destruct (findWith _ tags w) as [[r0|]| |] eqn:Hf; simpl; try done.
  - intros [= _ <-]; by left.
  - pose proof (findWith_ok_tagsOk_first _ _ _ _ Hf eq_refl) as Hok.
    rewrite (findWith_entries _ _ _ Hok) in Hf. injection Hf as Hf.
    destruct (nonReactFetch_miss input opts lifespan tags w Hok Hf) as (w2 & Hfe & Hcr & _).
    unfold nonReactFetch, findFetchItem in Hfe. rewrite (findWith_entries _ _ _ Hok), Hf in Hfe.
    simpl in Hfe. rewrite Hfe. intros [= _ <-]. by right.
Qed.

Lemma settle_heap r tr w x :
  heap (settle r tr w) !! x =
  (fun it => if bool_decide (x = r)
             then match FetchCacheItem.fetch it with
                  | Pending => FetchCacheItem.generateFetch tr it
                  | _ => it
                  end
             else it) <$> heap w !! x.
Proof.
  unfold settle. destruct (heap w !! r) as [it|] eqn:E.
  - destruct (FetchCacheItem.fetch it) eqn:Ef; simpl.
    + destruct (decide (x = r)) as [->|Hne].
      * rewrite list_lookup_insert_eq by (by eapply lookup_lt_Some).
        rewrite E. simpl. by rewrite bool_decide_eq_true_2, Ef.
      * rewrite list_lookup_insert_ne by done.
        destruct (heap w !! x); simpl; [by rewrite bool_decide_eq_false_2|done].
    + destruct (heap w !! x) as [itx|] eqn:Ex; simpl; [|done].
      destruct (decide (x = r)) as [->|Hne].
      * rewrite bool_decide_eq_true_2 by done. assert (itx = it) as -> by congruence.
        by rewrite Ef.
      * by rewrite bool_decide_eq_false_2.
    + destruct (heap w !! x) as [itx|] eqn:Ex; simpl; [|done].
      destruct (decide (x = r)) as [->|Hne].
      * rewrite bool_decide_eq_true_2 by done. assert (itx = it) as -> by congruence.
        by rewrite Ef.
      * by rewrite bool_decide_eq_false_2.
  - destruct (heap w !! x) as [itx|] eqn:Ex; simpl; [|done].
    destruct (decide (x = r)) as [->|Hne]; [congruence|by rewrite bool_decide_eq_false_2].
Qed.

Lemma generateFetch_expired tr it :
  FetchCacheItem.expired (FetchCacheItem.generateFetch tr it) = FetchCacheItem.expired it.
Proof. unfold FetchCacheItem.generateFetch. by destruct (FetchCacheItem.decode tr). Qed.

Lemma world_eq w1 w2 :
  heap w1 = heap w2 -> fetchCache w1 = fetchCache w2 -> instances w1 = instances w2 ->
  calls w1 = calls w2 -> timers w1 = timers w2 -> now w1 = now w2 ->
  emitted w1 = emitted w2 -> w1 = w2.
Proof. destruct w1, w2. simpl. by intros -> -> -> -> -> -> ->. Qed.

Lemma settle_frame r tr w :
  fetchCache (settle r tr w) = fetchCache w /\
  instances (settle r tr w) = instances w /\
  calls (settle r tr w) = calls w /\
  timers (settle r tr w) = timers w /\
  now (settle r tr w) = now w /\
  emitted (settle r tr w) = emitted w.
Proof.
  unfold settle. destruct (heap w !! r) as [it|]; [|done].
  by destruct (FetchCacheItem.fetch it).
Qed.

(** Expiring an item and settling its fetch do not interfere. *)
Lemma settle_setExpiredAt r r' tr w :
  settle r tr (setExpiredAt r' w) = setExpiredAt r' (settle r tr w).
Proof.
  destruct (settle_frame r tr (setExpiredAt r' w)) as (A1 & A2 & A3 & A4 & A5 & A6).
  destruct (setExpiredAt_frame r' (settle r tr w)) as (B1 & B2 & B3 & B4 & B5 & B6 & _).
  destruct (settle_frame r tr w) as (C1 & C2 & C3 & C4 & C5 & C6).
  destruct (setExpiredAt_frame r' w) as (D1 & D2 & D3 & D4 & D5 & D6 & _).
  apply world_eq; try congruence.
  apply list_eq. intros x.
  rewrite settle_heap, !setExpiredAt_heap, settle_heap.
  destruct (heap w !! x) as [it|]; simpl; [|done]. f_equal.
  destruct (bool_decide (x = r)), (bool_decide (x = r')); try done.
  simpl. destruct (FetchCacheItem.fetch it); try done.
  unfold FetchCacheItem.generateFetch. by destruct (FetchCacheItem.decode tr).
Qed.

Lemma setExpiredAt_idem r w : setExpiredAt r (setExpiredAt r w) = setExpiredAt r w.
Proof.
  destruct (setExpiredAt_frame r (setExpiredAt r w)) as (A1 & A2 & A3 & A4 & A5 & A6 & _).
  apply world_eq; try done.
  apply list_eq. intros x. rewrite !setExpiredAt_heap.
  destruct (heap w !! x) as [it|]; simpl; [|done].
  by destruct (bool_decide (x = r)).
Qed.

Lemma setExpiredAt_noop r w : expiredAt w r = true -> setExpiredAt r w = w.
Proof.
  unfold expiredAt, setExpiredAt, FetchCacheItem.isExpired.
  destruct (heap w !! r) as [it|] eqn:E; [|done]. intros Hex.
  rewrite setExpired_expired by done. rewrite list_insert_id by done.
  apply with_heap_same.
Qed.

(** One event, seen from one item. *)
Lemma step_item e w w' r it :
  step e w = Ok w' -> heap w !! r = Some it ->
  exists it', heap w' !! r = Some it' /\
    FetchCacheItem.input it' = FetchCacheItem.input it /\
    FetchCacheItem.opts it' = FetchCacheItem.opts it /\
    (FetchCacheItem.expired it = true -> FetchCacheItem.expired it' = true) /\
    (FetchCacheItem.expired it = false -> FetchCacheItem.expired it' = true ->
     expires e = true).
Proof.
  intros Hs Hr.
  assert (Hkeep : forall h', h' = heap w \/ (exists a, h' = heap w ++ [a]) ->
            h' !! r = Some it).
  { intros h' [->|[a ->]]; [done|]. by apply lookup_app_l_Some. }
  assert (Hexp : forall h', expiryOnly (heap w) h' ->
            exists it', h' !! r = Some it' /\
              FetchCacheItem.input it' = FetchCacheItem.input it /\
              FetchCacheItem.opts it' = FetchCacheItem.opts it /\
              (FetchCacheItem.expired it = true -> FetchCacheItem.expired it' = true) /\
              (FetchCacheItem.expired it = false -> FetchCacheItem.expired it' = true ->
               True)).
  { intros h' H. destruct (H r it Hr) as [H1|[Hex H1]]; eexists; (split; [exact H1|]);
      simpl; repeat split; auto. }
  assert (Hsame : forall h' : list FetchCacheItem.t, h' !! r = Some it ->
            exists it', h' !! r = Some it' /\
              FetchCacheItem.input it' = FetchCacheItem.input it /\
              FetchCacheItem.opts it' = FetchCacheItem.opts it /\
              (FetchCacheItem.expired it = true -> FetchCacheItem.expired it' = true) /\
              (FetchCacheItem.expired it = false -> FetchCacheItem.expired it' = true ->
               expires e = true)).
  { intros h' H. exists it. repeat split; try done. congruence. }
  destruct e; simpl in Hs.
  - injection Hs as <-. apply Hsame.
    unfold tag. destruct (list_find _ _) as [[i ?]|]; done.
  - destruct (fetch input opts lifespan tags w) as [[s w1]| |] eqn:Hf; simpl in Hs; try done.
    injection Hs as <-. apply Hsame.
    apply Hkeep. apply fetch_heap in Hf as [->|Hf]; [by left|right; eauto].
  - destruct (nonReactFetch input opts lifespan tags w) as [[s w1]| |] eqn:Hf;
      simpl in Hs; try done.
    injection Hs as <-. apply Hsame.
    apply Hkeep. apply nonReactFetch_heap in Hf as [->|Hf]; [by left|right; eauto].
  - apply forceExpireWith_expiryOnly in Hs. destruct (Hexp _ Hs) as (it' & ? & ? & ? & ? & _).
    exists it'. done.
  - apply forceExpireWith_expiryOnly in Hs. destruct (Hexp _ Hs) as (it' & ? & ? & ? & ? & _).
    exists it'. done.
  - injection Hs as <-. by apply Hsame.
  - injection Hs as <-. rewrite settle_heap, Hr. simpl. eexists. split; [done|].
    destruct (bool_decide (r = r0)); [|repeat split; try done; congruence].
    destruct (FetchCacheItem.fetch it); [|repeat split; try done; congruence..].
    rewrite generateFetch_expired.
    unfold FetchCacheItem.generateFetch. destruct (FetchCacheItem.decode tr); simpl.
    all: repeat split; try done; congruence.
  - injection Hs as <-. destruct (Hexp _ (advance_expiryOnly dt w)) as (it' & ? & ? & ? & ? & _).
    exists it'. done.
Qed.

(** ** The expired flag over time *)

Lemma run_item es w w' r it :
  run es w = Ok w' -> heap w !! r = Some it ->
  exists it', heap w' !! r = Some it' /\
    (FetchCacheItem.expired it = true -> FetchCacheItem.expired it' = true) /\
    (FetchCacheItem.expired it = false -> FetchCacheItem.expired it' = true ->
     exists e, e ∈ es /\ expires e = true).
Proof.
  revert w it. induction es as [|e es IH]; intros w it; simpl.
  - intros [= <-] Hr. exists it. repeat split; try done. congruence.
  - destruct (step e w) as [w1| |] eqn:Hs; simpl; try done. intros Hrun Hr.
    destruct (step_item e w w1 r it Hs Hr) as (it1 & Hr1 & _ & _ & Hmono & Hwhy).
    destruct (IH w1 it1 Hrun Hr1) as (it' & Hr' & Hmono' & Hwhy').
    exists it'. repeat split; [done|auto|].
    intros Hf Ht. destruct (FetchCacheItem.expired it1) eqn:E1.
    + exists e. split; [constructor|auto].
    + destruct (Hwhy' eq_refl Ht) as (e' & He' & Hx). exists e'. split; [by constructor|done].
Qed.

(** C7. The expired flag of an item only ever goes from false to true:
    along any sequence of events an expired item stays expired, and a flag
    that turned true did so at a timer run or a forceExpire call.  Setting
    the flag is idempotent and a no-op on an expired item.  Expiry leaves
    the fetch promise, the error and the response of the item untouched, and
    the settlement of the fetch proceeds on an expired item exactly as on a
    live one. *)
Theorem expired_is_monotonic es w w' r it :
  run es w = Ok w' ->
  heap w !! r = Some it ->
  exists it', heap w' !! r = Some it' /\
    (FetchCacheItem.expired it = true -> FetchCacheItem.expired it' = true) /\
    (FetchCacheItem.expired it = false -> FetchCacheItem.expired it' = true ->
     exists e, e ∈ es /\ expires e = true) /\
    setExpiredAt r (setExpiredAt r w') = setExpiredAt r w' /\
    (FetchCacheItem.expired it' = true -> setExpiredAt r w' = w') /\
    FetchCacheItem.fetch (FetchCacheItem.setExpired it') = FetchCacheItem.fetch it' /\
    FetchCacheItem.error (FetchCacheItem.setExpired it') = FetchCacheItem.error it' /\
    FetchCacheItem.response (FetchCacheItem.setExpired it') = FetchCacheItem.response it' /\
    (forall tr, settle r tr (setExpiredAt r w') = setExpiredAt r (settle r tr w')) /\
    (forall tr, FetchCacheItem.fetch it' = Pending ->
       heap (settle r tr (setExpiredAt r w')) !! r
       = Some (FetchCacheItem.setExpired (FetchCacheItem.generateFetch tr it'))).
Proof.
  intros Hrun Hr.
  destruct (run_item es w w' r it Hrun Hr) as (it' & Hr' & Hmono & Hwhy).
  exists it'. split; [done|]. split; [done|]. split; [done|].
  split; [apply setExpiredAt_idem|].
  split.
  { intros Hex. apply setExpiredAt_noop. unfold expiredAt. by rewrite Hr'. }
  repeat split.
  - intros tr. apply settle_setExpiredAt.
  - intros tr Hp. rewrite settle_setExpiredAt, setExpiredAt_heap, settle_heap, Hr'. simpl.
    by rewrite bool_decide_eq_true_2, Hp.
Qed.

Definition scene_tags : list string := ["a"; "b"]%string.

(** A world with one instance tagged a and b and one fetch of /x in flight. *)
Definition scene_one_fetch : World :=
  match fetch (Url "/x") None 0 scene_tags (snd (tag scene_tags emptyWorld)) with
  | Ok (_, w) => w
  | _ => emptyWorld
  end.

Definition scene_expire_then_settle : list Event :=
  [ForceExpireRequest (Url "/x") None ["a"%string]; Settle 0 (Throws (JStr "offline"))].

Definition scene_after_expiry : World :=
  match run scene_expire_then_settle scene_one_fetch with
  | Ok w => w
  | _ => emptyWorld
  end.

Lemma expired_is_monotonic_witness :
  run scene_expire_then_settle scene_one_fetch = Ok scene_after_expiry /\
  heap scene_one_fetch !! 0 = Some (FetchCacheItem.init (Url "/x") None 0) /\
  exists it', heap scene_after_expiry !! 0 = Some it' /\
    FetchCacheItem.expired it' = true.
Proof.
  assert (H1 : run scene_expire_then_settle scene_one_fetch = Ok scene_after_expiry)
    by (vm_compute; reflexivity).
  assert (H2 : heap scene_one_fetch !! 0 = Some (FetchCacheItem.init (Url "/x") None 0))
    by (vm_compute; reflexivity).
  split; [exact H1|]. split; [exact H2|].
  destruct (expired_is_monotonic _ _ _ _ _ H1 H2) as (it' & Hit & _).
  exists it'. split; [exact Hit|].
  vm_compute in Hit. injection Hit as <-. reflexivity.
Defined.

(** ** Well-formed worlds *)

(** Every reference stored under a tag points into the heap.  The empty
    world is well formed and every event keeps worlds well formed. *)
Definition wfWorld (w : World) : Prop :=
  forall tag items, fetchCache w !! tag = Some items ->
    forall r, r ∈ items -> r < length (heap w).

Lemma wfWorld_empty : wfWorld emptyWorld.
Proof. intros tag items H. simpl in H. by rewrite lookup_empty in H. Qed.

Lemma wfWorld_same w w' :
  fetchCache w' = fetchCache w -> length (heap w') = length (heap w) ->
  wfWorld w -> wfWorld w'.
Proof. unfold wfWorld. intros -> ->. done. Qed.

Lemma ensureTag_lookup c tags tag :
  foldl ensureTag c tags !! tag =
  match c !! tag with
  | Some items => Some items
  | None => if bool_decide (tag ∈ tags) then Some [] else None
  end.
Proof.
  revert c. induction tags as [|t rest IH]; intros c; simpl.
  - by destruct (c !! tag).
  - rewrite IH. unfold ensureTag. destruct (c !! t) as [l|] eqn:Et.
    + destruct (c !! tag) as [l'|] eqn:Etag; [done|].
      assert (t <> tag) by congruence.
      destruct (decide (tag ∈ rest)).
      * rewrite !bool_decide_eq_true_2; [done|by constructor|done].
      * rewrite !bool_decide_eq_false_2; [done| |done].
        intros H'. apply elem_of_cons in H' as [->|H']; done.
    + destruct (decide (t = tag)) as [->|Hne].
      * rewrite lookup_insert_eq, Et. rewrite bool_decide_eq_true_2; [done|constructor].
      * rewrite lookup_insert_ne by done. destruct (c !! tag); [done|].
        destruct (decide (tag ∈ rest)).
        -- rewrite !bool_decide_eq_true_2; [done|by constructor|done].
        -- rewrite !bool_decide_eq_false_2; [done| |done].
           intros H'. apply elem_of_cons in H' as [->|H']; done.
Qed.

Lemma tag_spec tags w :
  heap (snd (tag tags w)) = heap w /\
  calls (snd (tag tags w)) = calls w /\
  timers (snd (tag tags w)) = timers w /\
  now (snd (tag tags w)) = now w /\
  emitted (snd (tag tags w)) = emitted w /\
  (forall t items, fetchCache w !! t = Some items ->
     fetchCache (snd (tag tags w)) !! t = Some items) /\
  (forall t items, fetchCache (snd (tag tags w)) !! t = Some items ->
     fetchCache w !! t = Some items \/ items = []).
Proof.
  unfold tag. destruct (list_find _ _) as [[i ts]|]; simpl.
  - repeat split; auto.
  - repeat split; try done.
    + intros t items H. by rewrite ensureTag_lookup, H.
    + intros t items. rewrite ensureTag_lookup. destruct (fetchCache w !! t); [by left|].
      destruct (bool_decide _); [|done]. intros [= <-]. by right.
Qed.

Lemma wipeTags_lookup tags c tag :
  wipeTags tags c !! tag = if bool_decide (tag ∈ tags) then Some [] else c !! tag.
Proof.
  unfold wipeTags. revert c. induction tags as [|t rest IH]; intros c; simpl; [done|].
  rewrite IH. destruct (decide (tag ∈ rest)).
  - rewrite !bool_decide_eq_true_2; [done|by constructor|done].
  - rewrite (bool_decide_eq_false_2 (tag ∈ rest)) by done.
    destruct (decide (t = tag)) as [->|Hne].
    + rewrite lookup_insert_eq. rewrite bool_decide_eq_true_2; [done|constructor].
    + rewrite lookup_insert_ne by done. rewrite bool_decide_eq_false_2; [done|].
      intros H'. apply elem_of_cons in H' as [->|H']; done.
Qed.

Lemma created_wf input opts lifespan tags w w' :
  created input opts lifespan tags w w' -> wfWorld w -> wfWorld w'.
Proof.
  intros (Hh & _ & _ & _ & _ & _ & Hl) Hwf tag items. rewrite Hl, Hh, length_app. simpl.
  destruct (fetchCache w !! tag) as [l|] eqn:E; simpl; [|done].
  intros [= <-] r Hr. apply elem_of_app in Hr as [Hr|Hr].
  - specialize (Hwf tag l E r Hr). lia.
  - apply elem_of_replicate in Hr as [-> _]. lia.
Qed.

Lemma expiryOnly_length h h' : expiryOnly h h' -> length h <= length h'.
Proof.
  intros H. destruct (decide (length h <= length h')) as [|Hn]; [done|].
  assert (Hlt : length h' < length h) by lia.
  destruct (lookup_lt_is_Some_2 h (length h') Hlt) as [it Hit].
  destruct (H _ _ Hit) as [H1|[_ H1]]; apply lookup_lt_Some in H1; lia.
Qed.

Lemma elem_of_filter_bool {A : Type} (f : A -> bool) (l : list A) (x : A) :
  x ∈ List.filter f l -> x ∈ l.
Proof. rewrite !list_elem_of_In. intros H. by apply filter_In in H as [H _]. Qed.

Lemma foldl_setExpiredAt_frame (tms : list (Z * ref)) w :
  fetchCache (foldl (fun acc tm => setExpiredAt (snd tm) acc) w tms) = fetchCache w /\
  instances (foldl (fun acc tm => setExpiredAt (snd tm) acc) w tms) = instances w /\
  calls (foldl (fun acc tm => setExpiredAt (snd tm) acc) w tms) = calls w /\
  emitted (foldl (fun acc tm => setExpiredAt (snd tm) acc) w tms) = emitted w.
Proof.
  revert w. induction tms as [|tm tms IH]; intros w; simpl; [done|].
  destruct (IH (setExpiredAt (snd tm) w)) as (-> & -> & -> & ->).
  destruct (setExpiredAt_frame (snd tm) w) as (-> & -> & -> & _ & _ & -> & _). done.
Qed.

Lemma advance_frame dt w :
  fetchCache (advance dt w) = fetchCache w /\
  instances (advance dt w) = instances w /\
  calls (advance dt w) = calls w /\
  emitted (advance dt w) = emitted w /\
  now (advance dt w) = (now w + Z.of_N dt)%Z.
Proof.
  unfold advance, fireTimers. simpl.
  set (w0 := mkWorld _ _ _ _ _ _ _).
  destruct (foldl_setExpiredAt_frame (List.filter (due (now w + Z.of_N dt)) (timers w)) w0)
    as (-> & -> & -> & ->).
  repeat split; try done.
  generalize (List.filter (due (now w + Z.of_N dt)) (timers w)). intros tms.
  change (now w + Z.of_N dt)%Z with (now w0). generalize w0. clear.
  induction tms as [|tm tms IH]; intros w1; simpl; [done|].
  rewrite IH. apply setExpiredAt_frame.
Qed.

Lemma expireLoop_frame fuel finder m w w' :
  expireLoop fuel finder m w = Ok w' ->
  fetchCache w' = fetchCache w /\ instances w' = instances w /\ calls w' = calls w /\
  timers w' = timers w /\ now w' = now w /\ emitted w' = emitted w.
Proof.
  revert m w. induction fuel as [|fuel IH]; intros [r|] w; simpl; try done.
  all: try (by intros [= ->]).
  destruct (finder (setExpiredAt r w)) as [next| |]; simpl; try done.
  intros H. apply IH in H as (-> & -> & -> & -> & -> & ->).
  destruct (setExpiredAt_frame r w) as (-> & -> & -> & -> & -> & -> & _). done.
Qed.

Lemma forceExpireWith_frame finder tags w w' :
  forceExpireWith finder tags w = Ok w' ->
  instances w' = instances w /\ calls w' = calls w /\
  timers w' = timers w /\ now w' = now w /\
  (forall tag items', fetchCache w' !! tag = Some items' ->
     exists items, fetchCache w !! tag = Some items /\ forall x, x ∈ items' -> x ∈ items) /\
  (forall tag, is_Some (fetchCache w !! tag) -> is_Some (fetchCache w' !! tag)).
Proof.
  unfold forceExpireWith.
  destruct (finder w) as [m| |]; simpl; try done.
  destruct (expireLoop _ finder m w) as [w1| |] eqn:Hl; simpl; try done.
  apply expireLoop_frame in Hl as (Hc & Hi & Hca & Ht & Hn & He).
  destruct m; intros H.
  - pose proof (cleanCache_ok_tagsOk _ _ _ H) as Hok.
    destruct (cleanCache_spec _ _ Hok) as (w2 & H2 & _ & Hi2 & Hc2 & Ht2 & Hn2 & _ & Hl2).
    rewrite H in H2. injection H2 as <-. simpl in *.
    rewrite Hi2, Hc2, Ht2, Hn2. repeat split; try done.
    + intros tag items'. rewrite Hl2, Hc.
      destruct (bool_decide _); [|by eauto].
      destruct (fetchCache w !! tag) as [l|]; simpl; [|done].
      intros [= <-]. exists l. split; [done|]. intros x. apply elem_of_filter_bool.
    + intros tag [l Htag]. rewrite Hl2, Hc, Htag. by destruct (bool_decide _).
  - injection H as <-. rewrite Hc. repeat split; try done. eauto.
Qed.

Lemma step_wf e w w' : step e w = Ok w' -> wfWorld w -> wfWorld w'.
Proof.
  intros Hs Hwf. destruct e; simpl in Hs.
  - injection Hs as <-. destruct (tag_spec tags w) as (Hh & _ & _ & _ & _ & _ & Hl).
    intros t items Hi r Hr. rewrite Hh. destruct (Hl t items Hi) as [H| ->].
    + by eapply Hwf.
    + by apply elem_of_nil in Hr.
  - destruct (fetch input opts lifespan tags w) as [[s w1]| |] eqn:Hf; simpl in Hs; try done.
    injection Hs as <-. revert Hf. unfold fetch, findFetchItem.
    destruct (findWith _ tags w) as [[r|]| |] eqn:Hfind; simpl; try done.
    + destruct (heap w !! r) as [it|]; [|done].
      destruct (negb _); [by intros [= _ <-]|]. destruct (negb _); by intros [= _ <-].
    + pose proof (findWith_ok_tagsOk_first _ _ _ _ Hfind eq_refl) as Hok.
      rewrite (findWith_entries _ _ _ Hok) in Hfind. injection Hfind as Hfind.
      destruct (fetch_miss input opts lifespan tags w Hok Hfind) as (w2 & Hfe & Hcr).
      unfold fetch, findFetchItem in Hfe. rewrite (findWith_entries _ _ _ Hok), Hfind in Hfe.
      simpl in Hfe. rewrite Hfe. intros [= _ <-]. by eapply created_wf.
  - destruct (nonReactFetch input opts lifespan tags w) as [[s w1]| |] eqn:Hf;
      simpl in Hs; try done.
    injection Hs as <-. revert Hf. unfold nonReactFetch, findFetchItem.
    destruct (findWith _ tags w) as [[r|]| |] eqn:Hfind; simpl; try done.
    + by intros [= _ <-].
    + pose proof (findWith_ok_tagsOk_first _ _ _ _ Hfind eq_refl) as Hok.
      rewrite (findWith_entries _ _ _ Hok) in Hfind. injection Hfind as Hfind.
      destruct (nonReactFetch_miss input opts lifespan tags w Hok Hfind) as (w2 & Hfe & Hcr).
      unfold nonReactFetch, findFetchItem in Hfe.
      rewrite (findWith_entries _ _ _ Hok), Hfind in Hfe.
      simpl in Hfe. rewrite Hfe. intros [= _ <-]. by eapply created_wf.
  - pose proof (expiryOnly_length _ _ (forceExpireWith_expiryOnly _ _ _ _ Hs)).
    apply forceExpireWith_frame in Hs as (_ & _ & _ & _ & Hl & _).
    intros t items' Hi r Hr. destruct (Hl t items' Hi) as (items & Hi0 & Hsub).
    specialize (Hwf t items Hi0 r (Hsub r Hr)). lia.
  - pose proof (expiryOnly_length _ _ (forceExpireWith_expiryOnly _ _ _ _ Hs)).
    apply forceExpireWith_frame in Hs as (_ & _ & _ & _ & Hl & _).
    intros t items' Hi r Hr. destruct (Hl t items' Hi) as (items & Hi0 & Hsub).
    specialize (Hwf t items Hi0 r (Hsub r Hr)). lia.
  - injection Hs as <-. intros t items. simpl. rewrite wipeTags_lookup.
    destruct (bool_decide _).
    + intros [= <-] r Hr. by apply elem_of_nil in Hr.
    + apply Hwf.
  - injection Hs as <-. destruct (settle_frame r tr w) as (Hc & _).
    eapply wfWorld_same; [exact Hc| |done].
    unfold settle. destruct (heap w !! r) as [it|]; [|done].
    destruct (FetchCacheItem.fetch it); simpl; try done. by rewrite length_insert.
  - injection Hs as <-. intros t items Hi r Hr.
    pose proof (expiryOnly_length _ _ (advance_expiryOnly dt w)).
    destruct (advance_frame dt w) as (Hc & _).
    rewrite Hc in Hi. specialize (Hwf t items Hi r Hr). lia.
Qed.

(** ** Reachability of an entry from the tags it is registered under *)

(** Under every tag of [tags], the first live item matching the request is
    the item [r]. *)
Definition anchored (input : RequestInfo) (opts : option RequestInit)
    (tags : list string) (r : ref) (w : World) : Prop :=
  forall tag, tag ∈ tags ->
    exists items, fetchCache w !! tag = Some items /\
      find (liveMatch (FetchCacheItem.argsEqual input opts) w) items = Some r.

(** Events that neither expire an item nor clear a tag. *)
Definition keeps (e : Event) : bool :=
  match e with
  | Construct _ | Fetch _ _ _ _ | NonReactFetch _ _ _ _ | Settle _ _ => true
  | _ => false
  end.

Lemma find_ext_in {A : Type} (f g : A -> bool) (l : list A) :
  (forall x, x ∈ l -> f x = g x) -> find f l = find g l.
Proof.
  induction l as [|a l IH]; simpl; [done|]. intros H.
  rewrite (H a) by constructor. destruct (g a); [done|].
  apply IH. intros x Hx. apply H. by constructor.
Qed.

Lemma liveMatch_ext P w w' x :
  heap w' !! x = heap w !! x -> liveMatch P w' x = liveMatch P w x.
Proof. unfold liveMatch. by intros ->. Qed.

Lemma anchored_find input opts tags r w tags' :
  anchored input opts tags r w -> tags' <> [] -> tags' ⊆ tags ->
  findFetchItem input opts tags' w = Ok (Some r).
Proof.
  intros Ha Hne Hsub. destruct tags' as [|t rest]; [done|].
  destruct (Ha t) as (items & Hi & Hf). { apply Hsub. constructor. }
  unfold findFetchItem. simpl. by rewrite Hi, Hf.
Qed.

Lemma anchored_live input opts tags r w tag :
  anchored input opts tags r w -> tag ∈ tags ->
  r ∈ entries [tag] w /\ liveMatch (FetchCacheItem.argsEqual input opts) w r = true.
Proof.
  intros Ha Ht. destruct (Ha tag Ht) as (items & Hi & Hf).
  apply find_some_iff in Hf as [Hr Hl]. split; [|done].
  apply elem_of_entries. exists tag, items. repeat split; [constructor|done..].
Qed.

(** A scan of tags that share a tag with an anchored set finds an item. *)
Lemma anchored_hit input opts tags r w tags' tag :
  anchored input opts tags r w -> tag ∈ tags -> tag ∈ tags' ->
  exists r', find (liveMatch (FetchCacheItem.argsEqual input opts) w) (entries tags' w) = Some r'.
Proof.
  intros Ha Ht Ht'. destruct (Ha tag Ht) as (items & Hi & Hf).
  apply find_some_iff in Hf as [Hr Hl].
  destruct (find _ (entries tags' w)) as [r'|] eqn:E; [eauto|].
  exfalso. assert (Hin : r ∈ entries tags' w).
  { apply elem_of_entries. eauto. }
  rewrite (proj1 (find_none_iff _ _) E r Hin) in Hl. done.
Qed.

Lemma created_anchored input opts lifespan tags w w' :
  wfWorld w -> tagsOk tags w ->
  find (liveMatch (FetchCacheItem.argsEqual input opts) w) (entries tags w) = None ->
  created input opts lifespan tags w w' ->
  anchored input opts tags (length (heap w)) w'.
Proof.
  intros Hwf Hok Hmiss (Hh & _ & _ & _ & _ & _ & Hl) tag Htag.
  destruct (tagsOk_elem _ _ _ Hok Htag) as [items Hi].
  destruct (count_tag_pos tags tag Htag) as [n Hn].
  rewrite Hl, Hi, Hn. simpl. eexists. split; [done|].
  rewrite find_app.
  assert (Hnone : find (liveMatch (FetchCacheItem.argsEqual input opts) w') items = None).
  { apply find_none_iff. intros x Hx.
    rewrite (liveMatch_ext _ w w').
    - apply (proj1 (find_none_iff _ _) Hmiss). apply elem_of_entries. eauto.
    - rewrite Hh. apply lookup_app_l. by eapply Hwf. }
  rewrite Hnone. simpl. unfold liveMatch at 1.
  rewrite Hh, lookup_app_r, Nat.sub_diag by done. simpl.
  unfold FetchCacheItem.argsEqual. simpl. by rewrite !deepEqual_refl.
Qed.

(** Appending a fresh item to the heap and pushing it on some arrays does
    not move an anchor. *)
Lemma created_keeps_anchor input opts tags r input' opts' lifespan' tags' w w' :
  wfWorld w ->
  anchored input opts tags r w ->
  created input' opts' lifespan' tags' w w' ->
  anchored input opts tags r w'.
Proof.
  intros Hwf Ha (Hh & _ & _ & _ & _ & _ & Hl) tag Htag.
  destruct (Ha tag Htag) as (items & Hi & Hf).
  rewrite Hl, Hi. simpl. eexists. split; [done|]. rewrite find_app.
  rewrite (find_ext_in _ (liveMatch (FetchCacheItem.argsEqual input opts) w)), Hf; [done|].
  intros x Hx. apply liveMatch_ext. rewrite Hh. apply lookup_app_l. by eapply Hwf.
Qed.

Lemma settle_liveMatch_args input opts r tr w x :
  liveMatch (FetchCacheItem.argsEqual input opts) (settle r tr w) x
  = liveMatch (FetchCacheItem.argsEqual input opts) w x.
Proof.
  unfold liveMatch. rewrite settle_heap.
  destruct (heap w !! x) as [it|]; simpl; [|done].
  destruct (bool_decide (x = r)); [|done].
  destruct (FetchCacheItem.fetch it); try done.
  unfold FetchCacheItem.generateFetch, FetchCacheItem.argsEqual, FetchCacheItem.isExpired.
  by destruct (FetchCacheItem.decode tr).
Qed.

Lemma fetch_cases input opts lifespan tags w s w' :
  fetch input opts lifespan tags w = Ok (s, w') ->
  w' = w \/ (tagsOk tags w /\ created input opts lifespan tags w w').
Proof.
  unfold fetch, findFetchItem.
  destruct (findWith _ tags w) as [[r|]| |] eqn:Hfind; simpl; try done.
  - destruct (heap w !! r) as [it|]; [|done].
    destruct (negb _); [intros [= _ <-]; by left|].
    destruct (negb _); intros [= _ <-]; by left.
  - pose proof (findWith_ok_tagsOk_first _ _ _ _ Hfind eq_refl) as Hok.
    rewrite (findWith_entries _ _ _ Hok) in Hfind. injection Hfind as Hfind.
    destruct (fetch_miss input opts lifespan tags w Hok Hfind) as (w2 & Hfe & Hcr).
    unfold fetch, findFetchItem in Hfe. rewrite (findWith_entries _ _ _ Hok), Hfind in Hfe.
    simpl in Hfe. rewrite Hfe. intros [= _ <-]. by right.
Qed.

Lemma nonReactFetch_cases input opts lifespan tags w r w' :
  nonReactFetch input opts lifespan tags w = Ok (r, w') ->
  w' = w \/ (tagsOk tags w /\ created input opts lifespan tags w w').
Proof.
  unfold nonReactFetch, findFetchItem.
  destruct (findWith _ tags w) as [[r0|]| |] eqn:Hfind; simpl; try done.
  - intros [= _ <-]; by left.
  - pose proof (findWith_ok_tagsOk_first _ _ _ _ Hfind eq_refl) as Hok.
    rewrite (findWith_entries _ _ _ Hok) in Hfind. injection Hfind as Hfind.
    destruct (nonReactFetch_miss input opts lifespan tags w Hok Hfind) as (w2 & Hfe & Hcr).
    unfold nonReactFetch, findFetchItem in Hfe.
    rewrite (findWith_entries _ _ _ Hok), Hfind in Hfe.
    simpl in Hfe. rewrite Hfe. intros [= _ <-]. by right.
Qed.

Lemma step_keeps_anchor input opts tags r e w w' :
  keeps e = true -> wfWorld w -> anchored input opts tags r w ->
  step e w = Ok w' -> anchored input opts tags r w'.
Proof.
  intros Hk Hwf Ha Hs. destruct e; simpl in Hk, Hs; try done.
  - injection Hs as <-. destruct (tag_spec tags0 w) as (Hh & _ & _ & _ & _ & Hl & _).
    intros t Ht. destruct (Ha t Ht) as (items & Hi & Hf). exists items.
    split; [by apply Hl|]. rewrite <- Hf. apply find_ext_in. intros x _.
    apply liveMatch_ext. by rewrite Hh.
  - destruct (fetch input0 opts0 lifespan tags0 w) as [[s w1]| |] eqn:Hf; simpl in Hs; try done.
    injection Hs as <-. apply fetch_cases in Hf as [->|[_ Hcr]]; [done|].
    by eapply created_keeps_anchor.
  - destruct (nonReactFetch input0 opts0 lifespan tags0 w) as [[s w1]| |] eqn:Hf;
      simpl in Hs; try done.
    injection Hs as <-. apply nonReactFetch_cases in Hf as [->|[_ Hcr]]; [done|].
    by eapply created_keeps_anchor.
  - injection Hs as <-. destruct (settle_frame r0 tr w) as (Hc & _).
    intros t Ht. destruct (Ha t Ht) as (items & Hi & Hf). exists items.
    rewrite Hc. split; [done|]. rewrite <- Hf. apply find_ext_in. intros x _.
    apply settle_liveMatch_args.
Qed.

Lemma run_keeps_anchor input opts tags r es w w' :
  Forall (fun e => keeps e = true) es -> wfWorld w -> anchored input opts tags r w ->
  run es w = Ok w' -> anchored input opts tags r w' /\ wfWorld w'.
Proof.
  intros Hall. revert w. induction Hall as [|e es Hk _ IH]; intros w Hwf Ha; simpl.
  - by intros [= <-].
  - destruct (step e w) as [w1| |] eqn:Hs; simpl; try done.
    apply IH; [by eapply step_wf|by eapply step_keeps_anchor].
Qed.

(** C5. A lookup that misses constructs one item and pushes the reference
    to that one item on the array of every tag of the calling instance.  The
    item is then what a lookup for the same request returns when scoped to
    any one of those tags alone or to several of them, and it stays so
    while only lookups, constructions and settlements happen. *)
Theorem created_entry_is_shared_and_reachable input opts lifespan tags w :
  wfWorld w ->
  tagsOk tags w ->
  findFetchItem input opts tags w = Ok None ->
  exists w',
    fetch input opts lifespan tags w = Ok (ThrowPromise (length (heap w)), w') /\
    nonReactFetch input opts lifespan tags w = Ok (length (heap w), w') /\
    heap w' = heap w ++ [FetchCacheItem.init input opts lifespan] /\
    (forall tag, tag ∈ tags ->
       exists items, fetchCache w' !! tag = Some items /\ length (heap w) ∈ items) /\
    (forall tags' lifespan', tags' <> [] -> tags' ⊆ tags ->
       findFetchItem input opts tags' w' = Ok (Some (length (heap w))) /\
       fetch input opts lifespan' tags' w' = Ok (ThrowPromise (length (heap w)), w') /\
       nonReactFetch input opts lifespan' tags' w' = Ok (length (heap w), w')) /\
    (forall es w'' tags', Forall (fun e => keeps e = true) es -> run es w' = Ok w'' ->
       tags' <> [] -> tags' ⊆ tags ->
       findFetchItem input opts tags' w'' = Ok (Some (length (heap w)))).
Proof.
  intros Hwf Hok Hfind. unfold findFetchItem in Hfind.
  rewrite (findWith_entries _ _ _ Hok) in Hfind. injection Hfind as Hmiss.
  destruct (fetch_miss input opts lifespan tags w Hok Hmiss) as (w' & Hfe & Hcr).
  destruct (nonReactFetch_miss input opts lifespan tags w Hok Hmiss) as (w2 & Hnf & Hcr2).
  assert (w2 = w') as ->.
  { unfold fetch, findFetchItem in Hfe. unfold nonReactFetch, findFetchItem in Hnf.
    rewrite (findWith_entries _ _ _ Hok), Hmiss in Hfe, Hnf. simpl in Hfe, Hnf.
    destruct (register _ _ _) as [w3| |]; simpl in *; congruence. }
  pose proof (created_anchored _ _ _ _ _ _ Hwf Hok Hmiss Hcr) as Ha.
  pose proof (created_wf _ _ _ _ _ _ Hcr Hwf) as Hwf'.
  assert (Hok' : forall tags', tags' ⊆ tags -> tagsOk tags' w').
  { intros tags' Hsub. apply Forall_forall. intros t Ht.
    destruct (Ha t (Hsub t Ht)) as (items & Hi & _). by eexists. }
  exists w'. split; [done|]. split; [done|]. split; [apply Hcr|]. split; [|split].
  - intros tag Htag. destruct (Ha tag Htag) as (items & Hi & Hf).
    exists items. split; [done|]. by apply find_some_iff in Hf as [? _].
  - intros tags' lifespan' Hne Hsub.
    pose proof (anchored_find _ _ _ _ _ _ Ha Hne Hsub) as Hf. split; [done|].
    unfold findFetchItem in Hf. rewrite (findWith_entries _ _ _ (Hok' _ Hsub)) in Hf.
    injection Hf as Hf. split.
    + destruct (fetch_hit input opts lifespan' tags' w' _ (Hok' _ Hsub) Hf)
        as (it & Hit & _ & _ & Hfetch).
      rewrite Hfetch. destruct Hcr as (Hh & _). rewrite Hh, lookup_app_r in Hit by done.
      rewrite Nat.sub_diag in Hit. injection Hit as <-. done.
    + by apply nonReactFetch_hit; [apply Hok'|].
  - intros es w'' tags' Hall Hrun Hne Hsub.
    destruct (run_keeps_anchor _ _ _ _ _ _ _ Hall Hwf' Ha Hrun) as [Ha'' _].
    by eapply anchored_find.
Qed.

Definition scene_empty_ab : World := snd (tag scene_tags emptyWorld).

Lemma created_entry_is_shared_and_reachable_witness :
  wfWorld scene_empty_ab /\
  tagsOk scene_tags scene_empty_ab /\
  findFetchItem (Url "/x") None scene_tags scene_empty_ab = Ok None /\
  exists w',
    fetch (Url "/x") None 0 scene_tags scene_empty_ab = Ok (ThrowPromise 0, w') /\
    findFetchItem (Url "/x") None ["b"%string] w' = Ok (Some 0).
Proof.
  assert (H1 : wfWorld scene_empty_ab).
  { apply (step_wf (Construct scene_tags) emptyWorld); [reflexivity|apply wfWorld_empty]. }
  assert (H2 : tagsOk scene_tags scene_empty_ab).
  { repeat constructor; eexists; vm_compute; reflexivity. }
  assert (H3 : findFetchItem (Url "/x") None scene_tags scene_empty_ab = Ok None)
    by (vm_compute; reflexivity).
  split; [exact H1|]. split; [exact H2|]. split; [exact H3|].
  destruct (created_entry_is_shared_and_reachable (Url "/x") None 0 scene_tags
              scene_empty_ab H1 H2 H3) as (w' & Hf & _ & _ & _ & Hsub & _).
  exists w'. split; [exact Hf|].
  apply (Hsub ["b"%string] 0%Z).
  - discriminate.
  - intros t Ht. apply list_elem_of_singleton in Ht as ->. unfold scene_tags.
    apply list_elem_of_further. constructor.
Defined.

(** ** Invalidation and notification *)

Lemma setExpired_args input opts it :
  FetchCacheItem.argsEqual input opts (FetchCacheItem.setExpired it)
  = FetchCacheItem.argsEqual input opts it.
Proof. done. Qed.

(** After the loop an item is live exactly when it was live and was not
    selected. *)
Lemma markExpired_liveMatch Q sel w w' x :
  heap w' = markExpired sel (heap w) ->
  (forall it, Q (FetchCacheItem.setExpired it) = Q it) ->
  liveMatch Q w' x = liveMatch Q w x && negb (sel x).
Proof.
  intros Hh HQ. unfold liveMatch. rewrite Hh. unfold markExpired. rewrite list_lookup_imap.
  destruct (heap w !! x) as [it|]; simpl; [|done].
  destruct (sel x); simpl.
  - unfold FetchCacheItem.isExpired. simpl. by rewrite !andb_false_r.
  - by rewrite andb_true_r.
Qed.

Lemma hasOneOfTheseTags_true its tags :
  hasOneOfTheseTags its tags = true <-> exists t, t ∈ its /\ t ∈ tags.
Proof.
  unfold hasOneOfTheseTags. rewrite existsb_exists. split.
  - intros (t & Hin & Hd). apply bool_decide_eq_true in Hd.
    exists t. by rewrite list_elem_of_In.
  - intros (t & Hin & Ht). exists t. rewrite <- list_elem_of_In.
    split; [done|by apply bool_decide_eq_true].
Qed.

(** The instances notified are exactly those sharing a tag with the caller. *)
Lemma elem_of_notified tags w i :
  i ∈ notified tags w <->
  exists its, instances w !! i = Some its /\ exists t, t ∈ its /\ t ∈ tags.
Proof.
  unfold notified. rewrite list_elem_of_In, filter_In, <- list_elem_of_In, elem_of_seq.
  split.
  - intros [_ H]. destruct (instances w !! i) as [its|]; [|done].
    exists its. split; [done|]. by apply hasOneOfTheseTags_true.
  - intros (its & Hi & Ht). rewrite Hi. split.
    + apply lookup_lt_Some in Hi. lia.
    + by apply hasOneOfTheseTags_true.
Qed.

Lemma forceExpireWith_settles Q tags w w' :
  (forall it, Q (FetchCacheItem.setExpired it) = Q it) ->
  tagsOk tags w ->
  forceExpireWith (findWith Q tags) tags w = Ok w' ->
  tagsOk tags w' /\ find (liveMatch Q w') (entries tags w') = None.
Proof.
  intros HQ Hok Hfe.
  destruct (find (liveMatch Q w) (entries tags w)) as [r|] eqn:Hf.
  - destruct (forceExpireWith_hit Q tags w r Hok Hf) as (w2 & Hfe2 & Hh & _ & _ & _ & _ & _ & Hl).
    rewrite Hfe in Hfe2. injection Hfe2 as <-.
    split.
    + apply Forall_forall. intros t Ht. rewrite Hl, bool_decide_eq_true_2 by done.
      destruct (tagsOk_elem _ _ _ Hok Ht) as [items Hi]. rewrite Hi. by eexists.
    + apply find_none_iff. intros x Hx.
      rewrite (markExpired_liveMatch Q _ w w' x Hh HQ).
      apply elem_of_entries in Hx as (t & items' & Ht & Hi' & Hx).
      rewrite Hl, bool_decide_eq_true_2 in Hi' by done.
      destruct (fetchCache w !! t) as [items|] eqn:Hi; simpl in Hi'; [|done].
      injection Hi' as <-. apply elem_of_filter_bool in Hx.
      unfold selected. rewrite bool_decide_eq_true_2.
      * simpl. by destruct (liveMatch Q w x).
      * apply elem_of_entries. eauto.
  - rewrite (forceExpireWith_miss Q tags w Hok Hf) in Hfe. injection Hfe as <-. done.
Qed.

Lemma urlEqual_setExpired url it :
  FetchCacheItem.urlEqual url (FetchCacheItem.setExpired it) = FetchCacheItem.urlEqual url it.
Proof. done. Qed.

Lemma forceExpireWith_total Q tags w :
  tagsOk tags w -> exists w', forceExpireWith (findWith Q tags) tags w = Ok w'.
Proof.
  intros Hok. destruct (find (liveMatch Q w) (entries tags w)) as [r|] eqn:Hf.
  - destruct (forceExpireWith_hit Q tags w r Hok Hf) as (w' & H & _). eauto.
  - exists w. by apply forceExpireWith_miss.
Qed.

(** What both [forceExpire] methods do about notification, for a
    predicate [Q] on the request of an item. *)
Lemma forceExpireWith_notifies Q tags w :
  (forall it, Q (FetchCacheItem.setExpired it) = Q it) ->
  tagsOk tags w ->
  exists w', forceExpireWith (findWith Q tags) tags w = Ok w' /\
    (findWith Q tags w = Ok None -> w' = w) /\
    (forall r, findWith Q tags w = Ok (Some r) ->
       emitted w' = emitted w ++ notified tags w /\
       exists it, heap w !! r = Some it /\ FetchCacheItem.expired it = false /\
                  heap w' !! r = Some (FetchCacheItem.setExpired it)) /\
    findWith Q tags w' = Ok None /\
    forceExpireWith (findWith Q tags) tags w' = Ok w'.
Proof.
  intros HQ Hok. destruct (forceExpireWith_total Q tags w Hok) as [w' Hfe].
  exists w'. split; [done|].
  destruct (forceExpireWith_settles Q tags w w' HQ Hok Hfe) as [Hok' Hnone].
  rewrite (findWith_entries Q tags w Hok), (findWith_entries Q tags w' Hok'), Hnone.
  split; [|split; [|split]].
  - intros [= Hf]. rewrite (forceExpireWith_miss Q tags w Hok Hf) in Hfe. congruence.
  - intros r [= Hf].
    destruct (forceExpireWith_hit Q tags w r Hok Hf) as (w2 & Hfe2 & Hh & _ & _ & _ & _ & He & _).
    rewrite Hfe in Hfe2. injection Hfe2 as <-. split; [done|].
    apply find_some_iff in Hf as [Hin Hlive]. pose proof Hlive as Hlive'.
    apply liveMatch_true in Hlive' as (it & Hit & _ & Hex).
    exists it. repeat split; try done.
    rewrite Hh. unfold markExpired. rewrite list_lookup_imap, Hit. simpl.
    unfold selected. by rewrite bool_decide_eq_true_2, Hlive.
  - done.
  - by apply forceExpireWith_miss.
Qed.

(** C8. [wipeCache] empties every tag of the caller and emits to every
    instance sharing a tag with the caller, whatever the tags held, so a
    second wipe of the now empty tags emits again.  [forceExpireURL] and
    [forceExpireRequest] change nothing and emit nothing when the search
    finds no item; when it finds one, that item is expired and the same
    instances are notified once; a second call right after finds nothing
    and leaves the world as it is. *)
Theorem wipe_notifies_always_expire_only_on_hit url input opts tags w :
  tagsOk tags w ->
  ((forall tag, tag ∈ tags -> fetchCache (wipeCache tags w) !! tag = Some []) /\
   (forall tag, tag ∉ tags -> fetchCache (wipeCache tags w) !! tag = fetchCache w !! tag) /\
   emitted (wipeCache tags w) = emitted w ++ notified tags w /\
   emitted (wipeCache tags (wipeCache tags w))
     = (emitted w ++ notified tags w) ++ notified tags w /\
   (forall i, i ∈ notified tags w <->
      exists its, instances w !! i = Some its /\ exists t, t ∈ its /\ t ∈ tags)) /\
  (exists w', forceExpireURL url tags w = Ok w' /\
     (findFetchURL url tags w = Ok None -> w' = w) /\
     (forall r, findFetchURL url tags w = Ok (Some r) ->
        emitted w' = emitted w ++ notified tags w /\
        exists it, heap w !! r = Some it /\ FetchCacheItem.expired it = false /\
                   heap w' !! r = Some (FetchCacheItem.setExpired it)) /\
     findFetchURL url tags w' = Ok None /\
     forceExpireURL url tags w' = Ok w') /\
  (exists w', forceExpireRequest input opts tags w = Ok w' /\
     (findFetchItem input opts tags w = Ok None -> w' = w) /\
     (forall r, findFetchItem input opts tags w = Ok (Some r) ->
        emitted w' = emitted w ++ notified tags w /\
        exists it, heap w !! r = Some it /\ FetchCacheItem.expired it = false /\
                   heap w' !! r = Some (FetchCacheItem.setExpired it)) /\
     findFetchItem input opts tags w' = Ok None /\
     forceExpireRequest input opts tags w' = Ok w').
Proof.
  intros Hok. split; [|split].
  - split; [|split; [|split; [|split]]].
    + intros tag Ht. simpl. by rewrite wipeTags_lookup, bool_decide_eq_true_2.
    + intros tag Ht. simpl. by rewrite wipeTags_lookup, bool_decide_eq_false_2.
    + done.
    + done.
    + apply elem_of_notified.
  - apply (forceExpireWith_notifies (FetchCacheItem.urlEqual url) tags w); [done|done].
  - apply (forceExpireWith_notifies (FetchCacheItem.argsEqual input opts) tags w); [done|done].
Qed.

(** Three instances, tagged x, y and x with y, over an empty cache. *)
Definition scene_three_instances : World :=
  snd (tag ["x"; "y"]%string (snd (tag ["y"%string] (snd (tag ["x"%string] emptyWorld))))).

Lemma wipe_notifies_always_expire_only_on_hit_witness :
  tagsOk ["x"%string] scene_three_instances /\
  emitted (wipeCache ["x"%string] scene_three_instances) = [0; 2] /\
  forceExpireURL "/x" ["x"%string] scene_three_instances = Ok scene_three_instances.
Proof.
  assert (H : tagsOk ["x"%string] scene_three_instances).
  { repeat constructor. eexists. vm_compute. reflexivity. }
  split; [exact H|].
  destruct (wipe_notifies_always_expire_only_on_hit "/x" (Url "/x") None ["x"%string]
              scene_three_instances H)
    as ((_ & _ & He & _) & (w' & Hfe & Hmiss & _) & _).
  split.
  - rewrite He. vm_compute. reflexivity.
  - rewrite Hfe. f_equal. apply Hmiss. vm_compute. reflexivity.
Defined.

(** ** Invalidation by request *)

(** An item is visible from [tags] when a scan of the tags meets it and it
    is not expired. *)
Definition visible (tags : list string) (w : World) (r : ref) : Prop :=
  r ∈ entries tags w /\
  exists it, heap w !! r = Some it /\ FetchCacheItem.expired it = false.

Lemma elem_of_filter_bool_iff {A : Type} (f : A -> bool) (l : list A) (x : A) :
  x ∈ List.filter f l <-> x ∈ l /\ f x = true.
Proof. rewrite !list_elem_of_In. apply filter_In. Qed.


(** The flat-list [forceExpireRequest] keeps an object only when its input
    differs and its options differ as well. *)
Lemma flat_forceExpireRequest_keeps input opts s ele :
  ele ∈ FlatFetchSuspense.fetchCaches (FlatFetchSuspense.forceExpireRequest input opts s) <->
  ele ∈ FlatFetchSuspense.fetchCaches s /\
  input <> FlatFetchSuspense.input ele /\ opts <> FlatFetchSuspense.opts ele.
Proof.
  unfold FlatFetchSuspense.forceExpireRequest. simpl.
  rewrite elem_of_filter_bool_iff, andb_true_iff, !negb_true_iff.
  unfold deepEqual. by rewrite !bool_decide_eq_false.
Qed.

Definition optsGET : option RequestInit := Some {[ "method"%string := "GET"%string ]}.
Definition optsPOST : option RequestInit := Some {[ "method"%string := "POST"%string ]}.

(** The flat cache after [fetch('/a', {method: 'GET'})]. *)
Definition flat_scene_get : FlatFetchSuspense.State :=
  snd (FlatFetchSuspense.fetch (Url "/a") optsGET 0 FlatFetchSuspense.emptyState).

(** C2, the flat-list design at [forceExpireRequest('/a', {method: 'POST'})]
    over a cache holding the fetch of ['/a'] with [{method: 'GET'}]: the
    stored object equals the request in its input only, yet the filter
    drops it and the array is left empty. *)
Theorem flat_forceExpireRequest_drops_input_only_match :
  (exists ele, FlatFetchSuspense.fetchCaches flat_scene_get = [ele] /\
     deepEqual (Url "/a") (FlatFetchSuspense.input ele) = true /\
     deepEqual optsPOST (FlatFetchSuspense.opts ele) = false) /\
  FlatFetchSuspense.fetchCaches
    (FlatFetchSuspense.forceExpireRequest (Url "/a") optsPOST flat_scene_get) = [].
Proof.
  split.
  - eexists. split; [reflexivity|]. split; vm_compute; reflexivity.
  - vm_compute. reflexivity.
Qed.

(** ** Expiry through one tag, seen from another *)

(** The specification's sentence, read literally: the item is still what a lookup
    under [b] returns, and such a lookup calls no transport. *)
Definition stillServedUnder (b : string) (input : RequestInfo) (opts : option RequestInit)
    (r : ref) (w : World) : Prop :=
  findFetchItem input opts [b] w = Ok (Some r) /\
  forall lifespan s w', fetch input opts lifespan [b] w = Ok (s, w') -> calls w' = calls w.

(** Instances tagged a with b, a, and b; /x fetched through the first. *)
Definition scene_shared_entry : World :=
  match run [Construct ["a"; "b"]%string; Construct ["a"%string]; Construct ["b"%string];
             Fetch (Url "/x") None 0 ["a"; "b"]%string] emptyWorld with
  | Ok w => w
  | _ => emptyWorld
  end.

(** ... and then expired through the instance tagged a. *)
Definition scene_expired_via_a : World :=
  match forceExpireRequest (Url "/x") None ["a"%string] scene_shared_entry with
  | Ok w => w
  | _ => emptyWorld
  end.

(** C3 as stated fails: item 0 is registered under a and b and is expired
    through the instance tagged a; it is still stored under b, but a lookup
    under b does not return it and calls the transport a second time. *)
Lemma expired_via_a_not_served_under_b :
  fetchCache scene_shared_entry !! "a"%string = Some [0] /\
  fetchCache scene_shared_entry !! "b"%string = Some [0] /\
  forceExpireRequest (Url "/x") None ["a"%string] scene_shared_entry = Ok scene_expired_via_a /\
  fetchCache scene_expired_via_a !! "b"%string = Some [0] /\
  findFetchItem (Url "/x") None ["b"%string] scene_expired_via_a = Ok None /\
  (exists w', fetch (Url "/x") None 0 ["b"%string] scene_expired_via_a
              = Ok (ThrowPromise 1, w') /\
     calls w' = [(Url "/x", None); (Url "/x", None)]) /\
  ~ stillServedUnder "b" (Url "/x") None 0 scene_expired_via_a.
Proof.
  split; [vm_compute; reflexivity|]. split; [vm_compute; reflexivity|].
  split; [vm_compute; reflexivity|]. split; [vm_compute; reflexivity|].
  split; [vm_compute; reflexivity|].
  split; [eexists; split; vm_compute; reflexivity|].
  intros [H _]. vm_compute in H. discriminate.
Qed.

(** C3, amended.  An item that is registered under the tags of an instance
    and under another tag [b], and is expired through that instance, is
    expired for everyone: no lookup returns it any more, under the caller's
    tags or under [b], although its reference stays in the array of [b]
    until [cleanCache] runs for [b].  When no other live item for the
    request is stored under [b], the next lookup under [b] misses,
    constructs a new item and calls the transport again. *)
Theorem expiry_through_one_tag_is_global input opts lifespan tags b items_b w r it :
  tagsOk tags w ->
  b ∉ tags ->
  r ∈ entries tags w ->
  fetchCache w !! b = Some items_b ->
  r ∈ items_b ->
  heap w !! r = Some it ->
  FetchCacheItem.argsEqual input opts it = true ->
  FetchCacheItem.expired it = false ->
  exists w', forceExpireRequest input opts tags w = Ok w' /\
    heap w' !! r = Some (FetchCacheItem.setExpired it) /\
    findFetchItem input opts tags w' = Ok None /\
    fetchCache w' !! b = Some items_b /\
    (forall tags', findFetchItem input opts tags' w' <> Ok (Some r)) /\
    (forall w'', cleanCache [b] w' = Ok w'' ->
       exists items, fetchCache w'' !! b = Some items /\ r ∉ items) /\
    ((forall x, x ∈ items_b ->
        liveMatch (FetchCacheItem.argsEqual input opts) w x = true -> x ∈ entries tags w) ->
     findFetchItem input opts [b] w' = Ok None /\
     exists w'', fetch input opts lifespan [b] w' = Ok (ThrowPromise (length (heap w')), w'') /\
       heap w'' = heap w' ++ [FetchCacheItem.init input opts lifespan] /\
       calls w'' = calls w' ++ [(input, opts)]).
Proof.
  intros Hok Hb Hr Hib Hrb Hit HP Hex.
  set (Q := FetchCacheItem.argsEqual input opts).
  assert (Hlive : liveMatch Q w r = true).
  { apply liveMatch_true. eauto. }
  destruct (find (liveMatch Q w) (entries tags w)) as [r0|] eqn:Hf.
  2:{ rewrite (proj1 (find_none_iff _ _) Hf r Hr) in Hlive. done. }
  destruct (forceExpireWith_hit Q tags w r0 Hok Hf)
    as (w' & Hfe & Hh & _ & Hcalls & _ & _ & _ & Hl).
  destruct (forceExpireWith_settles Q tags w w' (setExpired_args input opts) Hok Hfe)
    as [Hok' Hnone].
  assert (Hsel : selected Q tags w r = true).
  { unfold selected. by rewrite bool_decide_eq_true_2, Hlive. }
  assert (Hr' : heap w' !! r = Some (FetchCacheItem.setExpired it)).
  { rewrite Hh. unfold markExpired. by rewrite list_lookup_imap, Hit, Hsel. }
  assert (Hib' : fetchCache w' !! b = Some items_b).
  { by rewrite Hl, bool_decide_eq_false_2. }
  assert (Hdead : liveMatch Q w' r = false).
  { unfold liveMatch. rewrite Hr'. unfold FetchCacheItem.isExpired. simpl. apply andb_false_r. }
  exists w'. split; [done|]. split; [done|].
  split; [unfold findFetchItem; fold Q; by rewrite (findWith_entries Q tags w' Hok'), Hnone|].
  split; [done|]. split; [|split].
  - intros tags' Hfind. unfold findFetchItem in Hfind. fold Q in Hfind.
    assert (Hgen : forall ts, findWith Q ts w' = Ok (Some r) -> False).
    { clear Hfind. induction ts as [|t rest IH]; simpl; [done|].
      destruct (fetchCache w' !! t) as [items|]; [|done].
      destruct (find (liveMatch Q w') items) as [x|] eqn:Hx; [|done].
      intros [= ->]. apply find_some_iff in Hx as [_ Hx]. congruence. }
    by eapply Hgen.
  - intros w'' Hclean.
    destruct (cleanCache_spec [b] w' (cleanCache_ok_tagsOk _ _ _ Hclean))
      as (w2 & H2 & _ & _ & _ & _ & _ & _ & Hl2).
    rewrite Hclean in H2. injection H2 as <-.
    eexists. split.
    + rewrite Hl2, bool_decide_eq_true_2 by constructor. by rewrite Hib'.
    + intros Hin. apply elem_of_filter_bool_iff in Hin as [_ Hin].
      unfold expiredAt in Hin. rewrite Hr' in Hin. done.
  - intros Honly.
    assert (Hokb : tagsOk [b] w'). { repeat constructor. by eexists. }
    assert (Hmiss : find (liveMatch Q w') (entries [b] w') = None).
    { apply find_none_iff. intros x Hx.
      apply elem_of_entries in Hx as (t & items & Ht & Hi & Hx).
      apply list_elem_of_singleton in Ht as ->. rewrite Hib' in Hi. injection Hi as <-.
      rewrite (markExpired_liveMatch Q _ w w' x Hh (setExpired_args input opts)).
      destruct (liveMatch Q w x) eqn:Hlx; [|done].
      unfold selected. by rewrite bool_decide_eq_true_2, Hlx by auto. }
    split; [unfold findFetchItem; fold Q; by rewrite (findWith_entries Q [b] w' Hokb), Hmiss|].
    destruct (fetch_miss input opts lifespan [b] w' Hokb Hmiss) as (w'' & Hfetch & Hcr).
    exists w''. split; [done|]. split; apply Hcr.
Qed.

Lemma expiry_through_one_tag_is_global_witness :
  tagsOk ["a"%string] scene_shared_entry /\
("b"%string ∉ ["a"%string]) /\
  0 ∈ entries ["a"%string] scene_shared_entry /\
  fetchCache scene_shared_entry !! "b"%string = Some [0] /\
  0 ∈ [0] /\
  heap scene_shared_entry !! 0 = Some (FetchCacheItem.init (Url "/x") None 0) /\
  exists w', forceExpireRequest (Url "/x") None ["a"%string] scene_shared_entry = Ok w' /\
    findFetchItem (Url "/x") None ["b"%string] w' = Ok None.
Proof.
  assert (H1 : tagsOk ["a"%string] scene_shared_entry).
  { repeat constructor. eexists. vm_compute. reflexivity. }
  assert (H2 : ("b"%string ∉ ["a"%string])).
  { intros H. apply list_elem_of_singleton in H. discriminate. }
  assert (H3 : 0 ∈ entries ["a"%string] scene_shared_entry).
  { vm_compute. constructor. }
  assert (H4 : fetchCache scene_shared_entry !! "b"%string = Some [0])
    by (vm_compute; reflexivity).
  assert (H5 : 0 ∈ [0]) by constructor.
  assert (H6 : heap scene_shared_entry !! 0 = Some (FetchCacheItem.init (Url "/x") None 0))
    by (vm_compute; reflexivity).
  repeat (split; [assumption|]).
  destruct (expiry_through_one_tag_is_global (Url "/x") None 0 ["a"%string] "b"%string [0]
              scene_shared_entry 0 _ H1 H2 H3 H4 H5 H6 eq_refl eq_refl)
    as (w' & Hfe & _ & _ & _ & _ & _ & Hnew).
  exists w'. split; [exact Hfe|].
  apply Hnew. intros x Hx _. apply list_elem_of_singleton in Hx as ->. exact H3.
Defined.

(** ** The three-way answer of the synchronous lookup *)

Lemma find_first {A : Type} (f : A -> bool) (l : list A) (x : A) :
  find f l = Some x <->
  exists l1 l2, l = l1 ++ x :: l2 /\ f x = true /\ forall y, y ∈ l1 -> f y = false.
Proof.
  split.
  - induction l as [|a l IH]; simpl; [done|]. destruct (f a) eqn:E.
    + intros [= ->]. exists [], l. repeat split; [done|]. intros y Hy. by apply elem_of_nil in Hy.
    + intros H. destruct (IH H) as (l1 & l2 & -> & Hx & Hl1).
      exists (a :: l1), l2. repeat split; [done|].
      intros y Hy. apply elem_of_cons in Hy as [->|Hy]; auto.
  - intros (l1 & l2 & -> & Hx & Hl1). rewrite find_app.
    rewrite (proj2 (find_none_iff f l1) Hl1). simpl. by rewrite Hx.
Qed.

(** X23. The synchronous [fetch], case by case.  The scan goes through the
    arrays of the tags in the order of the tags and stops at the first
    item that matches the request and is not expired.  If there is one,
    nothing changes and the answer is read off its fields in this order:
    a non-nullish [error] is thrown, else a non-nullish [response] is
    returned, else the [fetch] promise of the item is thrown.  If there is
    none, a new item is constructed and registered and its promise is
    thrown. *)
Theorem fetch_three_way input opts lifespan tags w :
  tagsOk tags w ->
  findFetchItem input opts tags w
    = Ok (find (liveMatch (FetchCacheItem.argsEqual input opts) w) (entries tags w)) /\
  match find (liveMatch (FetchCacheItem.argsEqual input opts) w) (entries tags w) with
  | Some r =>
      (exists before after, entries tags w = before ++ r :: after /\
         forall x, x ∈ before ->
           liveMatch (FetchCacheItem.argsEqual input opts) w x = false) /\
      exists it, heap w !! r = Some it /\
        FetchCacheItem.argsEqual input opts it = true /\
        FetchCacheItem.expired it = false /\
        fetch input opts lifespan tags w =
        Ok (if negb (nullish (FetchCacheItem.error it))
            then ThrowError (FetchCacheItem.error it)
            else if negb (nullish (FetchCacheItem.response it))
                 then Return (FetchCacheItem.response it)
                 else ThrowPromise r,
            w)
  | None =>
      exists w', fetch input opts lifespan tags w = Ok (ThrowPromise (length (heap w)), w') /\
        created input opts lifespan tags w w'
  end.
Proof.
  intros Hok. split; [by apply findWith_entries|].
  destruct (find _ (entries tags w)) as [r|] eqn:Hf.
  - split.
    + apply find_first in Hf as (l1 & l2 & H1 & _ & H3). eauto.
    + destruct (fetch_hit input opts lifespan tags w r Hok Hf) as (it & ? & ? & ? & ?).
      exists it. done.
  - by apply fetch_miss.
Qed.

Lemma fetch_three_way_witness :
  tagsOk scene_tags scene_one_fetch /\
  fetch (Url "/x") None 0 scene_tags scene_one_fetch = Ok (ThrowPromise 0, scene_one_fetch).
Proof.
  assert (H : tagsOk scene_tags scene_one_fetch).
  { repeat constructor; eexists; vm_compute; reflexivity. }
  split; [exact H|].
  destruct (fetch_three_way (Url "/x") None 0 scene_tags scene_one_fetch H) as [_ Hm].
  assert (Hf : find (liveMatch (FetchCacheItem.argsEqual (Url "/x") None) scene_one_fetch)
                 (entries scene_tags scene_one_fetch) = Some 0) by (vm_compute; reflexivity).
  rewrite Hf in Hm. destruct Hm as (_ & it & Hit & _ & _ & Hfetch).
  rewrite Hfetch. vm_compute in Hit. injection Hit as <-. reflexivity.
Defined.

(** A response whose JSON body is the literal [null]. *)
Definition jsonNull : Completion Response :=
  Returns {| contentType := Some "application/json"%string;
             json := Returns JNull;
             text := Returns "null"%string |}.

(** C10. When the fetch of an item settles successfully with a nullish
    value, such as a JSON body [null], the promise of the item is
    fulfilled and its response holds the value, yet every later
    synchronous lookup that finds the item takes the last branch and throws
    that settled promise, leaving the world as it is, so any number of
    repeated lookups does the same.  The asynchronous lookup resolves with
    the value. *)
Theorem null_response_keeps_sync_lookup_pending input opts tags w r it tr data :
  tagsOk tags w ->
  findFetchItem input opts tags w = Ok (Some r) ->
  heap w !! r = Some it ->
  FetchCacheItem.fetch it = Pending ->
  nullish (FetchCacheItem.error it) = true ->
  FetchCacheItem.decode tr = Returns data ->
  nullish data = true ->
  exists it', heap (settle r tr w) !! r = Some it' /\
    FetchCacheItem.fetch it' = Fulfilled /\
    FetchCacheItem.response it' = data /\
    (forall lifespan,
       fetch input opts lifespan tags (settle r tr w) = Ok (ThrowPromise r, settle r tr w)) /\
    (forall lifespan n,
       run (replicate n (Fetch input opts lifespan tags)) (settle r tr w)
       = Ok (settle r tr w)) /\
    (forall lifespan,
       nonReactFetch input opts lifespan tags (settle r tr w) = Ok (r, settle r tr w)) /\
    awaited (settle r tr w) r = Resolves data.
Proof.
  intros Hok Hfind Hit Hp Herr Hdec Hnull.
  set (w' := settle r tr w).
  assert (Hit' : heap w' !! r = Some (FetchCacheItem.generateFetch tr it)).
  { unfold w'. rewrite settle_heap, Hit. simpl. by rewrite bool_decide_eq_true_2, Hp. }
  assert (Hgf : FetchCacheItem.generateFetch tr it
                = FetchCacheItem.mk (FetchCacheItem.error it) data (FetchCacheItem.lifespan it)
                    (FetchCacheItem.expired it) Fulfilled (FetchCacheItem.input it)
                    (FetchCacheItem.opts it)).
  { unfold FetchCacheItem.generateFetch. by rewrite Hdec. }
  destruct (settle_frame r tr w) as (Hc & _).
  assert (Hok' : tagsOk tags w') by (by eapply tagsOk_same_cache).
  assert (Hf' : find (liveMatch (FetchCacheItem.argsEqual input opts) w') (entries tags w')
                = Some r).
  { unfold findFetchItem in Hfind. rewrite (findWith_entries _ _ _ Hok) in Hfind.
    injection Hfind as Hfind. rewrite (entries_same_cache tags w w' Hc).
    rewrite <- Hfind. apply find_ext_in. intros x _. apply settle_liveMatch_args. }
  assert (Hfetch : forall lifespan,
            fetch input opts lifespan tags w' = Ok (ThrowPromise r, w')).
  { intros lifespan.
    destruct (fetch_hit input opts lifespan tags w' r Hok' Hf') as (it2 & Hit2 & _ & _ & ->).
    rewrite Hit' in Hit2. injection Hit2 as <-. unfold peek. rewrite Hgf. simpl.
    by rewrite Herr, Hnull. }
  exists (FetchCacheItem.generateFetch tr it). split; [done|]. rewrite Hgf. simpl.
  split; [done|]. split; [done|]. split; [done|]. split; [|split].
  - intros lifespan n. induction n as [|n IH]; simpl; [done|].
    by rewrite Hfetch.
  - intros lifespan. by apply nonReactFetch_hit.
  - unfold awaited. rewrite Hit', Hgf. unfold FetchCacheItem.getPromise. simpl.
    by rewrite Herr.
Qed.

Lemma null_response_keeps_sync_lookup_pending_witness :
  tagsOk scene_tags scene_one_fetch /\
  findFetchItem (Url "/x") None scene_tags scene_one_fetch = Ok (Some 0) /\
  heap scene_one_fetch !! 0 = Some (FetchCacheItem.init (Url "/x") None 0) /\
  FetchCacheItem.decode jsonNull = Returns JNull /\
  fetch (Url "/x") None 0 scene_tags (settle 0 jsonNull scene_one_fetch)
    = Ok (ThrowPromise 0, settle 0 jsonNull scene_one_fetch) /\
  awaited (settle 0 jsonNull scene_one_fetch) 0 = Resolves JNull.
Proof.
  assert (H1 : tagsOk scene_tags scene_one_fetch).
  { repeat constructor; eexists; vm_compute; reflexivity. }
  assert (H2 : findFetchItem (Url "/x") None scene_tags scene_one_fetch = Ok (Some 0))
    by (vm_compute; reflexivity).
  assert (H3 : heap scene_one_fetch !! 0 = Some (FetchCacheItem.init (Url "/x") None 0))
    by (vm_compute; reflexivity).
  assert (H4 : FetchCacheItem.decode jsonNull = Returns JNull) by (vm_compute; reflexivity).
  repeat (split; [assumption|]).
  destruct (null_response_keeps_sync_lookup_pending (Url "/x") None scene_tags
              scene_one_fetch 0 _ jsonNull JNull H1 H2 H3 eq_refl eq_refl H4 eq_refl)
    as (it' & _ & _ & _ & Hfetch & _ & _ & Haw).
  split; [apply Hfetch|exact Haw].
Defined.

(** One instance with the default tag; /data.json is fetched through it and
    the transport answers with the JSON body [null]. *)
Definition scene_null_body : World :=
  match run [Construct ["default"%string];
             Fetch (Url "/data.json") None 0 ["default"%string];
             Settle 0 jsonNull] emptyWorld with
  | Ok w => w
  | _ => emptyWorld
  end.

(** C1 at the failing input.  The item for /data.json is live and matches,
    its fetch has succeeded (the promise is fulfilled, no error is stored
    and the decoded value [null] is stored as the response), and the
    synchronous lookup does not return the stored value: it throws the
    promise of the item, the answer meant for an unresolved fetch. *)
Theorem fetch_on_succeeded_null_entry_signals_pending :
  findFetchItem (Url "/data.json") None ["default"%string] scene_null_body = Ok (Some 0) /\
  heap scene_null_body !! 0 =
    Some (FetchCacheItem.mk JUndefined JNull 0 false Fulfilled (Url "/data.json") None) /\
  FetchCacheItem.decode jsonNull = Returns JNull /\
  fetch (Url "/data.json") None 0 ["default"%string] scene_null_body
    = Ok (ThrowPromise 0, scene_null_body).
Proof. repeat split; vm_compute; reflexivity. Qed.

(** ** Failures *)

(** The promise built by [generateFetch] is never rejected: whatever the
    transport or the decoding throws ends in the [error] field. *)
Lemma generateFetch_captures tr it e :
  FetchCacheItem.decode tr = Throws e ->
  FetchCacheItem.generateFetch tr it
  = FetchCacheItem.mk e (FetchCacheItem.response it) (FetchCacheItem.lifespan it)
      (FetchCacheItem.expired it) Fulfilled (FetchCacheItem.input it) (FetchCacheItem.opts it).
Proof. unfold FetchCacheItem.generateFetch. by intros ->. Qed.

Lemma generateFetch_fulfils tr it :
  FetchCacheItem.fetch (FetchCacheItem.generateFetch tr it) = Fulfilled.
Proof. unfold FetchCacheItem.generateFetch. by destruct (FetchCacheItem.decode tr). Qed.

(** What throws: a rejected transport call, a failing [json()] when the
    content type says JSON, a failing [text()] otherwise. *)
Lemma decode_throws tr e :
  FetchCacheItem.decode tr = Throws e <->
  tr = Throws e \/
  exists resp, tr = Returns resp /\
    if includes "application/json" (default ""%string (contentType resp))
    then json resp = Throws e
    else text resp = Throws e.
Proof.
  unfold FetchCacheItem.decode. destruct tr as [resp|e']; split.
  - intros H. right. exists resp. split; [done|].
    destruct (includes _ _); [done|]. by destruct (text resp); simpl in H; [|congruence].
  - intros [H|(resp' & [= <-] & H)]; [done|].
    destruct (includes _ _); [done|]. by rewrite H.
  - intros [= ->]. by left.
  - intros [[= ->]|(resp & H & _)]; done.
Qed.

(** X26. A failure with a non-nullish error is stored and replayed: after the
    fetch of a found item settles by throwing [e], the promise is fulfilled,
    not rejected; every synchronous lookup that finds the item throws [e]
    and every asynchronous one rejects with [e]; the lookups leave the world
    as it is, so no transport call is made again. *)
Theorem failure_is_stored_and_replayed input opts tags w r it tr e :
  tagsOk tags w ->
  findFetchItem input opts tags w = Ok (Some r) ->
  heap w !! r = Some it ->
  FetchCacheItem.fetch it = Pending ->
  FetchCacheItem.decode tr = Throws e ->
  nullish e = false ->
  exists it', heap (settle r tr w) !! r = Some it' /\
    FetchCacheItem.fetch it' = Fulfilled /\
    FetchCacheItem.error it' = e /\
    calls (settle r tr w) = calls w /\
    (forall lifespan,
       fetch input opts lifespan tags (settle r tr w) = Ok (ThrowError e, settle r tr w)) /\
    (forall lifespan,
       nonReactFetch input opts lifespan tags (settle r tr w) = Ok (r, settle r tr w)) /\
    awaited (settle r tr w) r = Rejects e /\
    (forall lifespan n,
       run (replicate n (Fetch input opts lifespan tags)) (settle r tr w)
       = Ok (settle r tr w)).
Proof.
  intros Hok Hfind Hit Hp Hdec Hnn.
  set (w' := settle r tr w).
  assert (Hit' : heap w' !! r = Some (FetchCacheItem.generateFetch tr it)).
  { unfold w'. rewrite settle_heap, Hit. simpl. by rewrite bool_decide_eq_true_2, Hp. }
  pose proof (generateFetch_captures tr it e Hdec) as Hgf.
  destruct (settle_frame r tr w) as (Hc & _ & Hcalls & _).
  assert (Hok' : tagsOk tags w') by (by eapply tagsOk_same_cache).
  assert (Hf' : find (liveMatch (FetchCacheItem.argsEqual input opts) w') (entries tags w')
                = Some r).
  { unfold findFetchItem in Hfind. rewrite (findWith_entries _ _ _ Hok) in Hfind.
    injection Hfind as Hfind. rewrite (entries_same_cache tags w w' Hc).
    rewrite <- Hfind. apply find_ext_in. intros x _. apply settle_liveMatch_args. }
  assert (Hfetch : forall lifespan,
            fetch input opts lifespan tags w' = Ok (ThrowError e, w')).
  { intros lifespan.
    destruct (fetch_hit input opts lifespan tags w' r Hok' Hf') as (it2 & Hit2 & _ & _ & ->).
    rewrite Hit' in Hit2. injection Hit2 as <-. unfold peek. rewrite Hgf. simpl.
    by rewrite Hnn. }
  exists (FetchCacheItem.generateFetch tr it). split; [done|]. rewrite Hgf. simpl.
  repeat (split; [done|]). split; [|split].
  - intros lifespan. by apply nonReactFetch_hit.
  - unfold awaited. rewrite Hit', Hgf. unfold FetchCacheItem.getPromise. simpl.
    by rewrite Hnn.
  - intros lifespan n. induction n as [|n IH]; simpl; [done|]. by rewrite Hfetch.
Qed.

Lemma failure_is_stored_and_replayed_witness :
  tagsOk scene_tags scene_one_fetch /\
  fetch (Url "/x") None 0 scene_tags (settle 0 (Throws (JStr "offline")) scene_one_fetch)
    = Ok (ThrowError (JStr "offline"), settle 0 (Throws (JStr "offline")) scene_one_fetch).
Proof.
  assert (H1 : tagsOk scene_tags scene_one_fetch).
  { repeat constructor; eexists; vm_compute; reflexivity. }
  split; [exact H1|].
  assert (H2 : findFetchItem (Url "/x") None scene_tags scene_one_fetch = Ok (Some 0))
    by (vm_compute; reflexivity).
  assert (H3 : heap scene_one_fetch !! 0 = Some (FetchCacheItem.init (Url "/x") None 0))
    by (vm_compute; reflexivity).
  destruct (failure_is_stored_and_replayed (Url "/x") None scene_tags scene_one_fetch 0
              (FetchCacheItem.init (Url "/x") None 0) (Throws (JStr "offline")) (JStr "offline")
              H1 H2 H3 eq_refl eq_refl eq_refl) as (it' & _ & _ & _ & _ & Hfetch & _).
  apply Hfetch.
Defined.

(** One instance with the default tag; /x is fetched through it and the
    transport call is rejected with [null], as [fetch] does for a signal
    aborted with the reason [null]. *)
Definition scene_rejected_null : World :=
  match run [Construct ["default"%string];
             Fetch (Url "/x") None 0 ["default"%string];
             Settle 0 (Throws JNull)] emptyWorld with
  | Ok w => w
  | _ => emptyWorld
  end.

(** C6 at the failing input.  The transport call failed and the thrown
    value [null] was stored as the error of the item, yet the failure is
    not replayed: the synchronous lookup throws the promise of the item
    and the asynchronous lookup resolves, with [undefined]. *)
Theorem failure_with_null_reason_is_not_replayed :
  findFetchItem (Url "/x") None ["default"%string] scene_rejected_null = Ok (Some 0) /\
  heap scene_rejected_null !! 0 =
    Some (FetchCacheItem.mk JNull JUndefined 0 false Fulfilled (Url "/x") None) /\
  fetch (Url "/x") None 0 ["default"%string] scene_rejected_null
    = Ok (ThrowPromise 0, scene_rejected_null) /\
  nonReactFetch (Url "/x") None 0 ["default"%string] scene_rejected_null
    = Ok (0, scene_rejected_null) /\
  awaited scene_rejected_null 0 = Resolves JUndefined.
Proof. repeat split; vm_compute; reflexivity. Qed.

(** ** Deduplication *)

(** What a sequence of lookups for one request consists of: synchronous
    and asynchronous lookups through instances, and settlements of
    transport calls in between. *)
Inductive Lookup : Type :=
| Sync (tags : list string)
| Async (tags : list string)
| Settled (r : ref) (tr : Completion Response).

Definition lookupEvent (input : RequestInfo) (opts : option RequestInit) (lifespan : Z)
    (a : Lookup) : Event :=
  match a with
  | Sync tags => Fetch input opts lifespan tags
  | Async tags => NonReactFetch input opts lifespan tags
  | Settled r tr => Settle r tr
  end.

Definition lookupTags (a : Lookup) : option (list string) :=
  match a with
  | Sync tags | Async tags => Some tags
  | Settled _ _ => None
  end.

(** The tag sets of the lookups intersect pairwise. *)
Definition overlapping (acts : list Lookup) : Prop :=
  forall a b ta tb, a ∈ acts -> b ∈ acts ->
    lookupTags a = Some ta -> lookupTags b = Some tb ->
    exists t, t ∈ ta /\ t ∈ tb.

Definition lookupsOk (acts : list Lookup) (w : World) : Prop :=
  forall a ta, a ∈ acts -> lookupTags a = Some ta -> tagsOk ta w.

Lemma created_tagsOk input opts lifespan tags w w' ts :
  created input opts lifespan tags w w' -> tagsOk ts w -> tagsOk ts w'.
Proof.
  intros (_ & _ & _ & _ & _ & _ & Hl) Hok. eapply Forall_impl; [exact Hok|].
  simpl. intros t [items Hi]. rewrite Hl, Hi. by eexists.
Qed.

Lemma lookupsOk_tail a acts w : lookupsOk (a :: acts) w -> lookupsOk acts w.
Proof. intros H b tb Hb. apply H. by constructor. Qed.

(** Once an item is anchored under a tag set that every later lookup
    shares a tag with, the lookups all hit: no item is constructed and no
    transport call is made. *)
Lemma anchored_run_hits input opts lifespan tags r acts w :
  wfWorld w ->
  anchored input opts tags r w ->
  lookupsOk acts w ->
  (forall a ta, a ∈ acts -> lookupTags a = Some ta -> exists t, t ∈ tags /\ t ∈ ta) ->
  exists w', run (map (lookupEvent input opts lifespan) acts) w = Ok w' /\
    calls w' = calls w /\ length (heap w') = length (heap w).
Proof.
  revert w. induction acts as [|a acts IH]; intros w Hwf Ha Hok Hshare; simpl.
  - eauto.
  - assert (Hshare' : forall b tb, b ∈ acts -> lookupTags b = Some tb ->
              exists t, t ∈ tags /\ t ∈ tb).
    { intros b tb Hb. apply Hshare. by constructor. }
    destruct a as [ta|ta|r0 tr]; simpl.
    + destruct (Hshare (Sync ta) ta) as (t & Ht & Hta); [constructor|done|].
      destruct (anchored_hit _ _ _ _ _ ta t Ha Ht Hta) as [r' Hf].
      assert (Hokta : tagsOk ta w) by (apply (Hok (Sync ta)); [constructor|done]).
      destruct (fetch_hit input opts lifespan ta w r' Hokta Hf) as (it & _ & _ & _ & ->).
      simpl. apply IH; [done|done|by eapply lookupsOk_tail|done].
    + destruct (Hshare (Async ta) ta) as (t & Ht & Hta); [constructor|done|].
      destruct (anchored_hit _ _ _ _ _ ta t Ha Ht Hta) as [r' Hf].
      assert (Hokta : tagsOk ta w) by (apply (Hok (Async ta)); [constructor|done]).
      rewrite (nonReactFetch_hit input opts lifespan ta w r' Hokta Hf).
      simpl. apply IH; [done|done|by eapply lookupsOk_tail|done].
    + destruct (settle_frame r0 tr w) as (Hc & _ & Hcalls & _).
      destruct (IH (settle r0 tr w)) as (w' & Hrun & Hcalls' & Hlen).
      * by apply (step_wf (Settle r0 tr) w).
      * by apply (step_keeps_anchor input opts tags r (Settle r0 tr) w).
      * intros b tb Hb Htb. eapply tagsOk_same_cache; [exact Hc|].
        apply (Hok b); [by constructor|done].
      * done.
      * exists w'. split; [done|]. rewrite Hcalls', Hcalls, Hlen. split; [done|].
        unfold settle. destruct (heap w !! r0) as [it|]; [|done].
        destruct (FetchCacheItem.fetch it); simpl; try done. apply length_insert.
Qed.

(** X25. Lookups for one request and lifespan, synchronous or asynchronous,
    through instances whose tag sets intersect pairwise, with settlements
    in between, all complete, and the transport is called at most once, for
    that request: after the first lookup that constructs an item every
    later lookup finds an item and constructs none. *)
Theorem overlapping_lookups_call_transport_at_most_once input opts lifespan acts w :
  wfWorld w ->
  lookupsOk acts w ->
  overlapping acts ->
  exists w', run (map (lookupEvent input opts lifespan) acts) w = Ok w' /\
    (calls w' = calls w \/ calls w' = calls w ++ [(input, opts)]).
Proof.
  revert w. induction acts as [|a acts IH]; intros w Hwf Hok Hov; simpl.
  - eauto.
  - assert (Hov' : overlapping acts).
    { intros b c tb tc Hb Hc. apply Hov; by constructor. }
    pose proof (lookupsOk_tail _ _ _ Hok) as Hok'.
    assert (Hmiss : forall ta w1, lookupTags a = Some ta -> tagsOk ta w ->
              find (liveMatch (FetchCacheItem.argsEqual input opts) w) (entries ta w) = None ->
              created input opts lifespan ta w w1 ->
              exists w', run (map (lookupEvent input opts lifespan) acts) w1 = Ok w' /\
                (calls w' = calls w \/ calls w' = calls w ++ [(input, opts)])).
    { intros ta w1 Hta Hokta Hf Hcr.
      destruct (anchored_run_hits input opts lifespan ta (length (heap w)) acts w1)
        as (w' & Hrun & Hcalls & _).
      - by eapply created_wf.
      - by eapply created_anchored.
      - intros b tb Hb Htb. eapply created_tagsOk; [exact Hcr|]. by eapply Hok'.
      - intros b tb Hb Htb. apply (Hov a b ta tb); [constructor|by constructor|done|done].
      - exists w'. split; [done|]. right. rewrite Hcalls. apply Hcr. }
    destruct a as [ta|ta|r0 tr]; simpl.
    + assert (Hokta : tagsOk ta w) by (apply (Hok (Sync ta)); [constructor|done]).
      destruct (find (liveMatch (FetchCacheItem.argsEqual input opts) w) (entries ta w))
        as [r|] eqn:Hf.
      * destruct (fetch_hit input opts lifespan ta w r Hokta Hf) as (it & _ & _ & _ & ->).
        simpl. by apply IH.
      * destruct (fetch_miss input opts lifespan ta w Hokta Hf) as (w1 & -> & Hcr).
        simpl. by eapply Hmiss.
    + assert (Hokta : tagsOk ta w) by (apply (Hok (Async ta)); [constructor|done]).
      destruct (find (liveMatch (FetchCacheItem.argsEqual input opts) w) (entries ta w))
        as [r|] eqn:Hf.
      * rewrite (nonReactFetch_hit input opts lifespan ta w r Hokta Hf).
        simpl. by apply IH.
      * destruct (nonReactFetch_miss input opts lifespan ta w Hokta Hf) as (w1 & -> & Hcr).
        simpl. by eapply Hmiss.
    + destruct (settle_frame r0 tr w) as (Hc & _ & Hcalls & _).
      destruct (IH (settle r0 tr w)) as (w' & Hrun & Hcalls').
      * by apply (step_wf (Settle r0 tr) w).
      * intros b tb Hb Htb. eapply tagsOk_same_cache; [exact Hc|]. by eapply Hok'.
      * done.
      * exists w'. split; [done|]. by rewrite <- Hcalls.
Qed.

Definition scene_overlapping_lookups : list Lookup :=
  [Sync ["a"; "b"]%string; Async ["b"; "c"]%string; Settled 0 (Returns
     {| contentType := None; json := Throws JNull; text := Returns "hello"%string |});
   Sync ["b"%string]; Async ["c"; "b"; "a"]%string].

Definition scene_abc : World :=
  snd (tag ["c"; "b"; "a"]%string (snd (tag ["b"%string] (snd (tag ["b"; "c"]%string
    (snd (tag ["a"; "b"]%string emptyWorld))))))).

Lemma overlapping_lookups_call_transport_at_most_once_witness :
  wfWorld scene_abc /\
  lookupsOk scene_overlapping_lookups scene_abc /\
  overlapping scene_overlapping_lookups /\
  exists w', run (map (lookupEvent (Url "/x") None 0) scene_overlapping_lookups) scene_abc
             = Ok w' /\
    calls w' = [(Url "/x", None)].
Proof.
  assert (H1 : wfWorld scene_abc).
  { intros t items Hi r Hr.
    assert (Hall : forall t items, fetchCache scene_abc !! t = Some items -> items = []).
    { clear. intros t items. unfold scene_abc.
      repeat (let H := fresh in intros H; apply tag_spec in H as [H| ->]; [revert H|done]).
      simpl. by rewrite lookup_empty. }
    rewrite (Hall t items Hi) in Hr. by apply elem_of_nil in Hr. }
  assert (Hin : forall t, t ∈ ["a"; "b"; "c"]%string -> is_Some (fetchCache scene_abc !! t)).
  { intros t Ht. repeat (apply elem_of_cons in Ht as [->|Ht]); try (eexists; vm_compute; reflexivity).
    by apply elem_of_nil in Ht. }
  assert (H2 : lookupsOk scene_overlapping_lookups scene_abc).
  { intros a ta Ha Hta. unfold scene_overlapping_lookups in Ha.
    repeat (apply elem_of_cons in Ha as [->|Ha]); try (by apply elem_of_nil in Ha);
      simpl in Hta; try discriminate; injection Hta as <-;
      repeat constructor; apply Hin; set_solver. }
  assert (H3 : overlapping scene_overlapping_lookups).
  { intros a b ta tb Ha Hb Hta Htb. exists "b"%string.
    unfold scene_overlapping_lookups in Ha, Hb.
    repeat (apply elem_of_cons in Ha as [->|Ha]); try (by apply elem_of_nil in Ha);
      simpl in Hta; try discriminate; injection Hta as <-;
      (repeat (apply elem_of_cons in Hb as [->|Hb]); try (by apply elem_of_nil in Hb);
       simpl in Htb; try discriminate; injection Htb as <-; set_solver). }
  split; [exact H1|]. split; [exact H2|]. split; [exact H3|].
  destruct (overlapping_lookups_call_transport_at_most_once (Url "/x") None 0
              scene_overlapping_lookups scene_abc H1 H2 H3) as (w' & Hrun & Hcalls).
  exists w'. split; [exact Hrun|].
  assert (Hw : run (map (lookupEvent (Url "/x") None 0) scene_overlapping_lookups) scene_abc
               = Ok w') by exact Hrun.
  vm_compute in Hw. injection Hw as <-. reflexivity.
Defined.

(** X27. A success with a non-nullish value is stored and replayed: every
    synchronous lookup that finds the item returns the value, every
    asynchronous one resolves with it, and the lookups leave the world as
    it is. *)
Theorem success_is_stored_and_replayed input opts tags w r it tr data :
  tagsOk tags w ->
  findFetchItem input opts tags w = Ok (Some r) ->
  heap w !! r = Some it ->
  FetchCacheItem.fetch it = Pending ->
  nullish (FetchCacheItem.error it) = true ->
  FetchCacheItem.decode tr = Returns data ->
  nullish data = false ->
  calls (settle r tr w) = calls w /\
  (forall lifespan,
     fetch input opts lifespan tags (settle r tr w) = Ok (Return data, settle r tr w)) /\
  (forall lifespan,
     nonReactFetch input opts lifespan tags (settle r tr w) = Ok (r, settle r tr w)) /\
  awaited (settle r tr w) r = Resolves data /\
  (forall lifespan n,
     run (replicate n (Fetch input opts lifespan tags)) (settle r tr w)
     = Ok (settle r tr w)).
Proof.
  intros Hok Hfind Hit Hp Herr Hdec Hnn.
  set (w' := settle r tr w).
  assert (Hit' : heap w' !! r = Some (FetchCacheItem.generateFetch tr it)).
  { unfold w'. rewrite settle_heap, Hit. simpl. by rewrite bool_decide_eq_true_2, Hp. }
  assert (Hgf : FetchCacheItem.generateFetch tr it
                = FetchCacheItem.mk (FetchCacheItem.error it) data (FetchCacheItem.lifespan it)
                    (FetchCacheItem.expired it) Fulfilled (FetchCacheItem.input it)
                    (FetchCacheItem.opts it)).
  { unfold FetchCacheItem.generateFetch. by rewrite Hdec. }
  destruct (settle_frame r tr w) as (Hc & _ & Hcalls & _).
  assert (Hok' : tagsOk tags w') by (by eapply tagsOk_same_cache).
  assert (Hf' : find (liveMatch (FetchCacheItem.argsEqual input opts) w') (entries tags w')
                = Some r).
  { unfold findFetchItem in Hfind. rewrite (findWith_entries _ _ _ Hok) in Hfind.
    injection Hfind as Hfind. rewrite (entries_same_cache tags w w' Hc).
    rewrite <- Hfind. apply find_ext_in. intros x _. apply settle_liveMatch_args. }
  assert (Hfetch : forall lifespan,
            fetch input opts lifespan tags w' = Ok (Return data, w')).
  { intros lifespan.
    destruct (fetch_hit input opts lifespan tags w' r Hok' Hf') as (it2 & Hit2 & _ & _ & ->).
    rewrite Hit' in Hit2. injection Hit2 as <-. unfold peek. rewrite Hgf. simpl.
    by rewrite Herr, Hnn. }
  split; [done|]. split; [done|]. split; [|split].
  - intros lifespan. by apply nonReactFetch_hit.
  - unfold awaited. rewrite Hit', Hgf. unfold FetchCacheItem.getPromise. simpl.
    by rewrite Herr.
  - intros lifespan n. induction n as [|n IH]; simpl; [done|]. by rewrite Hfetch.
Qed.

Definition textHello : Completion Response :=
  Returns {| contentType := Some "text/plain"%string;
             json := Throws (JObj 0);
             text := Returns "hello"%string |}.

Lemma success_is_stored_and_replayed_witness :
  tagsOk scene_tags scene_one_fetch /\
  fetch (Url "/x") None 0 scene_tags (settle 0 textHello scene_one_fetch)
    = Ok (Return (JStr "hello"), settle 0 textHello scene_one_fetch).
Proof.
  assert (H1 : tagsOk scene_tags scene_one_fetch).
  { repeat constructor; eexists; vm_compute; reflexivity. }
  assert (H2 : findFetchItem (Url "/x") None scene_tags scene_one_fetch = Ok (Some 0))
    by (vm_compute; reflexivity).
  assert (H3 : heap scene_one_fetch !! 0 = Some (FetchCacheItem.init (Url "/x") None 0))
    by (vm_compute; reflexivity).
  split; [exact H1|].
  destruct (success_is_stored_and_replayed (Url "/x") None scene_tags scene_one_fetch 0
              (FetchCacheItem.init (Url "/x") None 0) textHello (JStr "hello")
              H1 H2 H3 eq_refl eq_refl eq_refl eq_refl) as (_ & Hfetch & _).
  apply Hfetch.
Defined.

(** Instances tagged a with b, and b with c; /x is looked up through the
    first, its fetch succeeds with the JSON value [null], and it is then
    looked up through the second. *)
Definition scene_overlap_null : World :=
  match run [Construct ["a"; "b"]%string; Construct ["b"; "c"]%string;
             Fetch (Url "/x") None 0 ["a"; "b"]%string;
             Settle 0 jsonNull] emptyWorld with
  | Ok w => w
  | _ => emptyWorld
  end.

(** C4 at the failing input.  One transport call was made and it completed
    successfully with the value [null]; the later asynchronous lookup
    through the overlapping tag set resolves with [null], but the later
    synchronous lookup does not return it: it throws the promise of the
    item.  No second transport call is made. *)
Theorem sync_lookup_after_null_success_does_not_return_value :
  calls scene_overlap_null = [(Url "/x", None)] /\
  FetchCacheItem.decode jsonNull = Returns JNull /\
  awaited scene_overlap_null 0 = Resolves JNull /\
  nonReactFetch (Url "/x") None 0 ["b"; "c"]%string scene_overlap_null
    = Ok (0, scene_overlap_null) /\
  fetch (Url "/x") None 0 ["b"; "c"]%string scene_overlap_null
    = Ok (ThrowPromise 0, scene_overlap_null) /\
  fetch (Url "/x") None 0 ["b"; "c"]%string scene_overlap_null
    <> Ok (Return JNull, scene_overlap_null).
Proof. repeat split; try (vm_compute; reflexivity). vm_compute. discriminate. Qed.

(** ** Construction, lifespan and the clock *)

Lemma foldl_setExpiredAt_heap (tms : list (Z * ref)) w x :
  heap (foldl (fun acc tm => setExpiredAt (snd tm) acc) w tms) !! x =
  (fun it => if bool_decide (x ∈ map snd tms) then FetchCacheItem.setExpired it else it)
    <$> heap w !! x.
Proof.
  revert w. induction tms as [|tm tms IH]; intros w; simpl.
  - by destruct (heap w !! x).
  - rewrite IH, setExpiredAt_heap. destruct (heap w !! x) as [it|]; simpl; [|done].
    f_equal. destruct (decide (x = snd tm)) as [->|Hne].
    + rewrite (bool_decide_eq_true_2 (snd tm = snd tm)) by done.
      rewrite (bool_decide_eq_true_2 (snd tm ∈ snd tm :: map snd tms)) by constructor.
      by destruct (bool_decide _).
    + rewrite (bool_decide_eq_false_2 (x = snd tm)) by done.
      destruct (decide (x ∈ map snd tms)).
      * rewrite !bool_decide_eq_true_2; [done|by constructor|done].
      * rewrite !bool_decide_eq_false_2; [done| |done].
        intros H. apply elem_of_cons in H as [H|H]; done.
Qed.

(** After the event loop ran for [dt], an item is expired when it was, or
    when one of its timers was due. *)
Lemma advance_heap dt w x :
  heap (advance dt w) !! x =
  (fun it => if bool_decide (x ∈ map snd (List.filter (due (now w + Z.of_N dt)) (timers w)))
             then FetchCacheItem.setExpired it else it)
    <$> heap w !! x.
Proof. unfold advance, fireTimers. simpl. by rewrite foldl_setExpiredAt_heap. Qed.

(** No timer refers to an item that is not constructed yet. *)
Definition timersOk (w : World) : Prop :=
  forall tm, tm ∈ timers w -> snd tm < length (heap w).

Lemma find_only {A : Type} (f : A -> bool) (l : list A) (r : A) :
  (forall x, x ∈ l -> f x = true -> x = r) -> r ∈ l -> f r = true -> find f l = Some r.
Proof.
  intros Honly Hin Hr. destruct (find f l) as [x|] eqn:E.
  - apply find_some_iff in E as [Hx Hfx]. f_equal. by apply Honly.
  - rewrite (proj1 (find_none_iff f l) E r Hin) in Hr. done.
Qed.





(** The flat-list design schedules differently: [fetch('/a', undefined,
    1000)] sets no timer when the object is created; the removal is
    scheduled, 1000 ms ahead, when the promise chain completes, so an
    object whose fetch takes 5000 ms is served until 6000 ms after its
    creation. *)
Example flat_lifespan_counts_from_settlement :
  let s1 := snd (FlatFetchSuspense.fetch (Url "/a") None 1000 FlatFetchSuspense.emptyState) in
  let s2 := FlatFetchSuspense.settle 0 textHello (FlatFetchSuspense.advance 5000 s1) in
  FlatFetchSuspense.calls s1 = [(Url "/a", None)] /\
  FlatFetchSuspense.timers s1 = [] /\
  FlatFetchSuspense.timers s2 = [(6000%Z, 0)] /\
  fst (FlatFetchSuspense.fetch (Url "/a") None 1000 (FlatFetchSuspense.advance 999 s2))
    = FlatFetchSuspense.Return (JStr "hello") /\
  fst (FlatFetchSuspense.fetch (Url "/a") None 1000 (FlatFetchSuspense.advance 1000 s2))
    = FlatFetchSuspense.ThrowPromise 1.
Proof. repeat split; vm_compute; reflexivity. Qed.

(** ** Reachable worlds *)

Lemma created_timersOk input opts lifespan tags w w' :
  created input opts lifespan tags w w' -> timersOk w -> timersOk w'.
Proof.
  intros (Hh & _ & Ht & _) Htm tm. rewrite Ht, Hh, length_app. simpl.
  destruct (FetchCacheItem.startsTimer lifespan).
  - intros H. apply elem_of_app in H as [H|H].
    + specialize (Htm tm H). lia.
    + apply list_elem_of_singleton in H as ->. simpl. lia.
  - intros H. specialize (Htm tm H). lia.
Qed.

Lemma step_timersOk e w w' : step e w = Ok w' -> timersOk w -> timersOk w'.
Proof.
  intros Hs Htm. destruct e; simpl in Hs.
  - injection Hs as <-. destruct (tag_spec tags w) as (Hh & _ & Ht & _).
    intros tm. rewrite Hh, Ht. apply Htm.
  - destruct (fetch input opts lifespan tags w) as [[s w1]| |] eqn:Hf; simpl in Hs; try done.
    injection Hs as <-. apply fetch_cases in Hf as [->|[_ Hcr]]; [done|].
    by eapply created_timersOk.
  - destruct (nonReactFetch input opts lifespan tags w) as [[s w1]| |] eqn:Hf;
      simpl in Hs; try done.
    injection Hs as <-. apply nonReactFetch_cases in Hf as [->|[_ Hcr]]; [done|].
    by eapply created_timersOk.
  - pose proof (expiryOnly_length _ _ (forceExpireWith_expiryOnly _ _ _ _ Hs)).
    apply forceExpireWith_frame in Hs as (_ & _ & Ht & _).
    intros tm. rewrite Ht. intros H'. specialize (Htm tm H'). lia.
  - pose proof (expiryOnly_length _ _ (forceExpireWith_expiryOnly _ _ _ _ Hs)).
    apply forceExpireWith_frame in Hs as (_ & _ & Ht & _).
    intros tm. rewrite Ht. intros H'. specialize (Htm tm H'). lia.
  - injection Hs as <-. done.
  - injection Hs as <-. destruct (settle_frame r tr w) as (_ & _ & _ & Ht & _).
    intros tm. rewrite Ht. intros H'. specialize (Htm tm H').
    unfold settle. destruct (heap w !! r) as [it|]; [|done].
    destruct (FetchCacheItem.fetch it); simpl; try done. by rewrite length_insert.
  - injection Hs as <-.
    pose proof (expiryOnly_length _ _ (advance_expiryOnly dt w)).
    intros tm H'. unfold advance, fireTimers in H'. simpl in H'.
    apply elem_of_filter_bool in H'. specialize (Htm tm H'). lia.
Qed.

(** Every instance has an array for each of its tags. *)
Definition instancesOk (w : World) : Prop :=
  forall ts, ts ∈ instances w -> tagsOk ts w.

Lemma step_tags_stay e w w' :
  step e w = Ok w' ->
  forall t, is_Some (fetchCache w !! t) -> is_Some (fetchCache w' !! t).
Proof.
  intros Hs t [items Hi]. destruct e; simpl in Hs.
  - injection Hs as <-. destruct (tag_spec tags w) as (_ & _ & _ & _ & _ & Hl & _).
    rewrite (Hl t items Hi). by eexists.
  - destruct (fetch input opts lifespan tags w) as [[s w1]| |] eqn:Hf; simpl in Hs; try done.
    injection Hs as <-. apply fetch_cases in Hf as [->|[_ Hcr]]; [by eexists|].
    destruct Hcr as (_ & _ & _ & _ & _ & _ & Hl). rewrite Hl, Hi. by eexists.
  - destruct (nonReactFetch input opts lifespan tags w) as [[s w1]| |] eqn:Hf;
      simpl in Hs; try done.
    injection Hs as <-. apply nonReactFetch_cases in Hf as [->|[_ Hcr]]; [by eexists|].
    destruct Hcr as (_ & _ & _ & _ & _ & _ & Hl). rewrite Hl, Hi. by eexists.
  - apply forceExpireWith_frame in Hs as (_ & _ & _ & _ & _ & Hd). apply Hd. by eexists.
  - apply forceExpireWith_frame in Hs as (_ & _ & _ & _ & _ & Hd). apply Hd. by eexists.
  - injection Hs as <-. simpl. rewrite wipeTags_lookup, Hi. by destruct (bool_decide _).
  - injection Hs as <-. destruct (settle_frame r tr w) as (-> & _). by eexists.
  - injection Hs as <-. destruct (advance_frame dt w) as (-> & _). by eexists.
Qed.

Lemma step_instances e w w' :
  step e w = Ok w' ->
  instances w' = instances w \/
  exists tags, e = Construct tags /\ instances w' = instances w ++ [tags] /\ tagsOk tags w'.
Proof.
  intros Hs. destruct e; simpl in Hs.
  - injection Hs as <-. unfold tag. destruct (list_find _ _) as [[i ts]|]; simpl; [by left|].
    right. exists tags. repeat split. apply Forall_forall. intros t Ht. simpl.
    rewrite ensureTag_lookup. destruct (fetchCache w !! t); [by eexists|].
    rewrite bool_decide_eq_true_2 by done. by eexists.
  - destruct (fetch input opts lifespan tags w) as [[s w1]| |] eqn:Hf; simpl in Hs; try done.
    injection Hs as <-. apply fetch_cases in Hf as [->|[_ Hcr]]; left; [done|apply Hcr].
  - destruct (nonReactFetch input opts lifespan tags w) as [[s w1]| |] eqn:Hf;
      simpl in Hs; try done.
    injection Hs as <-. apply nonReactFetch_cases in Hf as [->|[_ Hcr]]; left; [done|apply Hcr].
  - left. by apply forceExpireWith_frame in Hs as (? & _).
  - left. by apply forceExpireWith_frame in Hs as (? & _).
  - injection Hs as <-. by left.
  - injection Hs as <-. left. apply settle_frame.
  - injection Hs as <-. left. apply advance_frame.
Qed.

Lemma step_instancesOk e w w' : step e w = Ok w' -> instancesOk w -> instancesOk w'.
Proof.
  intros Hs Hin ts Hts.
  assert (Hold : ts ∈ instances w -> tagsOk ts w').
  { intros H. eapply Forall_impl; [exact (Hin ts H)|]. simpl. by apply (step_tags_stay e). }
  destruct (step_instances e w w' Hs) as [Heq|(tags & _ & Heq & Hok)]; rewrite Heq in Hts.
  - by apply Hold.
  - apply elem_of_app in Hts as [Hts|Hts]; [by apply Hold|].
    by apply list_elem_of_singleton in Hts as ->.
Qed.

(** Every world reached from the empty one is well formed, and so are its
    timers and its instances: every method of every instance completes
    its searches without a [TypeError]. *)
Lemma reachable_wf es w :
  run es emptyWorld = Ok w -> wfWorld w /\ timersOk w /\ instancesOk w.
Proof.
  assert (Hgen : forall w0, wfWorld w0 -> timersOk w0 -> instancesOk w0 ->
            run es w0 = Ok w -> wfWorld w /\ timersOk w /\ instancesOk w).
  { induction es as [|e es IH]; intros w0 Hwf Htm Hin; simpl.
    - by intros [= <-].
    - destruct (step e w0) as [w1| |] eqn:Hs; simpl; try done.
      apply IH; [by eapply step_wf|by eapply step_timersOk|by eapply step_instancesOk]. }
  apply Hgen; [apply wfWorld_empty| |].
  - intros tm H. by apply elem_of_nil in H.
  - intros ts H. by apply elem_of_nil in H.
Qed.

(** * Further properties of the code *)

(** ** Instances *)




Lemma hasOneOfTheseTags_sym a b : hasOneOfTheseTags a b = hasOneOfTheseTags b a.
Proof.
  destruct (hasOneOfTheseTags a b) eqn:E1, (hasOneOfTheseTags b a) eqn:E2; try done.
  - apply hasOneOfTheseTags_true in E1 as (t & ? & ?).
    assert (hasOneOfTheseTags b a = true) by (apply hasOneOfTheseTags_true; eauto).
    congruence.
  - apply hasOneOfTheseTags_true in E2 as (t & ? & ?).
    assert (hasOneOfTheseTags a b = true) by (apply hasOneOfTheseTags_true; eauto).
    congruence.
Qed.

(** X2. One invalidation emits to an instance at most once, however many
    tags it shares with the caller and however often a tag is repeated,
    and emits in the order the instances were constructed.  Sharing a tag
    is symmetric, so two instances notify each other or neither does; an
    instance without tags is never notified and notifies nobody, while the
    caller itself is notified whenever it has a tag. *)
Theorem invalidation_emits_once_per_sharing_instance tags w :
  emitted (wipeCache tags w) = emitted w ++ notified tags w /\
  NoDup (notified tags w) /\
  (forall i j a b, notified tags w !! a = Some i -> notified tags w !! b = Some j ->
     a < b -> i < j) /\
  (forall i ti j tj, instances w !! i = Some ti -> instances w !! j = Some tj ->
     (i ∈ notified tj w <-> j ∈ notified ti w)) /\
  notified [] w = [] /\
  (forall i, instances w !! i = Some [] -> i ∉ notified tags w) /\
  (forall i, instances w !! i = Some tags -> tags <> [] -> i ∈ notified tags w).
Proof.
  split; [done|]. split; [|split; [|split; [|split; [|split]]]].
  - unfold notified. apply NoDup_ListNoDup, List.NoDup_filter, List.seq_NoDup.
  - unfold notified. generalize (length (instances w)). intros n.
    generalize 0 as start. induction n as [|n IH]; intros start i j a b; simpl.
    + by rewrite lookup_nil.
    + destruct (match instances w !! start with Some its => _ | None => _ end).
      * destruct a as [|a], b as [|b]; simpl; try lia.
        -- intros [= <-] Hj _.
           assert (Hin : j ∈ List.filter
                     (fun i => match instances w !! i with
                               | Some its => hasOneOfTheseTags its tags
                               | None => false
                               end) (seq (S start) n)) by (by eapply list_elem_of_lookup_2).
           apply elem_of_filter_bool in Hin. apply elem_of_seq in Hin. lia.
        -- intros Ha Hb Hlt. apply (IH (S start) i j a b Ha Hb). lia.
      * apply IH.
  - intros i ti j tj Hi Hj. rewrite !elem_of_notified. split.
    + intros (its & Hits & t & H1 & H2). exists tj. split; [done|].
      assert (its = ti) as -> by congruence. eauto.
    + intros (its & Hits & t & H1 & H2). exists ti. split; [done|].
      assert (its = tj) as -> by congruence. eauto.
  - unfold notified.
    assert (H : forall l, List.filter
              (fun i => match instances w !! i with
                        | Some its => hasOneOfTheseTags its []
                        | None => false
                        end) l = []).
    { induction l as [|x l IH]; simpl; [done|].
      destruct (instances w !! x) as [its|]; [|done].
      rewrite hasOneOfTheseTags_sym. simpl. done. }
    apply H.
  - intros i Hi Hin. apply elem_of_notified in Hin as (its & Hits & t & Ht & _).
    assert (its = []) as -> by congruence. by apply elem_of_nil in Ht.
  - intros i Hi Hne. apply elem_of_notified. exists tags. split; [done|].
    destruct tags as [|t rest]; [done|]. exists t. split; constructor.
Qed.

(** X3. The synchronous and the asynchronous lookup treat the cache alike:
    for every world [nonReactFetch] and [fetch] either both raise, or use
    the same item and leave the same world, [fetch] answering with the
    three-way reading of the fields of the item whose [getPromise()]
    [nonReactFetch] returns.  On a hit neither changes anything, so the
    lifespan passed with a lookup that hits is ignored. *)
Theorem sync_and_async_lookups_use_the_same_item input opts lifespan tags w :
  match nonReactFetch input opts lifespan tags w with
  | Ok (r, w') =>
      (exists it, heap w' !! r = Some it /\
         fetch input opts lifespan tags w = Ok (peek r it, w')) /\
      (findFetchItem input opts tags w = Ok (Some r) ->
       w' = w /\
       forall lifespan', nonReactFetch input opts lifespan' tags w = Ok (r, w))
  | TypeError => fetch input opts lifespan tags w = TypeError
  | OutOfFuel => False
  end.
Proof.
  unfold nonReactFetch, fetch, findFetchItem.
  destruct (findWith _ tags w) as [[r|]| |] eqn:Hf; simpl; try done.
  - assert (Hlive : liveMatch (FetchCacheItem.argsEqual input opts) w r = true).
    { clear -Hf. revert Hf. induction tags as [|t rest IH]; simpl; [done|].
      destruct (fetchCache w !! t) as [items|]; [|done].
      destruct (find _ items) as [x|] eqn:Hx; [|done].
      intros [= ->]. by apply find_some_iff in Hx as [_ ?]. }
    apply liveMatch_true in Hlive as (it & Hit & _). split; [|done].
    exists it. rewrite Hit. split; [done|]. unfold peek.
    destruct (negb (nullish (FetchCacheItem.error it))); [done|].
    by destruct (negb (nullish (FetchCacheItem.response it))).
  - pose proof (findWith_ok_tagsOk_first _ _ _ _ Hf eq_refl) as Hok.
    destruct (register_spec tags (length (heap w))
                (snd (newFetchCacheItem input opts lifespan w)))
      as (w' & Hr & Hh & _); [by eapply tagsOk_same_cache|].
    simpl in Hr. rewrite Hr. simpl. split; [|done].
    exists (FetchCacheItem.init input opts lifespan). split; [|reflexivity].
    rewrite Hh. simpl. by rewrite lookup_app_r, Nat.sub_diag.
  - clear -Hf. revert Hf. induction tags as [|t rest IH]; simpl; [done|].
    destruct (fetchCache w !! t) as [items|]; [|done]. by destruct (find _ items).
Qed.

(** ** Queries and invalidation by URL *)

(** The URL of a request input: the string itself, or the [url] of a
    [Request]. *)
Definition urlOf (input : RequestInfo) : string :=
  match input with
  | Url s => s
  | Request u _ => u
  end.

Lemma urlEqual_urlOf url it :
  FetchCacheItem.urlEqual url it = true <-> urlOf (FetchCacheItem.input it) = url.
Proof.
  unfold FetchCacheItem.urlEqual, urlOf.
  destruct (FetchCacheItem.input it); apply bool_decide_eq_true.
Qed.





(** The effect of a [forceExpire] whose search uses [Q], for any [Q] that
    reads the request of an item only. *)
Lemma forceExpireWith_exact Q tags w :
  (forall it, Q (FetchCacheItem.setExpired it) = Q it) ->
  tagsOk tags w ->
  exists w', forceExpireWith (findWith Q tags) tags w = Ok w' /\
    heap w' = markExpired (selected Q tags w) (heap w) /\
    calls w' = calls w /\ timers w' = timers w /\ instances w' = instances w /\
    (forall tags' r, visible tags' w' r <->
       visible tags' w r /\ selected Q tags w r = false).
Proof.
  intros HQ Hok. destruct (find (liveMatch Q w) (entries tags w)) as [r0|] eqn:Hf.
  - destruct (forceExpireWith_hit Q tags w r0 Hok Hf)
      as (w' & Hfe & Hh & Hi & Hc & Ht & _ & _ & Hl).
    exists w'. do 5 (split; [done|]).
    intros tags' r. unfold visible. rewrite !elem_of_entries. split.
    + intros ((t & items' & Ht' & Hi' & Hr) & it' & Hit' & Hex').
      rewrite Hh in Hit'. unfold markExpired in Hit'. rewrite list_lookup_imap in Hit'.
      destruct (heap w !! r) as [it|] eqn:Hit; simpl in Hit'; [|done].
      injection Hit' as <-. destruct (selected Q tags w r) eqn:Es; [done|].
      split; [|done]. split; [|eauto].
      rewrite Hl in Hi'. destruct (bool_decide (t ∈ tags)); [|eauto].
      destruct (fetchCache w !! t) as [items|] eqn:Hit0; simpl in Hi'; [|done].
      injection Hi' as <-. apply elem_of_filter_bool in Hr. eauto.
    + intros (((t & items & Ht' & Hi0 & Hr) & it & Hit & Hex) & Es).
      assert (Hit' : heap w' !! r = Some it).
      { rewrite Hh. unfold markExpired. by rewrite list_lookup_imap, Hit, Es. }
      split; [|eauto]. exists t. rewrite Hl, Hi0. simpl.
      destruct (bool_decide (t ∈ tags)); [|eauto].
      eexists. split; [done|]. split; [done|].
      apply elem_of_filter_bool_iff. split; [done|].
      unfold expiredAt, FetchCacheItem.isExpired. by rewrite Hit', Hex.
  - assert (Hnone : forall r, selected Q tags w r = false).
    { intros r. unfold selected. destruct (decide (r ∈ entries tags w)) as [Hin|Hnin].
      - by rewrite (proj1 (find_none_iff _ _) Hf r Hin), andb_false_r.
      - by rewrite bool_decide_eq_false_2. }
    exists w. split; [by apply forceExpireWith_miss|].
    split; [by rewrite markExpired_none|]. do 3 (split; [done|]).
    intros tags' r. rewrite Hnone. tauto.
Qed.

(** X5. [forceExpireURL] expires exactly the items that a scan of the
    caller's tags meets, that are not expired yet and whose URL is the one
    given, whether the input is the URL string or a [Request] with that
    [url], and whatever their options.  Every other item keeps all its
    fields; no transport call is made and no timer is touched; and from
    any tag set the items visible afterwards are those visible before
    minus the expired ones. *)
Theorem forceExpireURL_expires_exactly_the_url url tags w :
  tagsOk tags w ->
  exists w', forceExpireURL url tags w = Ok w' /\
    (forall r it, heap w !! r = Some it ->
       heap w' !! r =
       Some (if bool_decide (r ∈ entries tags w)
                && bool_decide (urlOf (FetchCacheItem.input it) = url)
                && negb (FetchCacheItem.expired it)
             then FetchCacheItem.setExpired it else it)) /\
    length (heap w') = length (heap w) /\
    calls w' = calls w /\ timers w' = timers w /\
    (forall tags' r, visible tags' w' r <->
       visible tags' w r /\
       ~ (r ∈ entries tags w /\
          exists it, heap w !! r = Some it /\ urlOf (FetchCacheItem.input it) = url)).
Proof.
  intros Hok.
  destruct (forceExpireWith_exact (FetchCacheItem.urlEqual url) tags w
              (urlEqual_setExpired url) Hok) as (w' & Hfe & Hh & Hc & Ht & _ & Hv).
  assert (Hsel : forall r it, heap w !! r = Some it ->
            selected (FetchCacheItem.urlEqual url) tags w r
            = bool_decide (r ∈ entries tags w)
              && bool_decide (urlOf (FetchCacheItem.input it) = url)
              && negb (FetchCacheItem.expired it)).
  { intros r it Hit. unfold selected, liveMatch. rewrite Hit.
    unfold FetchCacheItem.isExpired. rewrite andb_assoc. do 2 f_equal.
    destruct (FetchCacheItem.urlEqual url it) eqn:E.
    - symmetry. apply bool_decide_eq_true. by apply urlEqual_urlOf.
    - symmetry. apply bool_decide_eq_false. intros H.
      apply (proj2 (urlEqual_urlOf _ _)) in H. congruence. }
  exists w'. split; [done|]. split; [|split; [|split; [done|split; [done|]]]].
  - intros r it Hit. rewrite Hh. unfold markExpired. rewrite list_lookup_imap, Hit. simpl.
    by rewrite (Hsel r it Hit).
  - rewrite Hh. unfold markExpired. apply length_imap.
  - intros tags' r. rewrite Hv. split.
    + intros [Hvis Hs]. split; [done|]. intros (Hin & it & Hit & Hu).
      destruct Hvis as (_ & it0 & Hit0 & Hex). assert (it0 = it) as -> by congruence.
      rewrite (Hsel r it Hit), bool_decide_eq_true_2, bool_decide_eq_true_2, Hex in Hs by done.
      done.
    + intros [Hvis Hn]. split; [done|].
      destruct Hvis as (_ & it & Hit & Hex). rewrite (Hsel r it Hit).
      destruct (decide (r ∈ entries tags w)) as [Hin|Hnin];
        [|by rewrite bool_decide_eq_false_2].
      destruct (decide (urlOf (FetchCacheItem.input it) = url)) as [Hu|Hnu].
      * exfalso. apply Hn. eauto.
      * by rewrite (bool_decide_eq_false_2 _ Hnu), andb_false_r.
Qed.

(** Instances tagged a and b; /x is fetched through a with GET and with
    POST options, through b as a [Request], and /y through a. *)
Definition scene_urls : World :=
  match run [Construct ["a"%string]; Construct ["b"%string];
             Fetch (Url "/x") optsGET 0 ["a"%string];
             Fetch (Url "/x") optsPOST 0 ["a"%string];
             Fetch (Request "/x" ∅) None 0 ["b"%string];
             Fetch (Url "/y") None 0 ["a"%string]] emptyWorld with
  | Ok w => w
  | _ => emptyWorld
  end.

Lemma forceExpireURL_expires_exactly_the_url_witness :
  tagsOk ["a"; "b"]%string scene_urls /\
  exists w', forceExpireURL "/x" ["a"; "b"]%string scene_urls = Ok w' /\
    map FetchCacheItem.expired (heap w') = [true; true; true; false] /\
    fetchCache w' !! "a"%string = Some [3] /\
    fetchCache w' !! "b"%string = Some [].
Proof.
  assert (H : tagsOk ["a"; "b"]%string scene_urls).
  { repeat constructor; eexists; vm_compute; reflexivity. }
  split; [exact H|].
  destruct (forceExpireURL_expires_exactly_the_url "/x" ["a"; "b"]%string scene_urls H)
    as (w' & Hfe & _).
  exists w'. split; [exact Hfe|].
  vm_compute in Hfe. injection Hfe as <-. repeat split; reflexivity.
Defined.





(** ** Wiping *)

Lemma findWith_wiped P tags tags' w :
  tags' ⊆ tags -> findWith P tags' (wipeCache tags w) = Ok None.
Proof.
  induction tags' as [|t rest IH]; intros Hsub; simpl; [done|].
  rewrite wipeTags_lookup, bool_decide_eq_true_2 by (apply Hsub; constructor). simpl.
  apply IH. intros x Hx. apply Hsub. by constructor.
Qed.

Lemma findWith_not_wiped P tags tags' w :
  (forall t, t ∈ tags' -> t ∉ tags) ->
  findWith P tags' (wipeCache tags w) = findWith P tags' w.
Proof.
  induction tags' as [|t rest IH]; intros Hdis; simpl; [done|].
  rewrite wipeTags_lookup, bool_decide_eq_false_2 by (apply Hdis; constructor).
  destruct (fetchCache w !! t) as [items|]; [|done].
  assert (find (liveMatch P (wipeCache tags w)) items = find (liveMatch P w) items) as ->.
  { apply find_ext_in. intros x _. by apply liveMatch_ext. }
  destruct (find _ items); [done|]. apply IH. intros x Hx. apply Hdis. by constructor.
Qed.

(** X7. [wipeCache] works per tag and never fails, also for a tag that has
    no array yet.  It empties the arrays of the caller's tags and nothing
    else: no item is expired or altered, no transport call or timer is
    added or removed.  Afterwards every search scoped to wiped tags finds
    nothing, so the next lookup there constructs a new item, while a
    search scoped to other tags finds exactly what it found before: an item
    that is also registered under a tag that was not wiped is still served
    there. *)
Theorem wipeCache_empties_the_tags_and_nothing_else tags w :
  heap (wipeCache tags w) = heap w /\
  calls (wipeCache tags w) = calls w /\
  timers (wipeCache tags w) = timers w /\
  instances (wipeCache tags w) = instances w /\
  tagsOk tags (wipeCache tags w) /\
  (forall url, uriIsInCache url tags (wipeCache tags w) = Ok false) /\
  (forall input opts lifespan tags', tags' ⊆ tags ->
     findFetchItem input opts tags' (wipeCache tags w) = Ok None /\
     exists w', fetch input opts lifespan tags' (wipeCache tags w)
                = Ok (ThrowPromise (length (heap w)), w') /\
       calls w' = calls w ++ [(input, opts)]) /\
  (forall input opts lifespan url tags', (forall t, t ∈ tags' -> t ∉ tags) ->
     findFetchItem input opts tags' (wipeCache tags w) = findFetchItem input opts tags' w /\
     findFetchURL url tags' (wipeCache tags w) = findFetchURL url tags' w /\
     forall r, findFetchItem input opts tags' w = Ok (Some r) ->
       fetch input opts lifespan tags' (wipeCache tags w)
       = match fetch input opts lifespan tags' w with
         | Ok (s, _) => Ok (s, wipeCache tags w)
         | other => other
         end).
Proof.
  do 4 (split; [done|]).
  assert (Hok : forall tags', tags' ⊆ tags -> tagsOk tags' (wipeCache tags w)).
  { intros tags' Hsub. apply Forall_forall. intros t Ht. simpl.
    rewrite wipeTags_lookup, bool_decide_eq_true_2 by auto. by eexists. }
  split; [by apply Hok|]. split; [|split].
  - intros url. unfold uriIsInCache, findFetchURL. by rewrite findWith_wiped.
  - intros input opts lifespan tags' Hsub.
    pose proof (findWith_wiped (FetchCacheItem.argsEqual input opts) tags tags' w Hsub) as Hf.
    split; [done|].
    rewrite (findWith_entries _ _ _ (Hok tags' Hsub)) in Hf. injection Hf as Hf.
    destruct (fetch_miss input opts lifespan tags' _ (Hok tags' Hsub) Hf)
      as (w' & Hfe & _ & Hc & _).
    exists w'. split; [exact Hfe|exact Hc].
  - intros input opts lifespan url tags' Hdis.
    pose proof (findWith_not_wiped (FetchCacheItem.argsEqual input opts) tags tags' w Hdis)
      as Hsame.
    split; [done|]. split; [by apply findWith_not_wiped|].
    intros r Hr. unfold fetch, findFetchItem in *. rewrite Hsame, Hr. simpl.
    destruct (heap w !! r) as [it|]; [|done].
    destruct (negb (nullish (FetchCacheItem.error it))); [done|].
    by destruct (negb (nullish (FetchCacheItem.response it))).
Qed.

(** ** What one event can do *)

(** A world reached from the empty one by some sequence of events. *)
Definition reachable (w : World) : Prop := exists es, run es emptyWorld = Ok w.

Lemma run_preserves (P : World -> Prop) :
  (forall e w w', P w -> step e w = Ok w' -> P w') ->
  forall es w w', P w -> run es w = Ok w' -> P w'.
Proof.
  intros Hstep es. induction es as [|e es IH]; intros w w' HP; simpl.
  - by intros [= <-].
  - destruct (step e w) as [w1| |] eqn:Hs; simpl; try done.
    apply IH. by eapply Hstep.
Qed.

Lemma reachable_invariant (P : World -> Prop) :
  P emptyWorld ->
  (forall e w w', reachable w -> P w -> step e w = Ok w' -> P w') ->
  forall w, reachable w -> P w.
Proof.
  intros Hempty Hstep w [es Hrun].
  assert (Hgen : forall es w0 w, reachable w0 /\ P w0 -> run es w0 = Ok w ->
            reachable w /\ P w).
  { apply (run_preserves (fun w => reachable w /\ P w)).
    intros e w1 w2 [[es1 Hr] HP] Hs. split; [|by eapply Hstep; [exists es1| |]].
    exists (es1 ++ [e]). clear -Hr Hs. revert Hr. generalize emptyWorld.
    induction es1 as [|e1 es1 IH]; intros w0; simpl.
    - intros [= ->]. by rewrite Hs.
    - destruct (step e1 w0) as [w3| |]; simpl; try done. apply IH. }
  apply (Hgen es emptyWorld w); [|done]. split; [by exists []|done].
Qed.

(** An event that constructs no item and settles no fetch can only expire
    items, drop references from arrays and drop timers. *)
Definition shrinks (w w' : World) : Prop :=
  expiryOnly (heap w) (heap w') /\
  length (heap w') = length (heap w) /\
  calls w' = calls w /\
  (forall tm, tm ∈ timers w' -> tm ∈ timers w) /\
  (forall t items', fetchCache w' !! t = Some items' ->
     items' = [] \/
     exists items, fetchCache w !! t = Some items /\ forall x, x ∈ items' -> x ∈ items).

Lemma shrinks_refl w : shrinks w w.
Proof.
  split; [apply expiryOnly_refl|]. repeat split; try done.
  intros t items' H. right. eauto.
Qed.

Lemma expireLoop_length fuel finder m w w' :
  expireLoop fuel finder m w = Ok w' -> length (heap w') = length (heap w).
Proof.
  revert m w. induction fuel as [|fuel IH]; intros [r|] w; simpl; try done.
  all: try (by intros [= ->]).
  destruct (finder (setExpiredAt r w)) as [next| |]; simpl; try done.
  intros H. apply IH in H. rewrite H. apply setExpiredAt_frame.
Qed.

Lemma forceExpireWith_shrinks finder tags w w' :
  forceExpireWith finder tags w = Ok w' -> shrinks w w'.
Proof.
  intros H. split; [by eapply forceExpireWith_expiryOnly|].
  pose proof (forceExpireWith_frame _ _ _ _ H) as (_ & Hc & Ht & _ & Hl & _).
  split; [|split; [done|split]].
  - revert H. unfold forceExpireWith.
    destruct (finder w) as [m| |]; simpl; try done.
    destruct (expireLoop _ finder m w) as [w1| |] eqn:Hloop; simpl; try done.
    apply expireLoop_length in Hloop. destruct m; intros H.
    + apply cleanCache_heap in H. rewrite H. done.
    + by injection H as <-.
  - intros tm. by rewrite Ht.
  - intros t items' Hi. right. by apply Hl.
Qed.

Lemma foldl_setExpiredAt_length (tms : list (Z * ref)) w :
  length (heap (foldl (fun acc tm => setExpiredAt (snd tm) acc) w tms)) = length (heap w).
Proof.
  revert w. induction tms as [|tm tms IH]; intros w; simpl; [done|].
  rewrite IH. apply setExpiredAt_frame.
Qed.

Lemma advance_shrinks dt w : shrinks w (advance dt w).
Proof.
  split; [apply advance_expiryOnly|].
  destruct (advance_frame dt w) as (Hfc & _ & Hc & _).
  split; [|split; [done|split]].
  - unfold advance, fireTimers. simpl. by rewrite foldl_setExpiredAt_length.
  - intros tm H. unfold advance, fireTimers in H. simpl in H.
    by apply elem_of_filter_bool in H.
  - intros t items' Hi. right. rewrite Hfc in Hi. eauto.
Qed.

Lemma step_cases e w w' :
  step e w = Ok w' ->
  (exists input opts lifespan tags,
     tagsOk tags w /\
     find (liveMatch (FetchCacheItem.argsEqual input opts) w) (entries tags w) = None /\
     created input opts lifespan tags w w') \/
  (shrinks w w' /\ timers w' = timers w \/ shrinks w w' /\ exists dt, e = Advance dt) \/
  (exists r tr, w' = settle r tr w).
Proof.
  intros Hs. destruct e; simpl in Hs.
  - injection Hs as <-. right. left. left.
    destruct (tag_spec tags w) as (Hh & Hc & Ht & _ & _ & _ & Hl).
    split; [|done]. split; [rewrite Hh; apply expiryOnly_refl|].
    rewrite Hh, Hc, Ht. repeat split; try done.
    intros t items' Hi. destruct (Hl t items' Hi) as [H| ->]; [right; eauto|by left].
  - destruct (fetch input opts lifespan tags w) as [[s w1]| |] eqn:Hf; simpl in Hs; try done.
    injection Hs as <-. revert Hf. unfold fetch, findFetchItem.
    destruct (findWith _ tags w) as [[r|]| |] eqn:Hfind; simpl; try done.
    + intros Hf. right. left. left.
      assert (w1 = w) as ->; [|split; [apply shrinks_refl|done]].
      destruct (heap w !! r) as [it|]; [|done].
      destruct (negb _); [by injection Hf|]. destruct (negb _); by injection Hf.
    + pose proof (findWith_ok_tagsOk_first _ _ _ _ Hfind eq_refl) as Hok.
      rewrite (findWith_entries _ _ _ Hok) in Hfind. injection Hfind as Hfind.
      destruct (fetch_miss input opts lifespan tags w Hok Hfind) as (w2 & Hfe & Hcr).
      unfold fetch, findFetchItem in Hfe. rewrite (findWith_entries _ _ _ Hok), Hfind in Hfe.
      simpl in Hfe. rewrite Hfe. intros [= _ <-]. left. eauto 10.
  - destruct (nonReactFetch input opts lifespan tags w) as [[s w1]| |] eqn:Hf;
      simpl in Hs; try done.
    injection Hs as <-. revert Hf. unfold nonReactFetch, findFetchItem.
    destruct (findWith _ tags w) as [[r|]| |] eqn:Hfind; simpl; try done.
    + intros [= _ <-]. right. left. left. split; [apply shrinks_refl|done].
    + pose proof (findWith_ok_tagsOk_first _ _ _ _ Hfind eq_refl) as Hok.
      rewrite (findWith_entries _ _ _ Hok) in Hfind. injection Hfind as Hfind.
      destruct (nonReactFetch_miss input opts lifespan tags w Hok Hfind) as (w2 & Hfe & Hcr).
      unfold nonReactFetch, findFetchItem in Hfe.
      rewrite (findWith_entries _ _ _ Hok), Hfind in Hfe.
      simpl in Hfe. rewrite Hfe. intros [= _ <-]. left. eauto 10.
  - right. left. left. split; [by eapply forceExpireWith_shrinks|].
    by apply forceExpireWith_frame in Hs as (_ & _ & ? & _).
  - right. left. left. split; [by eapply forceExpireWith_shrinks|].
    by apply forceExpireWith_frame in Hs as (_ & _ & ? & _).
  - injection Hs as <-. right. left. left. split; [|done].
    split; [apply expiryOnly_refl|]. repeat split; try done.
    intros t items'. simpl. rewrite wipeTags_lookup. destruct (bool_decide _).
    + intros [= <-]. by left.
    + intros H. right. eauto.
  - injection Hs as <-. right. right. eauto.
  - injection Hs as <-. right. left. right. split; [apply advance_shrinks|eauto].
Qed.

Lemma shrinks_back w w' r it' :
  shrinks w w' -> heap w' !! r = Some it' ->
  exists it, heap w !! r = Some it /\
    (it' = it \/ (FetchCacheItem.expired it = false /\ it' = FetchCacheItem.setExpired it)).
Proof.
  intros (Hexp & Hlen & _) Hit'.
  assert (Hlt : r < length (heap w)).
  { rewrite <- Hlen. by eapply lookup_lt_Some. }
  destruct (lookup_lt_is_Some_2 _ _ Hlt) as [it Hit]. exists it. split; [done|].
  destruct (Hexp r it Hit) as [H|[Hex H]]; rewrite H in Hit'; injection Hit' as <-; auto.
Qed.

Lemma created_back input opts lifespan tags w w' r it' :
  created input opts lifespan tags w w' -> heap w' !! r = Some it' ->
  heap w !! r = Some it' \/
  (r = length (heap w) /\ it' = FetchCacheItem.init input opts lifespan).
Proof.
  intros (Hh & _) Hit'. rewrite Hh in Hit'.
  apply lookup_app_Some in Hit' as [H|[Hge H]]; [by left|right].
  destruct (r - length (heap w)) as [|n] eqn:E; simpl in H; [|by rewrite lookup_nil in H].
  injection H as <-. split; [lia|done].
Qed.

(** ** Invariants of the items *)

(** The fields of an item agree with the state of its promise: while the
    promise is pending neither field is assigned; once it is fulfilled at
    most one of them is; the promise is never rejected. *)
Definition itemOk (it : FetchCacheItem.t) : Prop :=
  match FetchCacheItem.fetch it with
  | Pending => FetchCacheItem.error it = JUndefined /\ FetchCacheItem.response it = JUndefined
  | Fulfilled => FetchCacheItem.error it = JUndefined \/ FetchCacheItem.response it = JUndefined
  | Rejected _ => False
  end.

Lemma itemOk_setExpired it : itemOk it -> itemOk (FetchCacheItem.setExpired it).
Proof. done. Qed.

Lemma itemOk_generateFetch tr it :
  itemOk it -> FetchCacheItem.fetch it = Pending -> itemOk (FetchCacheItem.generateFetch tr it).
Proof.
  unfold itemOk, FetchCacheItem.generateFetch. intros H Hp. rewrite Hp in H.
  destruct H as [He Hr]. destruct (FetchCacheItem.decode tr); simpl; auto.
Qed.

(** The request of an item: what its transport call was made with. *)
Definition requestOf (it : FetchCacheItem.t) : RequestInfo * option RequestInit :=
  (FetchCacheItem.input it, FetchCacheItem.opts it).

Lemma settle_back r tr w x it' :
  heap (settle r tr w) !! x = Some it' ->
  exists it, heap w !! x = Some it /\
    (it' = it \/ (FetchCacheItem.fetch it = Pending /\
                  it' = FetchCacheItem.generateFetch tr it)).
Proof.
  rewrite settle_heap. destruct (heap w !! x) as [it|]; simpl; [|done].
  intros [= <-]. exists it. split; [done|].
  destruct (bool_decide (x = r)); [|by left].
  destruct (FetchCacheItem.fetch it) eqn:E; auto.
Qed.

Lemma generateFetch_request tr it :
  requestOf (FetchCacheItem.generateFetch tr it) = requestOf it /\
  FetchCacheItem.lifespan (FetchCacheItem.generateFetch tr it) = FetchCacheItem.lifespan it.
Proof. unfold FetchCacheItem.generateFetch. by destruct (FetchCacheItem.decode tr). Qed.

(** Across one event every item keeps its request and its lifespan. *)
Lemma step_keeps_requests e w w' :
  step e w = Ok w' ->
  forall r it, heap w !! r = Some it ->
    exists it', heap w' !! r = Some it' /\ requestOf it' = requestOf it /\
      FetchCacheItem.lifespan it' = FetchCacheItem.lifespan it.
Proof.
  intros Hs r it Hit.
  destruct (step_cases e w w' Hs)
    as [(i & o & l & ts & _ & _ & Hcr)|[[[Hsh _]|[Hsh _]]|(r0 & tr & ->)]].
  - exists it. split; [|done]. destruct Hcr as (-> & _). by apply lookup_app_l_Some.
  - destruct Hsh as (Hexp & _). destruct (Hexp r it Hit) as [H|[_ H]]; eauto.
  - destruct Hsh as (Hexp & _). destruct (Hexp r it Hit) as [H|[_ H]]; eauto.
  - rewrite settle_heap, Hit. simpl. eexists. split; [done|].
    destruct (bool_decide (r = r0)); [|done].
    destruct (FetchCacheItem.fetch it); try done. apply generateFetch_request.
Qed.

Lemma step_heap_length e w w' :
  step e w = Ok w' ->
  length (heap w') = length (heap w) /\ calls w' = calls w \/
  exists input opts lifespan,
    heap w' = heap w ++ [FetchCacheItem.init input opts lifespan] /\
    calls w' = calls w ++ [(input, opts)].
Proof.
  intros Hs.
  destruct (step_cases e w w' Hs)
    as [(i & o & l & ts & _ & _ & Hcr)|[[[Hsh _]|[Hsh _]]|(r0 & tr & ->)]].
  - right. exists i, o, l. split; apply Hcr.
  - left. split; apply Hsh.
  - left. split; apply Hsh.
  - left. split; [|apply settle_frame].
    unfold settle. destruct (heap w !! r0) as [it|]; [|done].
    destruct (FetchCacheItem.fetch it); simpl; try done. apply length_insert.
Qed.

(** X8. In every reachable world each item is in one of the states the
    code of [generateFetch] allows: its promise pending with [error] and
    [response] both unassigned, or fulfilled with at most one of the two
    assigned.  The promise is never rejected, and [error] and [response]
    are never both set. *)
Theorem items_settle_one_way w r it :
  reachable w ->
  heap w !! r = Some it ->
  match FetchCacheItem.fetch it with
  | Pending => FetchCacheItem.error it = JUndefined /\ FetchCacheItem.response it = JUndefined
  | Fulfilled => FetchCacheItem.error it = JUndefined \/ FetchCacheItem.response it = JUndefined
  | Rejected _ => False
  end.
Proof.
  intros Hreach. revert r it.
  change (forall r it, heap w !! r = Some it -> itemOk it).
  revert w Hreach.
  apply (reachable_invariant (fun w => forall r it, heap w !! r = Some it -> itemOk it)).
  - intros r it H. simpl in H. by rewrite lookup_nil in H.
  - intros e w w' _ IH Hs r it' Hit'.
    destruct (step_cases e w w' Hs)
      as [(i & o & l & ts & _ & _ & Hcr)|[[[Hsh _]|[Hsh _]]|(r0 & tr & ->)]].
    + destruct (created_back _ _ _ _ _ _ _ _ Hcr Hit') as [H|[_ ->]]; [by eapply IH|].
      by split.
    + destruct (shrinks_back _ _ _ _ Hsh Hit') as (it & Hit & [->|[_ ->]]);
        [|apply itemOk_setExpired]; by eapply IH.
    + destruct (shrinks_back _ _ _ _ Hsh Hit') as (it & Hit & [->|[_ ->]]);
        [|apply itemOk_setExpired]; by eapply IH.
    + destruct (settle_back _ _ _ _ _ Hit') as (it & Hit & [->|[Hp ->]]); [by eapply IH|].
      apply itemOk_generateFetch; [by eapply IH|done].
Qed.

(** A world with a settled failure, a settled success and a fetch in
    flight. *)
Definition scene_mixed_events : list Event :=
  [Construct ["a"%string];
   Fetch (Url "/x") None 0 ["a"%string];
   Fetch (Url "/y") None 500 ["a"%string];
   Fetch (Url "/z") optsPOST 0 ["a"%string];
   Settle 0 (Throws (JStr "offline"));
   Settle 1 textHello;
   Advance 100].

Definition scene_mixed : World :=
  match run scene_mixed_events emptyWorld with
  | Ok w => w
  | _ => emptyWorld
  end.

Lemma scene_mixed_reachable : reachable scene_mixed.
Proof. exists scene_mixed_events. reflexivity. Qed.

Lemma items_settle_one_way_witness :
  reachable scene_mixed /\
  heap scene_mixed !! 0 =
    Some (FetchCacheItem.mk (JStr "offline") JUndefined 0 false Fulfilled (Url "/x") None) /\
  (JStr "offline" = JUndefined \/ JUndefined = JUndefined).
Proof.
  assert (H2 : heap scene_mixed !! 0 =
    Some (FetchCacheItem.mk (JStr "offline") JUndefined 0 false Fulfilled (Url "/x") None))
    by reflexivity.
  split; [exact scene_mixed_reachable|]. split; [exact H2|].
  exact (items_settle_one_way scene_mixed 0 _ scene_mixed_reachable H2).
Defined.

(** X9. The transport is called exactly once for each item constructed,
    with the input and options of that item and in the order of
    construction; nothing else ever calls it.  In every reachable world the
    log of transport calls is the list of the requests of the items. *)
Theorem one_transport_call_per_item w :
  reachable w ->
  calls w = map requestOf (heap w).
Proof.
  revert w. apply (reachable_invariant (fun w => calls w = map requestOf (heap w))); [done|].
  intros e w w' _ IH Hs.
  destruct (step_heap_length e w w' Hs) as [[Hlen Hc]|(i & o & l & Hh & Hc)].
  - rewrite Hc, IH. apply list_eq. intros r. rewrite !list_lookup_fmap.
    destruct (heap w !! r) as [it|] eqn:Hit.
    + destruct (step_keeps_requests e w w' Hs r it Hit) as (it' & -> & Hreq & _).
      simpl. by rewrite Hreq.
    + rewrite (lookup_ge_None_2 (heap w')); [done|].
      rewrite Hlen. by apply lookup_ge_None_1.
  - rewrite Hc, Hh, IH, map_app. done.
Qed.

Lemma one_transport_call_per_item_witness :
  reachable scene_mixed /\
  calls scene_mixed = [(Url "/x", None); (Url "/y", None); (Url "/z", optsPOST)].
Proof.
  split; [exact scene_mixed_reachable|].
  rewrite (one_transport_call_per_item scene_mixed scene_mixed_reachable). reflexivity.
Defined.

(** ** Timers and lifespans *)

Lemma reachable_step e w w' : reachable w -> step e w = Ok w' -> reachable w'.
Proof.
  intros [es Hr] Hs. exists (es ++ [e]). revert Hr. generalize emptyWorld.
  induction es as [|e1 es1 IH]; intros w0; simpl.
  - intros [= ->]. by rewrite Hs.
  - destruct (step e1 w0) as [w3| |]; simpl; try done. apply IH.
Qed.

(** Every pending timer belongs to an item that was constructed with a
    lifespan other than zero. *)
Definition timersNonzero (w : World) : Prop :=
  forall tm, tm ∈ timers w ->
    exists it, heap w !! snd tm = Some it /\ FetchCacheItem.lifespan it <> 0%Z.

Lemma reachable_timersNonzero w : reachable w -> timersNonzero w.
Proof.
  revert w. apply (reachable_invariant timersNonzero).
  - intros tm H. by apply elem_of_nil in H.
  - intros e w w' _ IH Hs tm Htm.
    assert (Hold : tm ∈ timers w ->
              exists it, heap w' !! snd tm = Some it /\ FetchCacheItem.lifespan it <> 0%Z).
    { intros H. destruct (IH tm H) as (it & Hit & Hl).
      destruct (step_keeps_requests e w w' Hs _ it Hit) as (it' & Hit' & _ & Hl').
      exists it'. split; [done|congruence]. }
    destruct (step_cases e w w' Hs)
      as [(i & o & l & ts & _ & _ & Hcr)|[[[Hsh _]|[Hsh _]]|(r0 & tr & ->)]].
    + destruct Hcr as (Hh & _ & Ht & _). rewrite Ht in Htm.
      unfold FetchCacheItem.startsTimer in Htm.
      destruct (l =? 0)%Z eqn:El; simpl in Htm; [by apply Hold|].
      apply elem_of_app in Htm as [Htm|Htm]; [by apply Hold|].
      apply list_elem_of_singleton in Htm as ->. simpl.
      exists (FetchCacheItem.init i o l). rewrite Hh, lookup_app_r, Nat.sub_diag by done.
      split; [done|]. simpl. by apply Z.eqb_neq.
    + apply Hold. by apply Hsh.
    + apply Hold. by apply Hsh.
    + apply Hold. destruct (settle_frame r0 tr w) as (_ & _ & _ & Ht & _). by rewrite <- Ht.
Qed.

(** Events other than the two [forceExpire] methods. *)
Definition notForced (e : Event) : bool :=
  match e with
  | ForceExpireURL _ _ | ForceExpireRequest _ _ _ => false
  | _ => true
  end.

(** X10. A lifespan of zero means that the item never expires by itself:
    an item constructed with lifespan 0 has no timer, so whatever else
    happens, lookups, settlements, wipes, any amount of time, its expired
    flag only changes when a [forceExpire] method is called. *)
Theorem lifespan_zero_expires_only_when_forced es w w' r it :
  reachable w ->
  heap w !! r = Some it ->
  FetchCacheItem.lifespan it = 0%Z ->
  Forall (fun e => notForced e = true) es ->
  run es w = Ok w' ->
  exists it', heap w' !! r = Some it' /\
    FetchCacheItem.expired it' = FetchCacheItem.expired it /\
    forall tm, tm ∈ timers w' -> snd tm <> r.
Proof.
  intros Hreach Hit Hl Hall. revert w it Hreach Hit Hl.
  induction Hall as [|e es He _ IH]; intros w it Hreach Hit Hl; simpl.
  - intros [= <-]. exists it. split; [done|]. split; [done|].
    intros tm Htm Heq. destruct (reachable_timersNonzero w Hreach tm Htm) as (it0 & Hit0 & Hn).
    rewrite Heq in Hit0. congruence.
  - destruct (step e w) as [w1| |] eqn:Hs; simpl; try done. intros Hrun.
    pose proof (reachable_step e w w1 Hreach Hs) as Hreach1.
    destruct (step_keeps_requests e w w1 Hs r it Hit) as (it1 & Hit1 & _ & Hl1).
    destruct (IH w1 it1 Hreach1 Hit1) as (it' & Hit' & Hex' & Ht'); [congruence|done|].
    exists it'. split; [done|]. split; [|done]. rewrite Hex'.
    (* one event does not change the flag *)
    destruct (step_cases e w w1 Hs)
      as [(i & o & l & ts & _ & _ & Hcr)|[[[Hsh Ht]|[Hsh [dt ->]]]|(r0 & tr & ->)]].
    + destruct Hcr as (Hh & _). rewrite Hh, (lookup_app_l_Some _ _ _ _ Hit) in Hit1.
      by injection Hit1 as <-.
    + destruct e; simpl in He; try done; simpl in Hs.
      * injection Hs as <-. destruct (tag_spec tags w) as (Hh & _).
        rewrite Hh in Hit1. congruence.
      * destruct (fetch input opts lifespan tags w) as [[s w2]| |] eqn:Hf;
          simpl in Hs; try done. injection Hs as <-.
        apply fetch_heap in Hf as [->|Hf]; [congruence|].
        rewrite Hf, (lookup_app_l_Some _ _ _ _ Hit) in Hit1. by injection Hit1 as <-.
      * destruct (nonReactFetch input opts lifespan tags w) as [[s w2]| |] eqn:Hf;
          simpl in Hs; try done. injection Hs as <-.
        apply nonReactFetch_heap in Hf as [->|Hf]; [congruence|].
        rewrite Hf, (lookup_app_l_Some _ _ _ _ Hit) in Hit1. by injection Hit1 as <-.
      * injection Hs as <-. simpl in Hit1. congruence.
      * injection Hs as <-. rewrite settle_heap, Hit in Hit1. simpl in Hit1.
        injection Hit1 as <-. destruct (bool_decide _); [|done].
        destruct (FetchCacheItem.fetch it); try done. apply generateFetch_expired.
      * injection Hs as <-. rewrite advance_heap, Hit in Hit1. simpl in Hit1.
        injection Hit1 as <-. rewrite bool_decide_eq_false_2; [done|].
        intros Hin. apply list_elem_of_fmap in Hin as (tm & Hr & Htm).
        apply elem_of_filter_bool in Htm.
        destruct (reachable_timersNonzero w Hreach tm Htm) as (it0 & Hit0 & Hn).
        rewrite <- Hr in Hit0. congruence.
    + simpl in Hs. injection Hs as <-. rewrite advance_heap, Hit in Hit1. simpl in Hit1.
      injection Hit1 as <-. rewrite bool_decide_eq_false_2; [done|].
      intros Hin. apply list_elem_of_fmap in Hin as (tm & Hr & Htm).
      apply elem_of_filter_bool in Htm.
      destruct (reachable_timersNonzero w Hreach tm Htm) as (it0 & Hit0 & Hn).
      rewrite <- Hr in Hit0. congruence.
    + rewrite settle_heap, Hit in Hit1. simpl in Hit1.
      injection Hit1 as <-. destruct (bool_decide _); [|done].
      destruct (FetchCacheItem.fetch it); try done. apply generateFetch_expired.
Qed.

Definition scene_mixed_later : World :=
  match run [Advance 1000000; WipeCache ["a"%string]; Settle 2 jsonNull] scene_mixed with
  | Ok w => w
  | _ => emptyWorld
  end.

Lemma lifespan_zero_expires_only_when_forced_witness :
  reachable scene_mixed /\
  heap scene_mixed !! 2 = Some (FetchCacheItem.init (Url "/z") optsPOST 0) /\
  run [Advance 1000000; WipeCache ["a"%string]; Settle 2 jsonNull] scene_mixed
    = Ok scene_mixed_later /\
  exists it', heap scene_mixed_later !! 2 = Some it' /\ FetchCacheItem.expired it' = false.
Proof.
  assert (H2 : heap scene_mixed !! 2 = Some (FetchCacheItem.init (Url "/z") optsPOST 0))
    by reflexivity.
  assert (H3 : run [Advance 1000000; WipeCache ["a"%string]; Settle 2 jsonNull] scene_mixed
               = Ok scene_mixed_later) by (vm_compute; reflexivity).
  split; [exact scene_mixed_reachable|]. split; [exact H2|]. split; [exact H3|].
  assert (H4 : Forall (fun e => notForced e = true)
                 [Advance 1000000; WipeCache ["a"%string]; Settle 2 jsonNull])
    by (repeat constructor).
  destruct (lifespan_zero_expires_only_when_forced _ _ _ 2 _ scene_mixed_reachable H2 eq_refl
              H4 H3) as (it' & Hit' & Hex' & _).
  exists it'. split; [exact Hit'|]. rewrite Hex'. reflexivity.
Defined.

(** ** Invariants of the arrays *)

(** No array holds two different live items for one request. *)
Definition uniqueLive (w : World) : Prop :=
  forall tag items input opts r1 r2,
    fetchCache w !! tag = Some items -> r1 ∈ items -> r2 ∈ items ->
    liveMatch (FetchCacheItem.argsEqual input opts) w r1 = true ->
    liveMatch (FetchCacheItem.argsEqual input opts) w r2 = true ->
    r1 = r2.

Lemma shrinks_live P w w' x :
  (forall it, P (FetchCacheItem.setExpired it) = P it) ->
  shrinks w w' -> liveMatch P w' x = true -> liveMatch P w x = true.
Proof.
  intros HP Hsh Hl. apply liveMatch_true in Hl as (it' & Hit' & HPt & Hex).
  destruct (shrinks_back _ _ _ _ Hsh Hit') as (it & Hit & [->|[_ ->]]); [|done].
  apply liveMatch_true. eauto.
Qed.

Lemma argsEqual_init input opts lifespan input' opts' :
  FetchCacheItem.argsEqual input' opts' (FetchCacheItem.init input opts lifespan) = true ->
  input' = input /\ opts' = opts.
Proof.
  unfold FetchCacheItem.argsEqual. simpl. intros H.
  apply andb_true_iff in H as [H1 H2].
  split; by apply deepEqual_true.
Qed.

Lemma reachable_wfWorld w : reachable w -> wfWorld w.
Proof. intros [es H]. by apply reachable_wf in H as (? & _). Qed.

(** X11. Lookups never store a second live item for a request beside a
    first one: in every reachable world, within the array of any one tag,
    all references to live items with the same input and options are
    references to one and the same item. *)
Theorem one_live_item_per_tag_and_request w tag items input opts r1 r2 :
  reachable w ->
  fetchCache w !! tag = Some items ->
  r1 ∈ items -> r2 ∈ items ->
  liveMatch (FetchCacheItem.argsEqual input opts) w r1 = true ->
  liveMatch (FetchCacheItem.argsEqual input opts) w r2 = true ->
  r1 = r2.
Proof.
  intros Hreach. revert tag items input opts r1 r2.
  change (uniqueLive w). revert w Hreach. apply (reachable_invariant uniqueLive).
  - intros tag items input opts r1 r2 H. simpl in H. by rewrite lookup_empty in H.
  - intros e w w' Hreach IH Hs tag items' input opts r1 r2 Hi' H1 H2 Hl1 Hl2.
    pose proof (reachable_wfWorld w Hreach) as Hwf.
    assert (Hshr : shrinks w w' -> r1 = r2).
    { intros Hsh. destruct Hsh as (Hexp & Hlen & Hc & Ht & Harr).
      destruct (Harr tag items' Hi') as [->|(items & Hi & Hsub)];
        [by apply elem_of_nil in H1|].
      apply (IH tag items input opts r1 r2 Hi (Hsub _ H1) (Hsub _ H2)).
      - eapply shrinks_live; [apply setExpired_args| |exact Hl1]. by repeat split.
      - eapply shrinks_live; [apply setExpired_args| |exact Hl2]. by repeat split. }
    destruct (step_cases e w w' Hs)
      as [(i & o & l & ts & Hok & Hmiss & Hcr)|[[[Hsh _]|[Hsh _]]|(r0 & tr & ->)]];
      [|by apply Hshr|by apply Hshr|].
    + destruct Hcr as (Hh & _ & _ & _ & _ & _ & Harr). rewrite Harr in Hi'.
      destruct (fetchCache w !! tag) as [items|] eqn:Hi; simpl in Hi'; [|done].
      injection Hi' as <-.
      assert (Hold : forall x, x ∈ items ->
                liveMatch (FetchCacheItem.argsEqual input opts) w' x
                = liveMatch (FetchCacheItem.argsEqual input opts) w x).
      { intros x Hx. apply liveMatch_ext. rewrite Hh. apply lookup_app_l. by eapply Hwf. }
      assert (Hnew : forall x, x ∈ items ->
                liveMatch (FetchCacheItem.argsEqual input opts) w' x = true ->
                liveMatch (FetchCacheItem.argsEqual input opts) w' (length (heap w)) = true ->
                length (List.filter (fun t => bool_decide (t = tag)) ts) <> 0 ->
                False).
      { intros x Hx Hlx Hln Hcount. rewrite (Hold x Hx) in Hlx.
        apply liveMatch_true in Hln as (itn & Hitn & Hargs & _).
        rewrite Hh, lookup_app_r, Nat.sub_diag in Hitn by done. injection Hitn as <-.
        apply argsEqual_init in Hargs as [-> ->].
        destruct (decide (tag ∈ ts)) as [Hin|Hnin]; [|by rewrite count_tag_zero in Hcount].
        assert (Hxe : x ∈ entries ts w) by (apply elem_of_entries; eauto).
        rewrite (proj1 (find_none_iff _ _) Hmiss x Hxe) in Hlx. done. }
      apply elem_of_app in H1 as [H1|H1], H2 as [H2|H2].
      * apply (IH tag items input opts r1 r2 Hi H1 H2); by rewrite <- Hold.
      * apply elem_of_replicate in H2 as [-> Hn]. exfalso. by eapply (Hnew r1).
      * apply elem_of_replicate in H1 as [-> Hn]. exfalso. by eapply (Hnew r2).
      * apply elem_of_replicate in H1 as [-> _], H2 as [-> _]. done.
    + destruct (settle_frame r0 tr w) as (Hc & _). rewrite Hc in Hi'.
      apply (IH tag items' input opts r1 r2 Hi' H1 H2);
        by rewrite <- (settle_liveMatch_args input opts r0 tr).
Qed.

Lemma one_live_item_per_tag_and_request_witness :
  reachable scene_mixed /\
  fetchCache scene_mixed !! "a"%string = Some [0; 1; 2] /\
  liveMatch (FetchCacheItem.argsEqual (Url "/y") None) scene_mixed 1 = true /\
  forall r, r ∈ [0; 1; 2] ->
    liveMatch (FetchCacheItem.argsEqual (Url "/y") None) scene_mixed r = true -> r = 1.
Proof.
  assert (H2 : fetchCache scene_mixed !! "a"%string = Some [0; 1; 2]) by reflexivity.
  assert (H3 : liveMatch (FetchCacheItem.argsEqual (Url "/y") None) scene_mixed 1 = true)
    by reflexivity.
  split; [exact scene_mixed_reachable|]. split; [exact H2|]. split; [exact H3|].
  intros r Hr Hl.
  apply (one_live_item_per_tag_and_request scene_mixed "a" [0; 1; 2] (Url "/y") None r 1
           scene_mixed_reachable H2 Hr); [|exact Hl|exact H3].
  apply list_elem_of_further. constructor.
Defined.



(** Events that are neither a [forceExpire] nor a wipe. *)
Definition quiet (e : Event) : bool :=
  match e with
  | ForceExpireURL _ _ | ForceExpireRequest _ _ _ | WipeCache _ => false
  | _ => true
  end.

(** X13. Only the invalidation methods ever remove a reference from an
    array.  Lookups, constructions of instances, settlements and the
    timers leave every array as it was or longer, in the same order: an
    item expired by its timer is skipped by the searches but stays stored
    under each of its tags. *)
Theorem only_invalidation_removes_references es w w' tag items :
  Forall (fun e => quiet e = true) es ->
  run es w = Ok w' ->
  fetchCache w !! tag = Some items ->
  exists more, fetchCache w' !! tag = Some (items ++ more).
Proof.
  intros Hall. revert w items. induction Hall as [|e es He _ IH]; intros w items; simpl.
  - intros [= <-] Hi. exists []. by rewrite app_nil_r.
  - destruct (step e w) as [w1| |] eqn:Hs; simpl; try done. intros Hrun Hi.
    assert (H1 : exists more, fetchCache w1 !! tag = Some (items ++ more)).
    { destruct e; simpl in He; try done; simpl in Hs.
      - injection Hs as <-. destruct (tag_spec tags w) as (_ & _ & _ & _ & _ & Hl & _).
        exists []. rewrite app_nil_r. by apply Hl.
      - destruct (fetch input opts lifespan tags w) as [[s w2]| |] eqn:Hf;
          simpl in Hs; try done. injection Hs as <-.
        apply fetch_cases in Hf as [->|[_ Hcr]].
        + exists []. by rewrite app_nil_r.
        + destruct Hcr as (_ & _ & _ & _ & _ & _ & Hl). rewrite Hl, Hi. simpl. eauto.
      - destruct (nonReactFetch input opts lifespan tags w) as [[s w2]| |] eqn:Hf;
          simpl in Hs; try done. injection Hs as <-.
        apply nonReactFetch_cases in Hf as [->|[_ Hcr]].
        + exists []. by rewrite app_nil_r.
        + destruct Hcr as (_ & _ & _ & _ & _ & _ & Hl). rewrite Hl, Hi. simpl. eauto.
      - injection Hs as <-. destruct (settle_frame r tr w) as (-> & _).
        exists []. by rewrite app_nil_r.
      - injection Hs as <-. destruct (advance_frame dt w) as (-> & _).
        exists []. by rewrite app_nil_r. }
    destruct H1 as [more1 H1]. destruct (IH w1 _ Hrun H1) as [more2 H2].
    exists (more1 ++ more2). by rewrite app_assoc.
Qed.

Definition scene_refetch_after_expiry : list Event :=
  [Advance 1000; Fetch (Url "/y") None 500 ["a"%string]].

Definition scene_mixed_refetched : World :=
  match run scene_refetch_after_expiry scene_mixed with
  | Ok w => w
  | _ => emptyWorld
  end.

Lemma only_invalidation_removes_references_witness :
  Forall (fun e => quiet e = true) scene_refetch_after_expiry /\
  run scene_refetch_after_expiry scene_mixed = Ok scene_mixed_refetched /\
  fetchCache scene_mixed !! "a"%string = Some [0; 1; 2] /\
  expiredAt scene_mixed_refetched 1 = true /\
  fetchCache scene_mixed_refetched !! "a"%string = Some [0; 1; 2; 3].
Proof.
  assert (H0 : Forall (fun e => quiet e = true) scene_refetch_after_expiry)
    by (repeat constructor).
  assert (H1 : run scene_refetch_after_expiry scene_mixed = Ok scene_mixed_refetched)
    by (vm_compute; reflexivity).
  assert (H2 : fetchCache scene_mixed !! "a"%string = Some [0; 1; 2]) by reflexivity.
  split; [exact H0|]. split; [exact H1|]. split; [exact H2|].
  split; [vm_compute; reflexivity|].
  destruct (only_invalidation_removes_references scene_refetch_after_expiry scene_mixed
              scene_mixed_refetched "a" [0; 1; 2] H0 H1 H2) as [more Hmore].
  rewrite Hmore. vm_compute in Hmore. injection Hmore as <-. reflexivity.
Defined.

(** ** Decoding *)

Lemma includes_true needle s :
  includes needle s = true <->
  exists m, String.substring m (String.length needle) s = needle.
Proof.
  unfold includes. destruct (String.index 0 needle s) as [m|] eqn:E; split; try done.
  - intros _. exists m. by eapply String.index_correct1.
  - intros [m Hm]. exfalso. destruct needle as [|c needle].
    + apply String.index_correct4 in E. lia.
    + by apply (String.index_correct3 0 m _ _ E); [|lia|].
Qed.

(** What a synchronous lookup answers right after the fetch of the item it
    finds has settled. *)
Lemma fetch_after_settle input opts lifespan tags w r it tr :
  tagsOk tags w ->
  findFetchItem input opts tags w = Ok (Some r) ->
  heap w !! r = Some it ->
  FetchCacheItem.fetch it = Pending ->
  fetch input opts lifespan tags (settle r tr w)
  = Ok (peek r (FetchCacheItem.generateFetch tr it), settle r tr w).
Proof.
  intros Hok Hfind Hit Hp. set (w' := settle r tr w).
  assert (Hit' : heap w' !! r = Some (FetchCacheItem.generateFetch tr it)).
  { unfold w'. rewrite settle_heap, Hit. simpl. by rewrite bool_decide_eq_true_2, Hp. }
  destruct (settle_frame r tr w) as (Hc & _).
  assert (Hok' : tagsOk tags w') by (by eapply tagsOk_same_cache).
  assert (Hf' : find (liveMatch (FetchCacheItem.argsEqual input opts) w') (entries tags w')
                = Some r).
  { unfold findFetchItem in Hfind. rewrite (findWith_entries _ _ _ Hok) in Hfind.
    injection Hfind as Hfind. rewrite (entries_same_cache tags w w' Hc).
    rewrite <- Hfind. apply find_ext_in. intros x _. apply settle_liveMatch_args. }
  destruct (fetch_hit input opts lifespan tags w' r Hok' Hf') as (it2 & Hit2 & _ & _ & ->).
  rewrite Hit' in Hit2. by injection Hit2 as <-.
Qed.

(** X14. [generateFetch] decodes by the [Content-Type] header alone: the
    body is parsed with [json()] exactly when the header contains the text
    [application/json] somewhere, for instance followed by a charset, and
    read with [text()] otherwise, which includes a response without the
    header.  A body read as text is stored as a string, so it is never
    nullish: once such a fetch has settled, the synchronous lookup returns
    the string, the empty string included. *)
Theorem decode_follows_the_content_type resp :
  (includes "application/json" (default ""%string (contentType resp)) = true <->
   exists ct m, contentType resp = Some ct /\
     String.substring m 16 ct = "application/json"%string) /\
  ((exists ct m, contentType resp = Some ct /\
      String.substring m 16 ct = "application/json"%string) ->
   FetchCacheItem.decode (Returns resp) = json resp) /\
  (~ (exists ct m, contentType resp = Some ct /\
        String.substring m 16 ct = "application/json"%string) ->
   FetchCacheItem.decode (Returns resp) = completion_map JStr (text resp) /\
   forall s, text resp = Returns s ->
     FetchCacheItem.decode (Returns resp) = Returns (JStr s) /\
     forall input opts lifespan tags w r it,
       tagsOk tags w ->
       findFetchItem input opts tags w = Ok (Some r) ->
       heap w !! r = Some it ->
       FetchCacheItem.fetch it = Pending ->
       nullish (FetchCacheItem.error it) = true ->
       fetch input opts lifespan tags (settle r (Returns resp) w)
       = Ok (Return (JStr s), settle r (Returns resp) w)).
Proof.
  assert (Hiff : includes "application/json" (default ""%string (contentType resp)) = true <->
            exists ct m, contentType resp = Some ct /\
              String.substring m 16 ct = "application/json"%string).
  { rewrite includes_true. simpl. split.
    - intros [m Hm]. destruct (contentType resp) as [ct|]; simpl in Hm; [eauto|].
      destruct m; done.
    - intros (ct & m & -> & Hm). eauto. }
  split; [done|]. split.
  - intros H. apply Hiff in H. unfold FetchCacheItem.decode. by rewrite H.
  - intros Hn.
    assert (Hdec : FetchCacheItem.decode (Returns resp) = completion_map JStr (text resp)).
    { unfold FetchCacheItem.decode.
      destruct (includes _ _) eqn:E; [|done]. exfalso. by apply Hn, Hiff. }
    split; [done|]. intros s Hs. rewrite Hdec, Hs. simpl. split; [done|].
    intros input opts lifespan tags w r it Hok Hfind Hit Hp Herr.
    rewrite (fetch_after_settle input opts lifespan tags w r it _ Hok Hfind Hit Hp).
    unfold peek, FetchCacheItem.generateFetch. rewrite Hdec, Hs. simpl. by rewrite Herr.
Qed.

(** ** The loop of [forceExpire] *)

(** The number of items a [forceExpire] has to expire. *)
Definition selectedCount (Q : FetchCacheItem.t -> bool) (tags : list string) (w : World) : nat :=
  length (List.filter (selected Q tags w) (seq 0 (length (heap w)))).

Lemma filter_remove_one (f g : nat -> bool) (l : list nat) r :
  NoDup l -> r ∈ l -> f r = true -> g r = false ->
  (forall x, x <> r -> g x = f x) ->
  length (List.filter f l) = S (length (List.filter g l)).
Proof.
  intros Hnd Hin Hf Hg Hsame. induction l as [|a l IH]; [by apply elem_of_nil in Hin|].
  apply NoDup_cons in Hnd as [Ha Hnd]. simpl.
  destruct (decide (a = r)) as [->|Hne].
  - rewrite Hf, Hg. simpl. f_equal. f_equal. clear IH Hin.
    induction l as [|b l IH]; simpl; [done|].
    apply not_elem_of_cons in Ha as [Hb Ha]. apply NoDup_cons in Hnd as [_ Hnd].
    rewrite (Hsame b (not_eq_sym Hb)). by rewrite (IH Ha Hnd).
  - apply elem_of_cons in Hin as [Hin|Hin]; [congruence|].
    rewrite (Hsame a Hne). destruct (f a); simpl; rewrite (IH Hnd Hin); done.
Qed.

Lemma selected_none Q tags w :
  find (liveMatch Q w) (entries tags w) = None -> forall x, selected Q tags w x = false.
Proof.
  intros Hf x. unfold selected. destruct (decide (x ∈ entries tags w)) as [Hx|Hx].
  - by rewrite (proj1 (find_none_iff _ _) Hf x Hx), andb_false_r.
  - by rewrite bool_decide_eq_false_2.
Qed.

Lemma selectedCount_none Q tags w :
  find (liveMatch Q w) (entries tags w) = None -> selectedCount Q tags w = 0.
Proof.
  intros Hf. unfold selectedCount. generalize (seq 0 (length (heap w))).
  induction l as [|x l IH]; simpl; [done|]. by rewrite (selected_none Q tags w Hf x).
Qed.

Lemma selected_after_expire Q tags w r it x :
  heap w !! r = Some it ->
  selected Q tags (setExpiredAt r w) x
  = if bool_decide (x = r) then false else selected Q tags w x.
Proof.
  intros Hit. destruct (setExpiredAt_frame r w) as (Hc & _).
  unfold selected. rewrite (entries_same_cache tags w _ Hc).
  unfold liveMatch. rewrite setExpiredAt_heap.
  destruct (decide (x = r)) as [->|Hne].
  - rewrite !(bool_decide_eq_true_2 (r = r)), Hit by done. simpl.
    unfold FetchCacheItem.isExpired. simpl. by rewrite !andb_false_r.
  - rewrite !(bool_decide_eq_false_2 (x = r)) by done. by destruct (heap w !! x).
Qed.

Lemma selectedCount_expire Q tags w r :
  find (liveMatch Q w) (entries tags w) = Some r ->
  selectedCount Q tags w = S (selectedCount Q tags (setExpiredAt r w)).
Proof.
  intros Hf. apply find_some_iff in Hf as [Hr Hlive]. pose proof Hlive as Hlive'.
  apply liveMatch_true in Hlive' as (it & Hit & _ & _).
  destruct (setExpiredAt_frame r w) as (_ & _ & _ & _ & _ & _ & Hlen).
  unfold selectedCount. rewrite Hlen. apply (filter_remove_one _ _ _ r).
  - apply NoDup_seq.
  - apply elem_of_seq. apply lookup_lt_Some in Hit. lia.
  - unfold selected. by rewrite bool_decide_eq_true_2, Hlive.
  - by rewrite (selected_after_expire Q tags w r it r Hit), bool_decide_eq_true_2.
  - intros x Hne. by rewrite (selected_after_expire Q tags w r it x Hit), bool_decide_eq_false_2.
Qed.

Lemma markExpired_after_expire Q tags w r :
  find (liveMatch Q w) (entries tags w) = Some r ->
  with_heap (markExpired (selected Q tags (setExpiredAt r w)) (heap (setExpiredAt r w)))
            (setExpiredAt r w)
  = with_heap (markExpired (selected Q tags w) (heap w)) w.
Proof.
  intros Hf. apply find_some_iff in Hf as [Hr Hlive]. pose proof Hlive as Hlive'.
  apply liveMatch_true in Hlive' as (it & Hit & _ & _).
  assert (Hselr : selected Q tags w r = true)
    by (unfold selected; by rewrite bool_decide_eq_true_2, Hlive).
  assert (Hheap : markExpired (selected Q tags (setExpiredAt r w)) (heap (setExpiredAt r w))
                  = markExpired (selected Q tags w) (heap w)).
  { apply list_eq. intros x. unfold markExpired. rewrite !list_lookup_imap.
    rewrite setExpiredAt_heap, (selected_after_expire Q tags w r it x Hit).
    destruct (heap w !! x) as [itx|] eqn:Hx; simpl; [|done]. f_equal.
    destruct (decide (x = r)) as [->|Hne].
    - by rewrite bool_decide_eq_true_2, Hselr.
    - by rewrite bool_decide_eq_false_2. }
  rewrite Hheap. unfold setExpiredAt. rewrite Hit. by destruct w.
Qed.

(** X15. The [while] loop of [forceExpireURL] and [forceExpireRequest]
    always ends, after exactly as many rounds as there are live items to
    expire: each round expires one of them and the search that follows
    no longer returns it.  With fuel for that many rounds the loop
    completes, with less it does not; the fuel the model gives it, the
    number of items in the heap, is always enough. *)
Theorem forceExpire_loop_runs_once_per_item Q tags w fuel :
  tagsOk tags w ->
  expireLoop fuel (findWith Q tags)
    (find (liveMatch Q w) (entries tags w)) w
  = (if decide (selectedCount Q tags w <= fuel)
     then Ok (with_heap (markExpired (selected Q tags w) (heap w)) w)
     else OutOfFuel) /\
  selectedCount Q tags w <= length (heap w).
Proof.
  intros Hok. split.
  2:{ unfold selectedCount.
      etransitivity; [apply List.filter_length_le|]. by rewrite length_seq. }
  revert w Hok. induction fuel as [|fuel IH]; intros w Hok.
  all: destruct (find (liveMatch Q w) (entries tags w)) as [r|] eqn:Hf; simpl.
  - rewrite (selectedCount_expire Q tags w r Hf). by rewrite decide_False by lia.
  - rewrite (selectedCount_none Q tags w Hf), decide_True by lia.
    rewrite markExpired_none; [by rewrite with_heap_same|].
    intros x _. by apply selected_none.
  - destruct (setExpiredAt_frame r w) as (Hc & _).
    assert (Hok1 : tagsOk tags (setExpiredAt r w)) by (by eapply tagsOk_same_cache).
    rewrite (findWith_entries Q tags _ Hok1). simpl. rewrite (IH _ Hok1).
    rewrite (selectedCount_expire Q tags w r Hf).
    destruct (decide (selectedCount Q tags (setExpiredAt r w) <= fuel)) as [Hle|Hgt].
    + rewrite decide_True by lia. f_equal. by apply markExpired_after_expire.
    + by rewrite decide_False by lia.
  - rewrite (selectedCount_none Q tags w Hf), decide_True by lia.
    rewrite markExpired_none; [by rewrite with_heap_same|].
    intros x _. by apply selected_none.
Qed.

Lemma forceExpire_loop_runs_once_per_item_witness :
  tagsOk ["a"; "b"]%string scene_urls /\
  selectedCount (FetchCacheItem.urlEqual "/x") ["a"; "b"]%string scene_urls = 3 /\
  expireLoop 2 (findFetchURL "/x" ["a"; "b"]%string)
    (find (liveMatch (FetchCacheItem.urlEqual "/x") scene_urls)
          (entries ["a"; "b"]%string scene_urls)) scene_urls = OutOfFuel /\
  exists w', expireLoop 3 (findFetchURL "/x" ["a"; "b"]%string)
    (find (liveMatch (FetchCacheItem.urlEqual "/x") scene_urls)
          (entries ["a"; "b"]%string scene_urls)) scene_urls = Ok w'.
Proof.
  assert (H : tagsOk ["a"; "b"]%string scene_urls).
  { repeat constructor; eexists; vm_compute; reflexivity. }
  assert (Hn : selectedCount (FetchCacheItem.urlEqual "/x") ["a"; "b"]%string scene_urls = 3)
    by (vm_compute; reflexivity).
  split; [exact H|]. split; [exact Hn|].
  pose proof (proj1 (forceExpire_loop_runs_once_per_item (FetchCacheItem.urlEqual "/x")
                       ["a"; "b"]%string scene_urls 2 H)) as H2.
  pose proof (proj1 (forceExpire_loop_runs_once_per_item (FetchCacheItem.urlEqual "/x")
                       ["a"; "b"]%string scene_urls 3 H)) as H3.
  rewrite Hn in H2, H3. simpl in H2, H3. split; [exact H2|]. eexists. exact H3.
Defined.

(** * The flat-list design *)

Module FlatFacts.
Import FlatFetchSuspense.

(** What can happen to the flat cache. *)
Inductive FlatEvent : Type :=
| FFetch (input : RequestInfo) (opts : option RequestInit) (lifespan : Z)
| FSettle (o : nat) (tr : Completion Response)
| FAdvance (dt : N)
| FForceExpireURL (uri : string)
| FForceExpireRequest (input : RequestInfo) (opts : option RequestInit)
| FWipeCache.

Definition flatStep (e : FlatEvent) (s : State) : State :=
  match e with
  | FFetch input opts lifespan => snd (fetch input opts lifespan s)
  | FSettle o tr => settle o tr s
  | FAdvance dt => advance dt s
  | FForceExpireURL uri => forceExpireURL uri s
  | FForceExpireRequest input opts => forceExpireRequest input opts s
  | FWipeCache => wipeCache s
  end.

Definition flatRun (es : list FlatEvent) (s : State) : State :=
  foldl (fun acc e => flatStep e acc) s es.

Definition flatReachable (s : State) : Prop := exists es, flatRun es emptyState = s.

(** The three-way reading of an object, as in the tag-indexed design. *)
Definition flatPeek (ele : FetchCache) : Signal :=
  if negb (nullish (error ele)) then ThrowError (error ele)
  else if negb (nullish (response ele)) then Return (response ele)
  else ThrowPromise (oid ele).

Lemma flat_fetch_hit input' opts' lifespan s ele :
  find (sameRequest input' opts') (fetchCaches s) = Some ele ->
  fetch input' opts' lifespan s = (flatPeek ele, s).
Proof.
  intros H. unfold fetch, flatPeek. rewrite H.
  destruct (negb (nullish (error ele))); [done|].
  by destruct (negb (nullish (response ele))).
Qed.

Lemma flat_fetch_miss input' opts' lifespan s :
  find (sameRequest input' opts') (fetchCaches s) = None ->
  fetch input' opts' lifespan s =
  (ThrowPromise (created s),
   {| fetchCaches := fetchCaches s ++
        [mkFetchCache (created s) Pending JUndefined opts' input' JUndefined];
      created := S (created s);
      chains := chains s ++ [(created s, lifespan)];
      calls := calls s ++ [(input', opts')];
      timers := timers s;
      now := now s |}).
Proof. intros H. unfold fetch. by rewrite H. Qed.

Lemma flat_sameRequest_new input' opts' o :
  sameRequest input' opts' (mkFetchCache o Pending JUndefined opts' input' JUndefined) = true.
Proof. unfold sameRequest. simpl. by rewrite !deepEqual_refl. Qed.

(** X16. In the flat-list design a repeated [fetch] never calls the
    transport again: whatever the cache holds, after one [fetch] for a
    request a second one for the same request, with any lifespan, finds an
    object, answers from its fields and leaves the cache exactly as it is.
    The first call makes at most one transport call, for that request. *)
Theorem flat_fetch_twice_calls_transport_once input opts lifespan lifespan' s :
  (exists ele,
     find (sameRequest input opts) (fetchCaches (snd (fetch input opts lifespan s))) = Some ele /\
     fetch input opts lifespan' (snd (fetch input opts lifespan s))
     = (flatPeek ele, snd (fetch input opts lifespan s))) /\
  (calls (snd (fetch input opts lifespan s)) = calls s \/
   calls (snd (fetch input opts lifespan s)) = calls s ++ [(input, opts)]).
Proof.
  destruct (find (sameRequest input opts) (fetchCaches s)) as [ele|] eqn:Hf.
  - rewrite (flat_fetch_hit _ _ lifespan s ele Hf). simpl. split; [|by left].
    exists ele. split; [done|]. by apply flat_fetch_hit.
  - rewrite (flat_fetch_miss _ _ lifespan s Hf). simpl. split; [|by right].
    eexists. split.
    + rewrite find_app, Hf. simpl. by rewrite flat_sameRequest_new.
    + apply flat_fetch_hit. simpl. rewrite find_app, Hf. simpl. by rewrite flat_sameRequest_new.
Qed.





(** Object identities are issued in order: everything the state refers to
    was created before, and no object is stored twice. *)
Definition flatOk (s : State) : Prop :=
  (forall ele, ele ∈ fetchCaches s -> oid ele < created s) /\
  NoDup (map oid (fetchCaches s)) /\
  (forall ch, ch ∈ chains s -> fst ch < created s) /\
  (forall tm, tm ∈ timers s -> snd tm < created s).

Lemma flat_remove_sub o l ele : ele ∈ remove o l -> ele ∈ l.
Proof. apply elem_of_filter_bool. Qed.

Lemma NoDup_map_filter {A B : Type} (f : A -> B) (g : A -> bool) (l : list A) :
  NoDup (map f l) -> NoDup (map f (List.filter g l)).
Proof.
  induction l as [|a l IH]; simpl; [done|]. intros H.
  apply NoDup_cons in H as [Ha Hnd]. destruct (g a); simpl; [|by apply IH].
  apply NoDup_cons. split; [|by apply IH].
  intros Hin. apply Ha. apply list_elem_of_fmap in Hin as (x & -> & Hx).
  apply list_elem_of_fmap. exists x. split; [done|]. by eapply elem_of_filter_bool.
Qed.

Lemma flat_foldl_remove (tms : list (Z * nat)) l ele :
  ele ∈ foldl (fun acc tm => remove (snd tm) acc) l tms <->
  ele ∈ l /\ oid ele ∉ map snd tms.
Proof.
  revert l. induction tms as [|tm tms IH]; intros l; simpl.
  - split; [intros H; split; [done|apply not_elem_of_nil]|tauto].
  - rewrite IH. unfold remove at 1. rewrite elem_of_filter_bool_iff, negb_true_iff.
    rewrite bool_decide_eq_false, not_elem_of_cons. tauto.
Qed.

Lemma flat_foldl_remove_NoDup (tms : list (Z * nat)) l :
  NoDup (map oid l) -> NoDup (map oid (foldl (fun acc tm => remove (snd tm) acc) l tms)).
Proof.
  revert l. induction tms as [|tm tms IH]; intros l H; simpl; [done|].
  apply IH. by apply NoDup_map_filter.
Qed.

Lemma flat_assign_oid tr ele : oid (assign tr ele) = oid ele.
Proof. unfold assign. by destruct (FetchCacheItem.decode tr). Qed.

Lemma flat_settle_oids o tr l :
  map oid (map (fun ele => if bool_decide (oid ele = o) then assign tr ele else ele) l)
  = map oid l.
Proof.
  induction l as [|a l IH]; simpl; [done|]. rewrite IH. f_equal.
  destruct (bool_decide _); [apply flat_assign_oid|done].
Qed.

Lemma flatStep_ok e s : flatOk s -> flatOk (flatStep e s).
Proof.
  intros (Hc & Hnd & Hch & Htm). destruct e as [i op lifespan|o tr|dt|uri|i op|]; simpl.
  - destruct (find (sameRequest i op) (fetchCaches s)) as [ele|] eqn:Hf.
    + by rewrite (flat_fetch_hit _ _ lifespan s ele Hf).
    + rewrite (flat_fetch_miss _ _ lifespan s Hf). simpl. repeat split; simpl.
      * intros ele Hin. apply elem_of_app in Hin as [Hin|Hin].
        -- specialize (Hc ele Hin). lia.
        -- apply list_elem_of_singleton in Hin as ->. simpl. lia.
      * rewrite map_app. simpl. apply NoDup_app. split; [done|]. split.
        -- intros x Hx Hx'. apply list_elem_of_singleton in Hx' as ->.
           apply list_elem_of_fmap in Hx as (ele & He & Hin).
           specialize (Hc ele Hin). lia.
        -- apply NoDup_singleton.
      * intros ch Hin. apply elem_of_app in Hin as [Hin|Hin].
        -- specialize (Hch ch Hin). lia.
        -- apply list_elem_of_singleton in Hin as ->. simpl. lia.
      * intros tm Hin. specialize (Htm tm Hin). lia.
  - unfold settle. destruct (find _ (chains s)) as [[o' l]|] eqn:Hf; [|done].
    apply find_some_iff in Hf as [Hin Ho]. apply bool_decide_eq_true in Ho. simpl in Ho.
    subst o'. repeat split; simpl.
    + intros ele He. apply list_elem_of_fmap in He as (x & -> & Hx).
      destruct (bool_decide _); [rewrite flat_assign_oid|]; by apply Hc.
    + by rewrite flat_settle_oids.
    + intros ch Hc'. apply elem_of_filter_bool in Hc'. by apply Hch.
    + intros tm Ht. destruct (0 <? l)%Z; [|by apply Htm].
      apply elem_of_app in Ht as [Ht|Ht]; [by apply Htm|].
      apply list_elem_of_singleton in Ht as ->. simpl. by apply (Hch _ Hin).
  - repeat split; simpl.
    + intros ele He. apply flat_foldl_remove in He as [He _]. by apply Hc.
    + by apply flat_foldl_remove_NoDup.
    + done.
    + intros tm Ht. apply elem_of_filter_bool in Ht. by apply Htm.
  - repeat split; simpl; try done.
    + intros ele He. apply elem_of_filter_bool in He. by apply Hc.
    + by apply NoDup_map_filter.
  - repeat split; simpl; try done.
    + intros ele He. apply elem_of_filter_bool in He. by apply Hc.
    + by apply NoDup_map_filter.
  - repeat split; simpl; try done.
    + intros ele He. by apply elem_of_nil in He.
    + apply NoDup_nil_2.
Qed.

Lemma flatReachable_ok s : flatReachable s -> flatOk s.
Proof.
  intros [es <-]. unfold flatRun.
  assert (Hgen : forall s0, flatOk s0 -> flatOk (foldl (fun acc e => flatStep e acc) s0 es)).
  { induction es as [|e es IH]; intros s0 H0; simpl; [done|]. apply IH. by apply flatStep_ok. }
  apply Hgen. repeat split; simpl; try (intros x Hx; by apply elem_of_nil in Hx).
  apply NoDup_nil_2.
Qed.

Definition isSettle (e : FlatEvent) : bool :=
  match e with
  | FSettle _ _ => true
  | _ => false
  end.

Lemma flat_settle_absent o tr s :
  o ∉ map oid (fetchCaches s) -> fetchCaches (settle o tr s) = fetchCaches s.
Proof.
  intros Hn. unfold settle. destruct (find _ (chains s)) as [[o' l]|]; [|done]. simpl.
  induction (fetchCaches s) as [|a l0 IH]; simpl; [done|].
  simpl in Hn. apply not_elem_of_cons in Hn as [Ha Hn].
  rewrite bool_decide_eq_false_2 by done. by rewrite IH.
Qed.

(** X18. In the flat-list design an invalidated object never comes back:
    when the promise chain of an object completes after the object left
    the array, by [forceExpireURL], [forceExpireRequest], [wipeCache] or its
    own timer, the array is left as it is and no transport call is made.
    In particular after [wipeCache] the array stays empty whatever fetches
    complete, and the next [fetch] of any request calls the transport. *)
Theorem flat_settlement_does_not_restore_an_object o tr s :
  (o ∉ map oid (fetchCaches s) ->
   fetchCaches (settle o tr s) = fetchCaches s /\ calls (settle o tr s) = calls s) /\
  (forall es, Forall (fun e => isSettle e = true) es ->
     fetchCaches (flatRun es (wipeCache s)) = [] /\
     calls (flatRun es (wipeCache s)) = calls s /\
     forall i op l,
       calls (snd (fetch i op l (flatRun es (wipeCache s)))) = calls s ++ [(i, op)]).
Proof.
  split.
  - intros Hn. split; [by apply flat_settle_absent|].
    unfold settle. by destruct (find _ (chains s)) as [[o' l]|].
  - intros es Hall.
    assert (Hgen : forall s0, fetchCaches s0 = [] ->
              fetchCaches (flatRun es s0) = [] /\ calls (flatRun es s0) = calls s0).
    { induction Hall as [|e es He _ IH]; intros s0 H0; simpl; [done|].
      destruct e as [| o' tr' | | | |]; simpl in He; try done. simpl.
      assert (Hs : fetchCaches (settle o' tr' s0) = [] /\ calls (settle o' tr' s0) = calls s0).
      { unfold settle. destruct (find _ (chains s0)) as [[o2 l2]|]; [|done]. simpl.
        by rewrite H0. }
      destruct Hs as [Hs1 Hs2]. destruct (IH _ Hs1) as [IH1 IH2].
      unfold flatRun in *. split; [done|]. by rewrite IH2. }
    destruct (Hgen (wipeCache s) eq_refl) as [H1 H2].
    split; [done|]. split; [done|]. intros i op l.
    rewrite flat_fetch_miss by (by rewrite H1). simpl. by rewrite H2.
Qed.

Lemma flat_advance_keeps (s : State) dt ele :
  ele ∈ fetchCaches (advance dt s) <->
  ele ∈ fetchCaches s /\
  oid ele ∉ map snd (List.filter (due (now s + Z.of_N dt)) (timers s)).
Proof. unfold advance. simpl. apply flat_foldl_remove. Qed.

(** X19. In the flat-list design a new object cannot be evicted by what
    came before it: when a [fetch] creates an object, no timer and no
    promise chain of an earlier object refers to it, so for as long as its
    own fetch is in flight it stays in the array, and every further
    [fetch] of the request finds it and calls no transport, however much
    time passes. *)
Theorem flat_new_object_outlives_old_timers i op l s dt :
  flatReachable s ->
  find (sameRequest i op) (fetchCaches s) = None ->
  exists ele,
    find (sameRequest i op) (fetchCaches (advance dt (snd (fetch i op l s)))) = Some ele /\
    oid ele = created s /\
    fetch_ ele = Pending /\
    forall l', fetch i op l' (advance dt (snd (fetch i op l s)))
               = (ThrowPromise (created s), advance dt (snd (fetch i op l s))).
Proof.
  intros Hreach Hmiss. destruct (flatReachable_ok s Hreach) as (Hc & Hnd & Hch & Htm).
  rewrite (flat_fetch_miss _ _ l s Hmiss). simpl.
  set (new := mkFetchCache (created s) Pending JUndefined op i JUndefined).
  set (s1 := mkState _ _ _ _ _ _).
  assert (Hin : new ∈ fetchCaches (advance dt s1)).
  { apply flat_advance_keeps. simpl. split; [apply elem_of_app; right; constructor|].
    intros H. apply list_elem_of_fmap in H as (tm & Heq & Htmin).
    apply elem_of_filter_bool in Htmin. specialize (Htm tm Htmin). lia. }
  assert (Hf : find (sameRequest i op) (fetchCaches (advance dt s1)) = Some new).
  { apply find_only; [|done|apply flat_sameRequest_new].
    intros x Hx Hsame. apply flat_advance_keeps in Hx as [Hx _]. simpl in Hx.
    apply elem_of_app in Hx as [Hx|Hx]; [|by apply list_elem_of_singleton in Hx].
    rewrite (proj1 (find_none_iff _ _) Hmiss x Hx) in Hsame. done. }
  exists new. split; [done|]. split; [done|]. split; [done|].
  intros l'. by rewrite (flat_fetch_hit _ _ l' _ new Hf).
Qed.

Definition flat_scene_events : list FlatEvent :=
  [FFetch (Url "/a") None 1000; FSettle 0 textHello; FForceExpireURL "/a"].

Lemma flat_new_object_outlives_old_timers_witness :
  flatReachable (flatRun flat_scene_events emptyState) /\
  timers (flatRun flat_scene_events emptyState) = [(1000%Z, 0)] /\
  find (sameRequest (Url "/a") None) (fetchCaches (flatRun flat_scene_events emptyState))
    = None /\
  fst (fetch (Url "/a") None 1000
         (advance 5000 (snd (fetch (Url "/a") None 1000
                               (flatRun flat_scene_events emptyState)))))
    = ThrowPromise 1.
Proof.
  assert (H1 : flatReachable (flatRun flat_scene_events emptyState)) by (by eexists).
  assert (H3 : find (sameRequest (Url "/a") None)
                 (fetchCaches (flatRun flat_scene_events emptyState)) = None)
    by (vm_compute; reflexivity).
  split; [exact H1|]. split; [vm_compute; reflexivity|]. split; [exact H3|].
  destruct (flat_new_object_outlives_old_timers (Url "/a") None 1000 _ 5000 H1 H3)
    as (ele & _ & _ & _ & Hfetch).
  rewrite Hfetch. reflexivity.
Defined.




End FlatFacts.

(** * More on the tag-indexed design *)


(** X21. A [forceExpire] that finds something also collects garbage, but
    only under the caller's tags: afterwards the arrays of those tags hold
    no expired item at all, whether it was expired by this call, by an
    earlier one through another instance or by its timer, and keep the rest
    in order; the arrays of all other tags are left exactly as they were,
    expired items included.  A [forceExpire] that finds nothing cleans
    nothing. *)
Theorem forceExpire_hit_cleans_the_callers_tags Q tags w :
  (forall it, Q (FetchCacheItem.setExpired it) = Q it) ->
  tagsOk tags w ->
  exists w', forceExpireWith (findWith Q tags) tags w = Ok w' /\
    (forall r, findWith Q tags w = Ok (Some r) ->
       (forall tag items, tag ∈ tags -> fetchCache w !! tag = Some items ->
          fetchCache w' !! tag = Some (List.filter (fun x => negb (expiredAt w' x)) items) /\
          forall x, x ∈ List.filter (fun x => negb (expiredAt w' x)) items ->
            expiredAt w' x = false) /\
       (forall tag, tag ∉ tags -> fetchCache w' !! tag = fetchCache w !! tag)) /\
    (findWith Q tags w = Ok None -> fetchCache w' = fetchCache w /\ heap w' = heap w).
Proof.
  intros HQ Hok. rewrite (findWith_entries Q tags w Hok).
  destruct (find (liveMatch Q w) (entries tags w)) as [r0|] eqn:Hf.
  - destruct (forceExpireWith_hit Q tags w r0 Hok Hf) as (w' & Hfe & _ & _ & _ & _ & _ & _ & Hl).
    exists w'. split; [done|]. split; [|done]. intros r _. split.
    + intros tag items Htag Hi. rewrite Hl, bool_decide_eq_true_2, Hi by done.
      split; [done|]. intros x Hx. apply elem_of_filter_bool_iff in Hx as [_ Hx].
      by apply negb_true_iff.
    + intros tag Htag. by rewrite Hl, bool_decide_eq_false_2.
  - exists w. split; [by apply forceExpireWith_miss|]. split; [done|]. done.
Qed.

(** Item 1 of the mixed scene has expired by its timer; the instance tagged
    a then expires /x. *)
Lemma forceExpire_hit_cleans_the_callers_tags_witness :
  tagsOk ["a"%string] scene_mixed_refetched /\
  expiredAt scene_mixed_refetched 1 = true /\
  fetchCache scene_mixed_refetched !! "a"%string = Some [0; 1; 2; 3] /\
  exists w', forceExpireURL "/x" ["a"%string] scene_mixed_refetched = Ok w' /\
    fetchCache w' !! "a"%string = Some [2; 3].
Proof.
  assert (H : tagsOk ["a"%string] scene_mixed_refetched).
  { repeat constructor; eexists; vm_compute; reflexivity. }
  split; [exact H|]. split; [vm_compute; reflexivity|]. split; [vm_compute; reflexivity|].
  destruct (forceExpire_hit_cleans_the_callers_tags (FetchCacheItem.urlEqual "/x")
              ["a"%string] scene_mixed_refetched (urlEqual_setExpired "/x") H)
    as (w' & Hfe & _).
  exists w'. split; [exact Hfe|].
  vm_compute in Hfe. injection Hfe as <-. reflexivity.
Defined.

(** X22. The outcome of a fetch is final.  Once the promise of an item is
    fulfilled, nothing that happens afterwards, lookups, further
    settlements, invalidation, wipes or timers, changes its [error], its
    [response] or its promise: what [getPromise()] settles with and what a
    synchronous lookup reads from the item stay the same for good. *)
Theorem settled_outcome_never_changes es w w' r it :
  run es w = Ok w' ->
  heap w !! r = Some it ->
  FetchCacheItem.fetch it = Fulfilled ->
  exists it', heap w' !! r = Some it' /\
    FetchCacheItem.fetch it' = Fulfilled /\
    FetchCacheItem.error it' = FetchCacheItem.error it /\
    FetchCacheItem.response it' = FetchCacheItem.response it /\
    awaited w' r = awaited w r /\
    peek r it' = peek r it.
Proof.
  revert w it. induction es as [|e es IH]; intros w it; simpl.
  - intros [= <-] Hit Hp. exists it. by repeat split.
  - destruct (step e w) as [w1| |] eqn:Hs; simpl; try done. intros Hrun Hit Hp.
    assert (H1 : exists it1, heap w1 !! r = Some it1 /\
              FetchCacheItem.fetch it1 = Fulfilled /\
              FetchCacheItem.error it1 = FetchCacheItem.error it /\
              FetchCacheItem.response it1 = FetchCacheItem.response it).
    { destruct (step_cases e w w1 Hs)
        as [(i & o & l & ts & _ & _ & Hcr)|[[[Hsh _]|[Hsh _]]|(r0 & tr & ->)]].
      - exists it. split; [|done]. destruct Hcr as (-> & _). by apply lookup_app_l_Some.
      - destruct Hsh as (Hexp & _). destruct (Hexp r it Hit) as [H|[_ H]]; eauto.
      - destruct Hsh as (Hexp & _). destruct (Hexp r it Hit) as [H|[_ H]]; eauto.
      - exists it. split; [|done]. rewrite settle_heap, Hit. simpl.
        destruct (bool_decide _); [|done]. by rewrite Hp. }
    destruct H1 as (it1 & Hit1 & Hp1 & He1 & Hr1).
    destruct (IH w1 it1 Hrun Hit1 Hp1) as (it' & Hit' & Hp' & He' & Hr' & Ha' & Hk').
    exists it'. split; [done|]. split; [done|].
    split; [congruence|]. split; [congruence|]. split.
    + rewrite Ha'. unfold awaited. rewrite Hit1, Hit.
      unfold FetchCacheItem.getPromise. by rewrite Hp1, Hp, He1, Hr1.
    + rewrite Hk'. unfold peek. by rewrite He1, Hr1.
Qed.

Lemma settled_outcome_never_changes_witness :
  run scene_refetch_after_expiry scene_mixed = Ok scene_mixed_refetched /\
  heap scene_mixed !! 1 =
    Some (FetchCacheItem.mk JUndefined (JStr "hello") 500 false Fulfilled (Url "/y") None) /\
  awaited scene_mixed_refetched 1 = Resolves (JStr "hello").
Proof.
  assert (H1 : run scene_refetch_after_expiry scene_mixed = Ok scene_mixed_refetched)
    by (vm_compute; reflexivity).
  assert (H2 : heap scene_mixed !! 1 =
    Some (FetchCacheItem.mk JUndefined (JStr "hello") 500 false Fulfilled (Url "/y") None))
    by reflexivity.
  split; [exact H1|]. split; [exact H2|].
  destruct (settled_outcome_never_changes _ _ _ 1 _ H1 H2 eq_refl)
    as (it' & _ & _ & _ & _ & Haw & _).
  rewrite Haw. reflexivity.
Defined.
